(** * TinyJson: a shallow embedding of [include/TinyJson.h]

    The header defines a tagged JSON value ([class json]), a serializer
    ([json::to_string]) and a recursive-descent parser ([class parser])
    that reads a stream of [char32_t] code points.

    Conventions of the embedding:
    - a [char32_t] is an [N]; the end-of-input sentinel is
      [char_traits<char32_t>::eof()], that is [(char32_t)EOF = 0xFFFFFFFF];
    - a [u32_istream] is the list of code points still to be read; every
      routine that reads from the stream returns the stream it leaves;
    - a [std::string] holds UTF-8 text; it is represented by the sequence of
      code points it encodes, so [U8ToU32]/[U32ToU8] only check the code-point
      range (byte-wise order of UTF-8 text is code-point order);
    - the code points of a text are below the sentinel (UTF-8 decodes to at
      most 0x10FFFF); the character classes of [<cctype>] ([isspace],
      [isxdigit], [tolower]) are those of the "C" locale, and a code point
      outside their domain is in no class and has no lower case;
    - a C++ exception is a value of [exception]; a routine that may throw
      returns a [result];
    - a copy (copy constructor, by-value parameter, [push_back]) is [copy]:
      it returns the value, or throws on a tag outside [string .. null];
    - [long long] is a [Z] with the range test of [std::stoll] written out;
      [double] is an IEEE binary64 number ([spec_float], 53-bit mantissa). *)

From Stdlib Require Import List ZArith NArith PArith Lia Bool String Ascii.
From Stdlib Require Import Sorted Permutation.
From Stdlib Require Import DecimalPos DecimalN.
From Stdlib Require Import SpecFloat.
Import ListNotations.

Set Implicit Arguments.
Set Warnings "-register-all".
Local Open Scope N_scope.
Local Open Scope list_scope.

(** ** Characters and strings *)

Abbreviation char32_t := N (only parsing).
Abbreviation u32string := (list N) (only parsing).
Abbreviation std_string := (list N) (only parsing).
Abbreviation u32_istream := (list N) (only parsing).

(** [(char32_t)EOF] *)
Definition EOF : char32_t := 4294967295.

(** A literal of the source, as code points. *)
Definition U (s : string) : u32string :=
  map N_of_ascii (list_ascii_of_string s).

(** A literal in which every apostrophe stands for a double quote. *)
Definition J (s : string) : u32string :=
  map (fun c => if c =? 39 then 34 else c) (U s).

(** [std::isspace] in the "C" locale: space and [\t \n \v \f \r]. *)
Definition isspace (c : char32_t) : bool :=
  (c =? 32) || ((9 <=? c) && (c <=? 13)).

(** [std::isdigit] *)
Definition isdigit (c : char32_t) : bool := (48 <=? c) && (c <=? 57).

(** [isxdigit]: [0-9], [A-F], [a-f]. *)
Definition isxdigit (c : char32_t) : bool :=
  isdigit c || ((65 <=? c) && (c <=? 70)) || ((97 <=? c) && (c <=? 102)).

(** [std::isalnum] *)
Definition isalnum (c : char32_t) : bool :=
  isdigit c || ((65 <=? c) && (c <=? 90)) || ((97 <=? c) && (c <=? 122)).

(** [std::tolower] in the "C" locale. *)
Definition tolower (c : char32_t) : char32_t :=
  if (65 <=? c) && (c <=? 90) then c + 32 else c.

(** ** Exceptions and results *)

Inductive exception : Type :=
| runtime_error (what : std_string)
| invalid_argument (what : std_string)
| out_of_range (what : std_string).

Inductive result (A : Type) : Type :=
| Ok (a : A)
| Throw (e : exception)
| OutOfFuel.

Arguments Ok {A} a.
Arguments Throw {A} e.
Arguments OutOfFuel {A}.

Definition bind {A B : Type} (r : result A) (k : A -> result B) : result B :=
  match r with
  | Ok a => k a
  | Throw e => Throw e
  | OutOfFuel => OutOfFuel
  end.

Notation "x <- e ;; k" := (bind e (fun x => k))
  (at level 61, e at next level, right associativity).
Notation "' p <- e ;; k" := (bind e (fun p => k))
  (at level 61, p pattern, e at next level, right associativity).

Definition is_throw {A : Type} (r : result A) : bool :=
  match r with Throw _ => true | _ => false end.

(** ** [trim] and the [std::string] searches it uses *)

Definition mem (c : char32_t) (set : std_string) : bool :=
  existsb (N.eqb c) set.

(** [str.find_first_not_of(set)]; [None] is [std::string::npos]. *)
Fixpoint find_first_not_of (set str : std_string) : option nat :=
  match str with
  | [] => None
  | c :: str' =>
      if mem c set then option_map S (find_first_not_of set str')
      else Some 0%nat
  end.

(** [str.find_last_not_of(set)] *)
Fixpoint find_last_not_of (set str : std_string) : option nat :=
  match str with
  | [] => None
  | c :: str' =>
      match find_last_not_of set str' with
      | Some i => Some (S i)
      | None => if mem c set then None else Some 0%nat
      end
  end.

(** [str.substr(pos, len)] *)
Definition substr (str : std_string) (pos len : nat) : std_string :=
  firstn len (skipn pos str).

Definition default_whitespace : std_string := [32; 9; 13; 10].

Definition trim (str : std_string) : std_string :=
  match find_first_not_of default_whitespace str with
  | None => []
  | Some strBegin =>
      match find_last_not_of default_whitespace str with
      | None => []
      | Some strEnd =>
          let strRange := (strEnd - strBegin + 1)%nat in
          substr str strBegin strRange
      end
  end.

(** ** C strings *)

(** The longest prefix whose code points satisfy [p], and what follows it. *)
Fixpoint span (p : char32_t -> bool) (s : std_string) : std_string * std_string :=
  match s with
  | [] => ([], [])
  | c :: s' =>
      if p c then let (a, b) := span p s' in (c :: a, b)
      else ([], s)
  end.

(** [s.c_str()] read back as a C string, and the [std::string] built from a
    [const char *]: the text up to the first NUL. *)
Definition c_str (s : std_string) : std_string :=
  fst (span (fun c => negb (c =? 0)) s).

(** [U32ToU8]: [codecvt_utf8<char32_t>] encodes code points up to 0x10FFFF and
    reports a [range_error] beyond, which the source turns into a
    [runtime_error]. *)
Definition U32ToU8 (u32 : u32string) : result std_string :=
  if forallb (fun c => c <=? 1114111) u32 then Ok u32
  else Throw (runtime_error
                (U "invalid utf32 string: wstring_convert::to_bytes")).

(** ** The cursor *)

Definition peek (strm : u32_istream) : char32_t :=
  match strm with
  | [] => EOF
  | c :: _ => c
  end.

Definition get (strm : u32_istream) : char32_t * u32_istream :=
  match strm with
  | [] => (EOF, [])
  | c :: strm' => (c, strm')
  end.

Fixpoint skip_space (strm : u32_istream) : u32_istream :=
  match strm with
  | [] => []
  | next :: strm' =>
      if negb (next =? EOF) && isspace next then skip_space strm'
      else strm
  end.

Definition get_next_non_space (strm : u32_istream) : char32_t * u32_istream :=
  get (skip_space strm).

Definition peek_next_non_space (strm : u32_istream) : char32_t * u32_istream :=
  let strm := skip_space strm in (peek strm, strm).

Definition skip_char (strm : u32_istream) (expected : char32_t)
  : result u32_istream :=
  let strm := skip_space strm in
  let next := peek strm in
  if negb (next =? expected) || (next =? EOF) then
    Throw (runtime_error (U "expected char '" ++ [expected] ++ U "' not found"))
  else Ok (snd (get strm)).

(** ** Escapes *)

Definition hex_digit_value (c : char32_t) : N :=
  if isdigit c then c - 48
  else if (65 <=? c) && (c <=? 70) then c - 55
  else c - 87.

(** The four iterations of the [for] loop of [parse_hex]. *)
Fixpoint parse_hex_loop (i : nat) (cs : u32string) (strm : u32_istream)
  : result (u32string * u32_istream) :=
  match i with
  | O => Ok (cs, strm)
  | S i' =>
      let (c, strm) := get strm in
      if negb (c =? EOF) && isxdigit c then parse_hex_loop i' (cs ++ [c]) strm
      else Throw (runtime_error (U "not hex number"))
  end.

(** [is >> std::hex >> uc] on a string of hexadecimal digits. *)
Definition read_hex (cs : u32string) : N :=
  fold_left (fun uc c => 16 * uc + hex_digit_value c) cs 0.

Definition parse_hex (strm : u32_istream) : result (char32_t * u32_istream) :=
  '(cs, strm) <- parse_hex_loop 4 [] strm ;;
  Ok (read_hex cs, strm).

Definition escape_char (strm : u32_istream) : result (char32_t * u32_istream) :=
  strm <- skip_char strm 92 ;;
  let (c, strm) := get strm in
  if c =? 34 then Ok (34, strm)            (* double quote *)
  else if c =? 92 then Ok (92, strm)       (* backslash *)
  else if c =? 47 then Ok (47, strm)       (* slash *)
  else if c =? 98 then Ok (8, strm)        (* b: backspace *)
  else if c =? 102 then Ok (12, strm)      (* f: form feed *)
  else if c =? 110 then Ok (10, strm)      (* n: newline *)
  else if c =? 114 then Ok (13, strm)      (* r: carriage return *)
  else if c =? 116 then Ok (9, strm)       (* t: tab *)
  else if c =? 117 then parse_hex strm     (* u: four hex digits *)
  else Throw (runtime_error (U "backslash is followed by invalid character")).

(** ** String literals

    [parse_string] and [parse_member] run the same [while] loop: up to the
    closing quote or the end of input, a backslash goes through
    [escape_char] and any other code point is appended as it is.  Every
    iteration consumes at least one code point, so [length strm] iterations
    are enough. *)

Fixpoint quoted_loop (fuel : nat) (val : u32string) (strm : u32_istream)
  : result (u32string * u32_istream) :=
  let c := peek strm in
  if negb (c =? EOF) && negb (c =? 34) then
    match fuel with
    | O => OutOfFuel
    | S fuel' =>
        if c =? 92 then
          '(e, strm) <- escape_char strm ;;
          quoted_loop fuel' (val ++ [e]) strm
        else
          let (c, strm) := get strm in
          quoted_loop fuel' (val ++ [c]) strm
    end
  else Ok (val, strm).

Definition parse_member (strm : u32_istream) : result (std_string * u32_istream) :=
  strm <- skip_char strm 34 ;;
  '(returnVal, strm) <- quoted_loop (List.length strm) [] strm ;;
  strm <- skip_char strm 34 ;;
  u8 <- U32ToU8 returnVal ;;
  Ok (u8, strm).

(** ** The value model *)

(** [enum json_t]; the constructors carry the enumerators' names. *)
Inductive json_t : Type :=
| t_string
| t_number_integer
| t_number_double
| t_array
| t_boolean
| t_object
| t_null
| t_invalid.

(** The integer value of an enumerator, as [operator<<] prints it. *)
Definition json_t_value (t : json_t) : N :=
  match t with
  | t_string => 0
  | t_number_integer => 1
  | t_number_double => 2
  | t_array => 3
  | t_boolean => 4
  | t_object => 5
  | t_null => 6
  | t_invalid => 7
  end.

Definition json_t_eqb (a b : json_t) : bool :=
  json_t_value a =? json_t_value b.

(** [class json]: the tag [_type] and the payload behind [_value] are one
    constructor.  A [json_object] is a [std::map<std::string, json>]: its
    members are kept in increasing key order, without duplicate keys.
    [JInvalid] stands for a value whose tag is [json_t::invalid]; no
    constructor of the class builds one. *)
Inductive json : Type :=
| JString (val : std_string)
| JInteger (val : Z)
| JDouble (val : spec_float)
| JArray (val : list json)
| JBoolean (val : bool)
| JObject (val : list (std_string * json))
| JNull
| JInvalid.

Abbreviation json_array := (list json) (only parsing).
Abbreviation json_object := (list (list N * json)) (only parsing).

Definition type (j : json) : json_t :=
  match j with
  | JString _ => t_string
  | JInteger _ => t_number_integer
  | JDouble _ => t_number_double
  | JArray _ => t_array
  | JBoolean _ => t_boolean
  | JObject _ => t_object
  | JNull => t_null
  | JInvalid => t_invalid
  end.

Definition type_name (j : json) : std_string :=
  match type j with
  | t_string => U "string"
  | t_array => U "array"
  | t_object => U "object"
  | t_number_double | t_number_integer => U "number"
  | t_boolean => U "boolean"
  | t_null => U "null"
  | t_invalid => U "invalid"
  end.

(** *** [std::map<std::string, json>] *)

(** [operator<] of [std::string]: lexicographic. *)
Fixpoint string_lt (a b : std_string) : bool :=
  match a, b with
  | _, [] => false
  | [], _ :: _ => true
  | x :: a', y :: b' =>
      if x <? y then true
      else if y <? x then false
      else string_lt a' b'
  end.

Fixpoint string_eqb (a b : std_string) : bool :=
  match a, b with
  | [], [] => true
  | x :: a', y :: b' => (x =? y) && string_eqb a' b'
  | _, _ => false
  end.

Section Map.
Variable T : Type.

(** [m.find(key)] *)
Fixpoint map_find (key : std_string) (m : list (std_string * T)) : option T :=
  match m with
  | [] => None
  | (k, v) :: m' => if string_eqb key k then Some v else map_find key m'
  end.

(** [m[key] = value]: replaces the value under an existing key, inserts in
    key order otherwise. *)
Fixpoint map_assign (key : std_string) (value : T)
         (m : list (std_string * T)) : list (std_string * T) :=
  match m with
  | [] => [(key, value)]
  | (k, v) :: m' =>
      if string_lt key k then (key, value) :: m
      else if string_lt k key then (k, v) :: map_assign key value m'
      else (k, value) :: m'
  end.
End Map.

(** *** Copies

    The copy constructor (and the copy assignment) clone the whole subtree
    and throw on a tag outside [string .. null]. *)
Fixpoint copy (other : json) : result json :=
  match other with
  | JString s => Ok (JString s)
  | JObject m =>
      m' <- (fix copy_members (m : list (std_string * json)) :=
               match m with
               | [] => Ok []
               | (k, v) :: r =>
                   v' <- copy v ;;
                   r' <- copy_members r ;;
                   Ok ((k, v') :: r')
               end) m ;;
      Ok (JObject m')
  | JDouble d => Ok (JDouble d)
  | JInteger n => Ok (JInteger n)
  | JArray l =>
      l' <- (fix copy_elements (l : list json) :=
               match l with
               | [] => Ok []
               | x :: r =>
                   x' <- copy x ;;
                   r' <- copy_elements r ;;
                   Ok (x' :: r')
               end) l ;;
      Ok (JArray l')
  | JBoolean b => Ok (JBoolean b)
  | JNull => Ok JNull
  | JInvalid => Throw (runtime_error (U "unexpected json type: invalid"))
  end.

Fixpoint copy_array (l : json_array) : result json_array :=
  match l with
  | [] => Ok []
  | x :: r => x' <- copy x ;; r' <- copy_array r ;; Ok (x' :: r')
  end.

Fixpoint copy_object (m : json_object) : result json_object :=
  match m with
  | [] => Ok []
  | (k, v) :: r => v' <- copy v ;; r' <- copy_object r ;; Ok ((k, v') :: r')
  end.

(** *** Decimal text of integers: [std::to_string] *)

Fixpoint uint_chars (d : Decimal.uint) : std_string :=
  match d with
  | Decimal.Nil => []
  | Decimal.D0 d => 48 :: uint_chars d
  | Decimal.D1 d => 49 :: uint_chars d
  | Decimal.D2 d => 50 :: uint_chars d
  | Decimal.D3 d => 51 :: uint_chars d
  | Decimal.D4 d => 52 :: uint_chars d
  | Decimal.D5 d => 53 :: uint_chars d
  | Decimal.D6 d => 54 :: uint_chars d
  | Decimal.D7 d => 55 :: uint_chars d
  | Decimal.D8 d => 56 :: uint_chars d
  | Decimal.D9 d => 57 :: uint_chars d
  end.

Definition N_to_string (n : N) : std_string := uint_chars (N.to_uint n).

(** [std::to_string(long long)] *)
Definition Z_to_string (z : Z) : std_string :=
  match z with
  | Z0 => [48]
  | Zpos p => N_to_string (Npos p)
  | Zneg p => 45 :: N_to_string (Npos p)
  end.

(** *** Type checks and getters *)

(** The macro [CHECK_TYPE_MISMATCH(t1, t2)]; every call site passes the tag
    of the value as [t1] and the tag the operation needs as [t2]. *)
Definition type_mismatch_what (t1 t2 : json_t) : std_string :=
  U "expect type " ++ N_to_string (json_t_value t1)
    ++ U ", but found type " ++ N_to_string (json_t_value t2).

Definition CHECK_TYPE_MISMATCH (t1 t2 : json_t) : result unit :=
  if negb (json_t_eqb t1 t2) then Throw (runtime_error (type_mismatch_what t1 t2))
  else Ok tt.

Definition get_string (j : json) : result std_string :=
  _ <- CHECK_TYPE_MISMATCH (type j) t_string ;;
  Ok (match j with JString s => s | _ => [] end).

Definition get_integer (j : json) : result Z :=
  _ <- CHECK_TYPE_MISMATCH (type j) t_number_integer ;;
  Ok (match j with JInteger n => n | _ => 0%Z end).

Definition get_double (j : json) : result spec_float :=
  _ <- CHECK_TYPE_MISMATCH (type j) t_number_double ;;
  Ok (match j with JDouble d => d | _ => S754_nan end).

Definition get_bool (j : json) : result bool :=
  _ <- CHECK_TYPE_MISMATCH (type j) t_boolean ;;
  Ok (match j with JBoolean b => b | _ => false end).

Definition get_object (j : json) : result json_object :=
  _ <- CHECK_TYPE_MISMATCH (type j) t_object ;;
  copy_object (match j with JObject m => m | _ => [] end).

Definition get_array (j : json) : result json_array :=
  _ <- CHECK_TYPE_MISMATCH (type j) t_array ;;
  copy_array (match j with JArray l => l | _ => [] end).

(** [get_null] returns [nullptr]. *)
Definition get_null (j : json) : result unit :=
  _ <- CHECK_TYPE_MISMATCH (type j) t_null ;;
  Ok tt.

Definition has_member (j : json) (member_name : std_string) : result bool :=
  _ <- CHECK_TYPE_MISMATCH (type j) t_object ;;
  Ok (match j with
      | JObject members =>
          match map_find member_name members with Some _ => true | None => false end
      | _ => false
      end).

(** [add_member] takes the value by copy and assigns it under the key. *)
Definition add_member (j : json) (member_name : std_string) (member_value : json)
  : result json :=
  member_value <- copy member_value ;;
  _ <- CHECK_TYPE_MISMATCH (type j) t_object ;;
  Ok (match j with
      | JObject members => JObject (map_assign member_name member_value members)
      | _ => j
      end).

Definition add_element (j : json) (elem : json) : result json :=
  elem <- copy elem ;;
  _ <- CHECK_TYPE_MISMATCH (type j) t_array ;;
  Ok (match j with
      | JArray elems => JArray (elems ++ [elem])
      | _ => j
      end).

Definition size (j : json) : result nat :=
  match j with
  | JArray array => Ok (List.length array)
  | JObject members => Ok (List.length members)
  | _ => Throw (runtime_error (U "Unexpected json type " ++ type_name j
                                 ++ U ", expected array or object"))
  end.

(** [operator[](const char *key)]: the argument is a C string, so the key
    that [find], the text of the exception and [operator[]] of the map
    receive is [std::string(key)], the text before the first NUL. *)
Definition at_key (j : json) (key : std_string) : result json :=
  _ <- CHECK_TYPE_MISMATCH (type j) t_object ;;
  let key := c_str key in
  match j with
  | JObject members =>
      match map_find key members with
      | None => Throw (runtime_error (U "key " ++ key ++ U " not found."))
      | Some v => Ok v
      end
  | _ => Ok j
  end.

(** The range of [int]. *)
Definition INT_MIN : Z := (- 2147483648)%Z.
Definition INT_MAX : Z := 2147483647%Z.

(** [operator[](int index)] *)
Definition at_index (j : json) (index : Z) : result json :=
  _ <- CHECK_TYPE_MISMATCH (type j) t_array ;;
  match j with
  | JArray array =>
      if (index <? 0)%Z || (Z.of_nat (List.length array) <=? index)%Z then
        Throw (runtime_error (U "index " ++ Z_to_string index ++ U " out of range."))
      else Ok (nth (Z.to_nat index) array JNull)
  | _ => Ok j
  end.

(** ** Numeric conversions: [std::stoll] and [std::stod] *)

(** Leading white space, which [strtoll] and [strtod] skip. *)
Definition skip_isspace (s : std_string) : std_string := snd (span isspace s).

(** An optional sign; [true] is minus. *)
Definition read_sign (s : std_string) : bool * std_string :=
  match s with
  | c :: s' =>
      if c =? 45 then (true, s')
      else if c =? 43 then (false, s')
      else (false, s)
  | [] => (false, s)
  end.

(** One more decimal digit. *)
Definition decimal_step (acc c : N) : N := 10 * acc + (c - 48).

Definition decimal_value (digits : std_string) : N :=
  fold_left decimal_step digits 0.

Definition LLONG_MIN : Z := (- 9223372036854775808)%Z.
Definition LLONG_MAX : Z := 9223372036854775807%Z.

(** [std::stoll(str, &pos)]: the value and the number of code units read. *)
Definition stoll (str : std_string) : result (Z * nat) :=
  let (neg, s) := read_sign (skip_isspace str) in
  let (digits, rest) := span isdigit s in
  match digits with
  | [] => Throw (invalid_argument (U "stoll"))
  | _ :: _ =>
      let v := Z.of_N (decimal_value digits) in
      let num := if neg then (- v)%Z else v in
      if (num <? LLONG_MIN)%Z || (LLONG_MAX <? num)%Z
      then Throw (out_of_range (U "stoll"))
      else Ok (num, (List.length str - List.length rest)%nat)
  end.

Definition to_integer (str : std_string) : result Z :=
  '(num, pos) <- stoll str ;;
  if negb (Nat.eqb pos (List.length str)) then
    Throw (runtime_error (U "Unexpected number(integer) format."))
  else Ok num.

(** *** The subject sequence of [strtod] *)

Inductive number_form : Type :=
| F_decimal (int_digits frac_digits : std_string) (exp10 : Z)
| F_hex (int_digits frac_digits : std_string) (exp2 : Z)
| F_inf
| F_nan.

(** [lit] is lower case; the match ignores the case of [s]. *)
Fixpoint strip_prefix_ci (lit s : std_string) : option std_string :=
  match lit, s with
  | [], _ => Some s
  | l :: lit', c :: s' =>
      if tolower c =? l then strip_prefix_ci lit' s' else None
  | _ :: _, [] => None
  end.

(** An exponent part: the marker, an optional sign and at least one decimal
    digit; without digits the marker is not part of the number. *)
Definition read_exponent (marker : char32_t) (s : std_string) : Z * std_string :=
  match s with
  | c :: s' =>
      if tolower c =? marker then
        let (neg, s'') := read_sign s' in
        let (digits, rest) := span isdigit s'' in
        match digits with
        | [] => (0%Z, s)
        | _ :: _ =>
            let e := Z.of_N (decimal_value digits) in
            ((if neg then - e else e)%Z, rest)
        end
      else (0%Z, s)
  | [] => (0%Z, s)
  end.

(** Digits, an optional radix point and more digits; at least one digit. *)
Definition read_mantissa (is_digit : char32_t -> bool) (s : std_string)
  : option (std_string * std_string * std_string) :=
  let (int_digits, r1) := span is_digit s in
  let (frac_digits, r2) :=
    match r1 with
    | 46 :: r1' => span is_digit r1'
    | _ => ([], r1)
    end in
  match int_digits, frac_digits with
  | [], [] => None
  | _, _ => Some (int_digits, frac_digits, r2)
  end.

Definition read_decimal (s : std_string) : option (number_form * std_string) :=
  match read_mantissa isdigit s with
  | None => None
  | Some (i, f, r) =>
      let (e, rest) := read_exponent 101 r in
      Some (F_decimal i f e, rest)
  end.

Definition read_hexadecimal (s : std_string) : option (number_form * std_string) :=
  match s with
  | 48 :: x :: s' =>
      if tolower x =? 120 then
        match read_mantissa isxdigit s' with
        | None => None
        | Some (i, f, r) =>
            let (e, rest) := read_exponent 112 r in
            Some (F_hex i f e, rest)
        end
      else None
  | _ => None
  end.

Definition is_nchar (c : char32_t) : bool := isalnum c || (c =? 95).

Definition read_nan (s : std_string) : option (number_form * std_string) :=
  match strip_prefix_ci (U "nan") s with
  | None => None
  | Some r =>
      match r with
      | 40 :: r' =>
          match snd (span is_nchar r') with
          | 41 :: r'' => Some (F_nan, r'')
          | _ => Some (F_nan, r)
          end
      | _ => Some (F_nan, r)
      end
  end.

Definition read_inf (s : std_string) : option (number_form * std_string) :=
  match strip_prefix_ci (U "infinity") s with
  | Some r => Some (F_inf, r)
  | None =>
      match strip_prefix_ci (U "inf") s with
      | Some r => Some (F_inf, r)
      | None => None
      end
  end.

Definition read_number_form (s : std_string) : option (number_form * std_string) :=
  match read_inf s with
  | Some r => Some r
  | None =>
      match read_nan s with
      | Some r => Some r
      | None =>
          match read_hexadecimal s with
          | Some r => Some r
          | None => read_decimal s
          end
      end
  end.

(** *** The binary64 value of a subject sequence *)

Definition prec : Z := 53.
Definition emax : Z := 1024.

Definition hex_value (digits : std_string) : N :=
  fold_left (fun acc c => 16 * acc + hex_digit_value c) digits 0.

(** [m * 10^e] rounded to nearest, ties to even: the quotient by a power of
    ten is taken with more than 64 bits and a sticky bit for the remainder. *)
Definition round_decimal (m : Z) (e : Z) : spec_float :=
  if (m =? 0)%Z then S754_zero false
  else if (0 <=? e)%Z then binary_normalize prec emax (m * 10 ^ e)%Z 0%Z false
  else
    let d := (10 ^ (- e))%Z in
    let s := Z.max 0 (66 + Z.log2 d - Z.log2 m)%Z in
    let q := (Z.shiftl m s / d)%Z in
    let r := (Z.shiftl m s mod d)%Z in
    let m' := (2 * q + (if (r =? 0)%Z then 0 else 1))%Z in
    binary_normalize prec emax m' (- s - 1)%Z false.

Definition form_magnitude (f : number_form) : spec_float :=
  match f with
  | F_decimal i fr e =>
      round_decimal (Z.of_N (decimal_value (i ++ fr)))
                    (e - Z.of_nat (List.length fr))%Z
  | F_hex i fr e =>
      binary_normalize prec emax (Z.of_N (hex_value (i ++ fr)))
                       (e - 4 * Z.of_nat (List.length fr))%Z false
  | F_inf => S754_infinity false
  | F_nan => S754_nan
  end.

Definition form_is_zero (f : number_form) : bool :=
  match f with
  | F_decimal i fr _ => decimal_value (i ++ fr) =? 0
  | F_hex i fr _ => hex_value (i ++ fr) =? 0
  | _ => false
  end.

Definition is_tiny (x : spec_float) : bool :=
  match x with
  | S754_zero _ => true
  | S754_finite _ m _ => (Zpos m <? 2 ^ (prec - 1))%Z
  | _ => false
  end.

(** [ERANGE]: a finite literal that overflows, or a non-zero literal whose
    value falls below the normal range. *)
Definition form_out_of_range (f : number_form) (x : spec_float) : bool :=
  match f with
  | F_decimal _ _ _ | F_hex _ _ _ =>
      match x with
      | S754_infinity _ => true
      | _ => negb (form_is_zero f) && is_tiny x
      end
  | _ => false
  end.

(** [std::stod(str, &pos)] *)
Definition stod (str : std_string) : result (spec_float * nat) :=
  let (neg, s) := read_sign (skip_isspace str) in
  match read_number_form s with
  | None => Throw (invalid_argument (U "stod"))
  | Some (f, rest) =>
      let x := form_magnitude f in
      if form_out_of_range f x then Throw (out_of_range (U "stod"))
      else Ok (if neg then SFopp x else x,
               (List.length str - List.length rest)%nat)
  end.

Definition to_double (str : std_string) : result spec_float :=
  '(num, pos) <- stod str ;;
  if negb (Nat.eqb pos (List.length str)) then
    Throw (runtime_error (U "Unexpected number(double) format."))
  else Ok num.

Definition to_bool (str : std_string) : result bool :=
  let str := map tolower str in
  if string_eqb str (U "true") then Ok true
  else if string_eqb str (U "false") then Ok false
  else Throw (runtime_error (U "invalid boolean string")).

(** ** The serializer *)

(** [n] in decimal, left-padded with zeros to at least [width] digits. *)
Definition zero_pad (width : nat) (digits : std_string) : std_string :=
  repeat 48 (width - List.length digits) ++ digits.

(** The nearest integer to [num / den], ties to even ([den > 0]). *)
Definition round_half_even (num den : Z) : Z :=
  let q := (num / den)%Z in
  let r := (num mod den)%Z in
  match (2 * r ?= den)%Z with
  | Lt => q
  | Gt => (q + 1)%Z
  | Eq => if Z.even q then q else (q + 1)%Z
  end.

(** [std::to_string(double)]: the format [%f], six fractional digits. *)
Definition double_to_string (d : spec_float) : std_string :=
  let sign (s : bool) : std_string := if s then [45] else [] in
  match d with
  | S754_zero s => sign s ++ U "0.000000"
  | S754_infinity s => sign s ++ U "inf"
  | S754_nan => U "nan"
  | S754_finite s m e =>
      let scaled :=
        if (0 <=? e)%Z then (Zpos m * 2 ^ e * 1000000)%Z
        else round_half_even (Zpos m * 1000000) (2 ^ (- e)) in
      sign s ++ N_to_string (Z.to_N (scaled / 1000000))
        ++ [46] ++ zero_pad 6 (N_to_string (Z.to_N (scaled mod 1000000)))
  end.

Section Serializer.
(** [json::to_string], which the two loops below call on each child. *)
Variable to_string : json -> result std_string.

(** The [for] loop of [object_to_string]. *)
Fixpoint object_members_to_string (jobj : json_object) : result std_string :=
  match jobj with
  | [] => Ok []
  | (first, second) :: rest =>
      value <- to_string second ;;
      tail <- object_members_to_string rest ;;
      Ok ([34] ++ c_str first ++ [34] ++ U " : " ++ c_str value
            ++ (match rest with [] => [] | _ :: _ => [44] end) ++ tail)
  end.

(** The [for] loop of [array_to_string]. *)
Fixpoint array_elements_to_string (jarray : json_array) : result std_string :=
  match jarray with
  | [] => Ok []
  | elem :: rest =>
      value <- to_string elem ;;
      tail <- array_elements_to_string rest ;;
      Ok (c_str value ++ (match rest with [] => [] | _ :: _ => [44] end) ++ tail)
  end.
End Serializer.

(** [to_string], with [object_to_string] and [array_to_string] in its two
    container cases.  Both start from [get_object()] / [get_array()], a copy
    of the payload; the copy either throws or equals the payload (see
    [copy_object_ok] and [copy_array_ok] below), so the loops run over the
    payload itself. *)
Fixpoint to_string (j : json) : result std_string :=
  match j with
  | JObject members =>
      _ <- get_object j ;;
      body <- object_members_to_string to_string members ;;
      Ok ([123] ++ body ++ [125])
  | JArray elems =>
      _ <- get_array j ;;
      body <- array_elements_to_string to_string elems ;;
      Ok ([91] ++ body ++ [93])
  | JString _ =>
      s <- get_string j ;;
      Ok ([34] ++ s ++ [34])
  | JInteger _ =>
      n <- get_integer j ;;
      Ok (Z_to_string n)
  | JDouble _ =>
      d <- get_double j ;;
      Ok (double_to_string d)
  | JBoolean _ =>
      b <- get_bool j ;;
      Ok (if b then U "true" else U "false")
  | JNull => Ok (U "null")
  | JInvalid => Throw (runtime_error (U "invalid json type"))
  end.

Definition object_to_string (j : json) : result std_string :=
  jobj <- get_object j ;;
  body <- object_members_to_string to_string jobj ;;
  Ok ([123] ++ body ++ [125]).

Definition array_to_string (j : json) : result std_string :=
  jarray <- get_array j ;;
  body <- array_elements_to_string to_string jarray ;;
  Ok ([91] ++ body ++ [93]).

(** ** [operator==] *)

Section Equality.
Variable json_eq : json -> json -> bool.

(** [std::vector::operator==]: same size and equal elements in order. *)
Fixpoint array_eq (a b : json_array) : bool :=
  match a, b with
  | [], [] => true
  | x :: a', y :: b' => json_eq x y && array_eq a' b'
  | _, _ => false
  end.

(** [std::map::operator==]: same size and equal (key, value) pairs in order. *)
Fixpoint object_eq (a b : json_object) : bool :=
  match a, b with
  | [], [] => true
  | (k, x) :: a', (k', y) :: b' =>
      string_eqb k k' && json_eq x y && object_eq a' b'
  | _, _ => false
  end.
End Equality.

Fixpoint json_eq (lhs rhs : json) : bool :=
  match lhs, rhs with
  | JArray a, JArray b => array_eq json_eq a b
  | JObject a, JObject b => object_eq json_eq a b
  | JNull, JNull => true
  | JString a, JString b => string_eqb a b
  | JBoolean a, JBoolean b => Bool.eqb a b
  | JInteger a, JInteger b => (a =? b)%Z
  | JDouble a, JDouble b => SFeqb a b
  | _, _ => false
  end.

(** [operator!=] *)
Definition json_neq (lhs rhs : json) : bool := negb (json_eq lhs rhs).

(** ** Constructors, copy assignment and conversion operators *)

(** [json()] *)
Definition json_default : json := JNull.

(** [json(std::string)] and [json(std::string &)] *)
Definition json_of_string (val : std_string) : json := JString val.

(** [json(double)] *)
Definition json_of_double (val : spec_float) : json := JDouble val.

(** [json(long long)] and [json(int)] *)
Definition json_of_long_long (val : Z) : json := JInteger val.

(** [json(bool)] *)
Definition json_of_bool (val : bool) : json := JBoolean val.

(** [json(json_array &)] and [json(json_array &&)]: the payload is a copy of
    the vector. *)
Definition json_of_array (array : json_array) : result json :=
  elems <- copy_array array ;;
  Ok (JArray elems).

(** [json(json_object &)] and [json(json_object &&)]: the payload is a copy
    of the map. *)
Definition json_of_object (obj : json_object) : result json :=
  members <- copy_object obj ;;
  Ok (JObject members).

(** [operator=]: the switch of the copy constructor; the text of its
    exception lacks the colon and the space. *)
Definition assign (other : json) : result json :=
  match other with
  | JString s => Ok (JString s)
  | JObject m => m' <- copy_object m ;; Ok (JObject m')
  | JDouble d => Ok (JDouble d)
  | JInteger n => Ok (JInteger n)
  | JArray l => l' <- copy_array l ;; Ok (JArray l')
  | JBoolean b => Ok (JBoolean b)
  | JNull => Ok JNull
  | JInvalid =>
      Throw (runtime_error (U "unexpected json type" ++ type_name other))
  end.

(** [operator const std::string()] *)
Definition operator_std_string (j : json) : result std_string :=
  match j with
  | JString s => Ok s
  | _ => Throw (runtime_error
                  (U "cannot cast " ++ type_name j ++ U " to json string"))
  end.

(** [operator const double()] *)
Definition operator_double (j : json) : result spec_float :=
  match j with
  | JDouble d => Ok d
  | _ => Throw (runtime_error
                  (U "cannot cast " ++ type_name j ++ U " to json number"))
  end.

(** [operator const long long()] *)
Definition operator_long_long (j : json) : result Z :=
  match j with
  | JInteger n => Ok n
  | _ => Throw (runtime_error
                  (U "cannot cast " ++ type_name j ++ U " to json number"))
  end.

(** [operator const bool()] *)
Definition operator_bool (j : json) : result bool :=
  match j with
  | JBoolean b => Ok b
  | _ => Throw (runtime_error
                  (U "cannot cast " ++ type_name j ++ U " to json boolean"))
  end.

(** ** The parser *)

(** The accumulation loop shared by [parse_number], [parse_bool] and
    [parse_null]: code points up to the next [,], [}] or [\]] (or the end of
    input) are appended, through [f], to the token. *)
Fixpoint token_loop (f : char32_t -> char32_t) (val_str : u32string)
         (strm : u32_istream) : u32string * u32_istream :=
  match strm with
  | [] => (val_str, [])
  | c :: strm' =>
      if negb (c =? EOF) && negb (c =? 44) && negb (c =? 125) && negb (c =? 93)
      then token_loop f (val_str ++ [f c]) strm'
      else (val_str, strm)
  end.

Definition parse_bool (strm : u32_istream) : result (json * u32_istream) :=
  let (val_str, strm) := token_loop tolower [] strm in
  u8 <- U32ToU8 val_str ;;
  let bool_str := trim u8 in
  val_bool <- to_bool bool_str ;;
  Ok (JBoolean val_bool, strm).

Definition parse_null (strm : u32_istream) : result (json * u32_istream) :=
  let (val_str, strm) := token_loop tolower [] strm in
  u8 <- U32ToU8 val_str ;;
  let null_str := trim u8 in
  if string_eqb null_str (U "null") then Ok (JNull, strm)
  else Throw (runtime_error (U "unexpected null string")).

Definition parse_string (strm : u32_istream) : result (json * u32_istream) :=
  strm <- skip_char strm 34 ;;
  '(string_val, strm) <- quoted_loop (List.length strm) [] strm ;;
  strm <- skip_char strm 34 ;;
  u8 <- U32ToU8 string_val ;;
  Ok (JString u8, strm).

Definition integer_chars : std_string := U "0123456789-".

Definition parse_number (strm : u32_istream) : result (json * u32_istream) :=
  let (num_str, strm) := token_loop (fun c => c) [] strm in
  u8 <- U32ToU8 num_str ;;
  let nums := trim u8 in
  match find_first_not_of integer_chars nums with
  | None => n <- to_integer nums ;; Ok (JInteger n, strm)
  | Some _ => d <- to_double nums ;; Ok (JDouble d, strm)
  end.

(** The recursive productions.  [fuel] bounds the depth of the calls and the
    number of loop iterations; [parse] below supplies enough of it for every
    input (see [parse_total]). *)
Fixpoint parse_value (fuel : nat) (strm : u32_istream)
  : result (json * u32_istream) :=
  match fuel with
  | O => OutOfFuel
  | S fuel =>
      let (c, strm) := peek_next_non_space strm in
      if c =? 34 then parse_string strm
      else if c =? 91 then parse_array fuel strm
      else if isdigit c || (c =? 45) || (c =? 46) then parse_number strm
      else if c =? 123 then parse_object fuel strm
      else if (c =? 84) || (c =? 116) || (c =? 70) || (c =? 102)
           then parse_bool strm
      else if (c =? 110) || (c =? 78) then parse_null strm
      else Throw (runtime_error (U "unexpected character"))
  end

with parse_array (fuel : nat) (strm : u32_istream)
  : result (json * u32_istream) :=
  match fuel with
  | O => OutOfFuel
  | S fuel =>
      strm <- skip_char strm 91 ;;
      let (c, strm) := peek_next_non_space strm in
      if c =? 93 then
        strm <- skip_char strm 93 ;;
        Ok (JArray [], strm)
      else
        '(vector_val, strm) <- parse_array_loop fuel [] strm ;;
        strm <- skip_char strm 93 ;;
        array_val <- copy_array vector_val ;;
        Ok (JArray array_val, strm)
  end

(** One iteration of the [do ... while (c != EOF)] loop of [parse_array] and
    the iterations after it. *)
with parse_array_loop (fuel : nat) (vector_val : json_array) (strm : u32_istream)
  : result (json_array * u32_istream) :=
  match fuel with
  | O => OutOfFuel
  | S fuel =>
      '(elem, strm) <- parse_value fuel strm ;;
      elem <- copy elem ;;
      let vector_val := vector_val ++ [elem] in
      let (c, strm) := peek_next_non_space strm in
      if c =? 44 then
        strm <- skip_char strm 44 ;;
        parse_array_loop fuel vector_val strm
      else if c =? 93 then Ok (vector_val, strm)
      else if negb (c =? EOF) then parse_array_loop fuel vector_val strm
      else Ok (vector_val, strm)
  end

with parse_object (fuel : nat) (strm : u32_istream)
  : result (json * u32_istream) :=
  match fuel with
  | O => OutOfFuel
  | S fuel =>
      let return_val := JObject [] in
      strm <- skip_char strm 123 ;;
      '(return_val, strm) <- parse_object_loop fuel return_val strm ;;
      strm <- skip_char strm 125 ;;
      Ok (return_val, strm)
  end

(** The [while (c != EOF)] loop of [parse_object]; [c] is read by
    [peek_next_non_space] before every test of the condition. *)
with parse_object_loop (fuel : nat) (return_val : json) (strm : u32_istream)
  : result (json * u32_istream) :=
  let (c, strm) := peek_next_non_space strm in
  if negb (c =? EOF) then
    match fuel with
    | O => OutOfFuel
    | S fuel =>
        if c =? 34 then
          '(member, strm) <- parse_member strm ;;
          strm <- skip_char strm 58 ;;
          '(member_value, strm) <- parse_value fuel strm ;;
          return_val <- add_member return_val member member_value ;;
          parse_object_loop fuel return_val strm
        else if c =? 125 then Ok (return_val, strm)
        else if c =? 44 then
          let (_, strm) := get_next_non_space strm in
          parse_object_loop fuel return_val strm
        else Throw (runtime_error (U "invalid object format"))
    end
  else Ok (return_val, strm).

(** Fuel that is enough for a stream: three units per code point. *)
Definition fuel_for (strm : u32_istream) : nat := (3 * List.length strm + 4)%nat.

(** [parser::parse]; [s] is the text as [wbuffer_convert] presents it, one
    code point at a time. *)
Definition parse (s : u32string) : result json :=
  let u32strm : u32_istream := s in
  let (first_char, u32strm) := peek_next_non_space u32strm in
  '(ret_val, u32strm) <-
    (if first_char =? 123 then parse_object (fuel_for u32strm) u32strm
     else if first_char =? 91 then parse_array (fuel_for u32strm) u32strm
     else Throw (runtime_error (U "invalid json format"))) ;;
  let (c, u32strm) := peek_next_non_space u32strm in
  if negb (c =? EOF) then Throw (runtime_error (U "invalid json format"))
  else Ok ret_val.

(** ** Predicates on values and texts *)

(** No node of the tree carries the tag [json_t::invalid]. *)
Fixpoint no_invalid (j : json) : bool :=
  match j with
  | JArray l => forallb no_invalid l
  | JObject m => forallb (fun kv => no_invalid (snd kv)) m
  | JInvalid => false
  | _ => true
  end.

(** The keys of a member list increase strictly: the order in which a
    [std::map] holds and iterates its members. *)
Fixpoint keys_sorted (T : Type) (m : list (std_string * T)) : bool :=
  match m with
  | [] => true
  | (k, _) :: m' =>
      match m' with
      | [] => true
      | (k', _) :: _ => string_lt k k' && keys_sorted m'
      end
  end.

(** Every object of the tree holds its members in key order. *)
Fixpoint objects_sorted (j : json) : bool :=
  match j with
  | JArray l => forallb objects_sorted l
  | JObject m => keys_sorted m && forallb (fun kv => objects_sorted (snd kv)) m
  | _ => true
  end.

(** A code point that the serializer writes and the parser reads back as it
    is: not a double quote, not a backslash, not a control character, and
    within the Unicode range. *)
Definition iscntrl (c : char32_t) : bool := (c <? 32) || (c =? 127).

Definition plain_char (c : char32_t) : bool :=
  negb (c =? 34) && negb (c =? 92) && negb (iscntrl c) && (c <=? 1114111).

Definition plain_string (s : std_string) : bool := forallb plain_char s.

(** Every string payload and every key of the tree is plain. *)
Fixpoint plain_strings (j : json) : bool :=
  match j with
  | JString s => plain_string s
  | JArray l => forallb plain_strings l
  | JObject m =>
      forallb (fun kv => plain_string (fst kv) && plain_strings (snd kv)) m
  | _ => true
  end.

(** Every integer payload is a [long long]. *)
Fixpoint integers_in_range (j : json) : bool :=
  match j with
  | JInteger n => (LLONG_MIN <=? n)%Z && (n <=? LLONG_MAX)%Z
  | JArray l => forallb integers_in_range l
  | JObject m => forallb (fun kv => integers_in_range (snd kv)) m
  | _ => true
  end.

Definition is_container (j : json) : bool :=
  match j with
  | JArray _ | JObject _ => true
  | _ => false
  end.

(** The object built from the empty object by [add_member] calls, in the
    order of the list. *)
Fixpoint add_members (j : json) (members : list (std_string * json))
  : result json :=
  match members with
  | [] => Ok j
  | (k, v) :: rest => j' <- add_member j k v ;; add_members j' rest
  end.

(** The last value given to [key] in a list of members, if any. *)
Fixpoint last_value (key : std_string) (members : list (std_string * json))
  : option json :=
  match members with
  | [] => None
  | (k, v) :: rest =>
      match last_value key rest with
      | Some v' => Some v'
      | None => if string_eqb key k then Some v else None
      end
  end.

(** Code points that start one of the productions of [parse_value]. *)
Definition starts_value (c : char32_t) : bool :=
  (c =? 34) || (c =? 91) || isdigit c || (c =? 45) || (c =? 46) || (c =? 123)
  || (c =? 84) || (c =? 116) || (c =? 70) || (c =? 102)
  || (c =? 110) || (c =? 78).

(** ** Notions used in the statements *)

(** The token loop stops at a delimiter and consumes a first code point that
    is not one. *)
Definition is_delimiter (c : char32_t) : bool :=
  (c =? EOF) || (c =? 44) || (c =? 125) || (c =? 93).

(** The token of [parse_number]: the code points up to the next delimiter,
    trimmed. *)
Definition number_token (strm : u32_istream) : std_string :=
  trim (fst (token_loop (fun c => c) [] strm)).

Definition only_integer_chars (token : std_string) : bool :=
  forallb (fun c => mem c integer_chars) token.

(** The kind of the value returned by a production, if it returns one. *)
Definition kind_of (r : result (json * u32_istream)) : option json_t :=
  match r with
  | Ok (v, _) => Some (type v)
  | _ => None
  end.

(** Text that [U32ToU8] encodes. *)
Definition valid_text (s : u32string) : bool := forallb (fun c => c <=? 1114111) s.

(** Every key of [m] is greater than [k]. *)
Definition keys_above (T : Type) (k : std_string)
           (m : list (std_string * T)) : Prop :=
  Forall (fun kv => string_lt k (fst kv) = true) m.

(** The members that a sequence of assignments adds to a member list. *)
Definition assign_all (m acc : json_object) : json_object :=
  fold_left (fun a kv => map_assign (fst kv) (snd kv) a) m acc.

(** The invariant of parsed values: no invalid node, every object in key
    order. *)
Definition parsed (v : json) : Prop :=
  no_invalid v = true /\ objects_sorted v = true.

(** The text of one member and of a list of member texts between braces. *)
Definition member_text (key value : std_string) : std_string :=
  [34] ++ c_str key ++ [34] ++ U " : " ++ c_str value.

Fixpoint join_comma (parts : list std_string) : std_string :=
  match parts with
  | [] => []
  | p :: rest =>
      p ++ (match rest with [] => [] | _ :: _ => [44] end) ++ join_comma rest
  end.

(** Code points of the scalar texts: letters, digits, minus and point. *)
Definition word_char (c : char32_t) : bool :=
  isalnum c || (c =? 45) || (c =? 46).

Definition spec_float_eqb (a b : spec_float) : bool :=
  match a, b with
  | S754_zero s, S754_zero s' => Bool.eqb s s'
  | S754_finite s m e, S754_finite s' m' e' =>
      Bool.eqb s s' && Pos.eqb m m' && Z.eqb e e'
  | _, _ => false
  end.

(** A finite double that [stod] reads back, whole, from its six-decimal
    text. *)
Definition double_survives (d : spec_float) : bool :=
  match stod (double_to_string d) with
  | Ok (d', pos) =>
      spec_float_eqb d d' && Nat.eqb pos (List.length (double_to_string d))
  | _ => false
  end.

(** Every [DoubleNumber] payload of the tree survives its text. *)
Fixpoint doubles_survive (j : json) : bool :=
  match j with
  | JDouble d => double_survives d
  | JArray l => forallb doubles_survive l
  | JObject m => forallb (fun kv => doubles_survive (snd kv)) m
  | _ => true
  end.

(** The trees of the round trip: values as the class can hold them (no
    invalid node, objects in key order, integers in range) whose strings are
    plain and whose doubles survive their text. *)
Definition round_trips (j : json) : bool :=
  no_invalid j && objects_sorted j && integers_in_range j
  && doubles_survive j && plain_strings j.

(** A text with no NUL that begins with a code point that starts a value. *)
Definition value_text (s : std_string) : Prop :=
  (exists c0 s', s = c0 :: s' /\ starts_value c0 = true)
  /\ forallb (fun c => negb (c =? 0)) s = true.

(** [v] has a text, and [parse_value] reads [v] back from that text when a
    delimiter (or the end of input) follows it. *)
Definition reads_back (v : json) : Prop :=
  exists s,
    to_string v = Ok s /\ value_text s
    /\ forall fuel rest,
        (3 * List.length s + 3 <= fuel)%nat ->
        is_delimiter (peek rest) = true ->
        parse_value fuel (s ++ rest) = Ok (v, rest).

(** A member of [set]: the test of [find_first_not_of] and
    [find_last_not_of]. *)
Definition all_in (set s : std_string) : bool := forallb (fun c => mem c set) s.

(** A code point that the loop of [parse_string] appends as it is and that
    [U32ToU8] encodes: anything but a double quote and a backslash. *)
Definition raw_char (c : char32_t) : bool :=
  negb (c =? 34) && negb (c =? 92) && (c <=? 1114111).

(** No [DoubleNumber] payload of the tree is a NaN. *)
Fixpoint no_nan (j : json) : bool :=
  match j with
  | JDouble S754_nan => false
  | JArray l => forallb no_nan l
  | JObject m => forallb (fun kv => no_nan (snd kv)) m
  | _ => true
  end.

(** The values that a client of the class can hold: those built by the
    constructors, and those returned by [parse], by a copy and by the
    member functions on such values.  The map given to the object
    constructor is a [std::map], hence in key order.  (A value changed
    through the reference that [operator[]] returns is the container with
    one member or element replaced, which the constructors build from
    values of this kind.) *)
Inductive reachable : json -> Prop :=
| reach_default : reachable json_default
| reach_string val : reachable (json_of_string val)
| reach_double val : reachable (json_of_double val)
| reach_long_long val : reachable (json_of_long_long val)
| reach_bool val : reachable (json_of_bool val)
| reach_array array j :
    Forall reachable array -> json_of_array array = Ok j -> reachable j
| reach_object obj j :
    keys_sorted obj = true -> Forall (fun kv => reachable (snd kv)) obj ->
    json_of_object obj = Ok j -> reachable j
| reach_parse s j : parse s = Ok j -> reachable j
| reach_copy v j : reachable v -> copy v = Ok j -> reachable j
| reach_assign v j : reachable v -> assign v = Ok j -> reachable j
| reach_add_member o k v j :
    reachable o -> reachable v -> add_member o k v = Ok j -> reachable j
| reach_add_element a v j :
    reachable a -> reachable v -> add_element a v = Ok j -> reachable j
| reach_at_key o key j : reachable o -> at_key o key = Ok j -> reachable j
| reach_at_index a index j :
    reachable a -> at_index a index = Ok j -> reachable j
| reach_get_array a l j :
    reachable a -> get_array a = Ok l -> In j l -> reachable j
| reach_get_object o m key j :
    reachable o -> get_object o = Ok m -> map_find key m = Some j ->
    reachable j.

(** [r] is what is left of the stream [s] after some code points were
    read. *)
Definition is_suffix (r s : u32_istream) : Prop := exists p, s = p ++ r.

(** A text that [parse] reads as [v], of code points in the Unicode
    range. *)
Definition document (s : u32string) (v : json) : Prop :=
  valid_text s = true /\ parse s = Ok v.

(** The text of a member whose key is written as it is and whose value is
    the text [snd m]. *)
Definition member_document (m : std_string * u32string) : u32string :=
  [34] ++ fst m ++ [34; 58] ++ snd m.

(** The texts of the [runtime_error]s that the parser throws by itself. *)
Definition parse_error_texts : list std_string :=
  [U "invalid json format"; U "unexpected character";
   U "invalid object format"; U "unexpected null string";
   U "invalid boolean string"; U "Unexpected number(integer) format.";
   U "Unexpected number(double) format.";
   U "backslash is followed by invalid character"; U "not hex number"].

(** The exceptions of a call of [parse]: a [runtime_error] with one of the
    texts above, with the text of [skip_char] for some expected character or
    with the text of [U32ToU8]; or an exception of [std::stoll] or
    [std::stod]. *)
Definition parse_error (e : exception) : Prop :=
  match e with
  | runtime_error what =>
      In what parse_error_texts
      \/ (exists c, what = U "expected char '" ++ [c] ++ U "' not found")
      \/ (exists w, what = U "invalid utf32 string: " ++ w)
  | invalid_argument _ | out_of_range _ => True
  end.

(** ** Induction on values *)

Section JsonInd.
Variable P : json -> Prop.
Hypothesis HString : forall s, P (JString s).
Hypothesis HInteger : forall n, P (JInteger n).
Hypothesis HDouble : forall d, P (JDouble d).
Hypothesis HArray : forall l, Forall P l -> P (JArray l).
Hypothesis HBoolean : forall b, P (JBoolean b).
Hypothesis HObject : forall m, Forall (fun kv => P (snd kv)) m -> P (JObject m).
Hypothesis HNull : P JNull.
Hypothesis HInvalid : P JInvalid.

Fixpoint json_ind' (j : json) : P j :=
  match j with
  | JString s => HString s
  | JInteger n => HInteger n
  | JDouble d => HDouble d
  | JArray l =>
      HArray ((fix all (l : list json) : Forall P l :=
                 match l with
                 | [] => Forall_nil P
                 | x :: r => Forall_cons x (json_ind' x) (all r)
                 end) l)
  | JBoolean b => HBoolean b
  | JObject m =>
      HObject ((fix all (m : list (std_string * json))
                 : Forall (fun kv => P (snd kv)) m :=
                  match m with
                  | [] => Forall_nil _
                  | kv :: r =>
                      Forall_cons kv (json_ind' (snd kv)) (all r)
                  end) m)
  | JNull => HNull
  | JInvalid => HInvalid
  end.
End JsonInd.

(** * Properties *)

(** ** Results *)

Lemma bind_ok (A B : Type) (r : result A) (k : A -> result B) (b : B) :
  bind r k = Ok b -> exists a, r = Ok a /\ k a = Ok b.
Proof.
  destruct r as [a | e |]; simpl; intros H; try discriminate.
  exists a; split; [reflexivity | exact H].
Qed.

Lemma bind_not_oof (A B : Type) (r : result A) (k : A -> result B) :
  r <> OutOfFuel -> (forall a, r = Ok a -> k a <> OutOfFuel) ->
  bind r k <> OutOfFuel.
Proof.
  destruct r as [a | e |]; simpl; intros Hr Hk.
  - apply Hk; reflexivity.
  - discriminate.
  - exact (fun _ => Hr eq_refl).
Qed.

Ltac inv_bind H :=
  let a := fresh "a" in
  let Ha := fresh "Ha" in
  apply bind_ok in H; destruct H as [a [Ha H]].

(** ** Copies *)

Lemma copy_fix_members m :
  (fix copy_members (m : list (std_string * json)) :=
     match m with
     | [] => Ok []
     | (k, v) :: r =>
         v' <- copy v ;; r' <- copy_members r ;; Ok ((k, v') :: r')
     end) m = copy_object m.
Proof. induction m as [| [k v] r IH]; simpl; [reflexivity | now rewrite IH]. Qed.

Lemma copy_fix_elements l :
  (fix copy_elements (l : list json) :=
     match l with
     | [] => Ok []
     | x :: r => x' <- copy x ;; r' <- copy_elements r ;; Ok (x' :: r')
     end) l = copy_array l.
Proof. induction l as [| x r IH]; simpl; [reflexivity | now rewrite IH]. Qed.

Lemma copy_eqn_array l :
  copy (JArray l) = (l' <- copy_array l ;; Ok (JArray l')).
Proof. simpl; now rewrite copy_fix_elements. Qed.

Lemma copy_eqn_object m :
  copy (JObject m) = (m' <- copy_object m ;; Ok (JObject m')).
Proof. simpl; now rewrite copy_fix_members. Qed.

(** A copy that succeeds is equal to the original. *)
Lemma copy_ok j : forall j', copy j = Ok j' -> j' = j.
Proof.
  induction j as [s | n | d | l IH | b | m IH | |] using json_ind';
    intros j' H; try (simpl in H; congruence).
  - rewrite copy_eqn_array in H. inv_bind H. injection H as <-. f_equal.
    revert a Ha. induction IH as [| x r Hx _ IHr]; simpl; intros a Ha.
    + congruence.
    + inv_bind Ha. inv_bind Ha. injection Ha as <-.
      f_equal; [now apply Hx | now apply IHr].
  - rewrite copy_eqn_object in H. inv_bind H. injection H as <-. f_equal.
    revert a Ha. induction IH as [| [k v] r Hx _ IHr]; simpl; intros a Ha.
    + congruence.
    + inv_bind Ha. inv_bind Ha. injection Ha as <-.
      f_equal; [f_equal; now apply Hx | now apply IHr].
Qed.

Lemma copy_array_ok l l' : copy_array l = Ok l' -> l' = l.
Proof.
  intros H. assert (Hc : copy (JArray l) = Ok (JArray l'))
    by (rewrite copy_eqn_array, H; reflexivity).
  apply copy_ok in Hc. congruence.
Qed.

Lemma copy_object_ok m m' : copy_object m = Ok m' -> m' = m.
Proof.
  intros H. assert (Hc : copy (JObject m) = Ok (JObject m'))
    by (rewrite copy_eqn_object, H; reflexivity).
  apply copy_ok in Hc. congruence.
Qed.

(** A tree without an invalid node is copied. *)
Lemma copy_no_invalid j : no_invalid j = true -> copy j = Ok j.
Proof.
  induction j as [s | n | d | l IH | b | m IH | |] using json_ind';
    intros H; try reflexivity; try discriminate.
  - rewrite copy_eqn_array.
    assert (Hl : copy_array l = Ok l).
    { simpl in H. induction IH as [| x r Hx _ IHr]; simpl; [reflexivity |].
      simpl in H. apply andb_true_iff in H as [H1 H2].
      rewrite (Hx H1). simpl. rewrite (IHr H2). reflexivity. }
    rewrite Hl; reflexivity.
  - rewrite copy_eqn_object.
    assert (Hm : copy_object m = Ok m).
    { simpl in H. induction IH as [| [k v] r Hx _ IHr]; simpl; [reflexivity |].
      simpl in H. apply andb_true_iff in H as [H1 H2].
      simpl in Hx. rewrite (Hx H1). simpl. rewrite (IHr H2). reflexivity. }
    rewrite Hm; reflexivity.
Qed.

Lemma copy_array_no_invalid l :
  forallb no_invalid l = true -> copy_array l = Ok l.
Proof.
  intros H. pose proof (copy_no_invalid (JArray l) H) as Hc.
  rewrite copy_eqn_array in Hc. inv_bind Hc.
  rewrite Ha. f_equal. congruence.
Qed.

Lemma copy_object_no_invalid m :
  forallb (fun kv => no_invalid (snd kv)) m = true -> copy_object m = Ok m.
Proof.
  intros H. pose proof (copy_no_invalid (JObject m) H) as Hc.
  rewrite copy_eqn_object in Hc. inv_bind Hc.
  rewrite Ha. f_equal. congruence.
Qed.

(** A copy that succeeds is the copy of a tree without an invalid node. *)
Lemma copy_ok_no_invalid j : forall j', copy j = Ok j' -> no_invalid j = true.
Proof.
  induction j as [s | n | d | l IH | b | m IH | |] using json_ind';
    intros j' H; try reflexivity; try discriminate.
  - rewrite copy_eqn_array in H. inv_bind H. clear H. simpl.
    revert a Ha. induction IH as [| x r Hx _ IHr]; simpl; intros a Ha.
    + reflexivity.
    + inv_bind Ha. inv_bind Ha. rewrite (Hx _ Ha0), (IHr _ Ha1). reflexivity.
  - rewrite copy_eqn_object in H. inv_bind H. clear H. simpl.
    revert a Ha. induction IH as [| [k v] r Hx _ IHr]; simpl; intros a Ha.
    + reflexivity.
    + inv_bind Ha. inv_bind Ha. simpl in Hx.
      rewrite (Hx _ Ha0), (IHr _ Ha1). reflexivity.
Qed.

(** The only exception of a copy is the one of the copy constructor. *)
Lemma copy_throw j : forall e,
  copy j = Throw e -> e = runtime_error (U "unexpected json type: invalid").
Proof.
  induction j as [s | n | d | l IH | b | m IH | |] using json_ind';
    intros e H; try (simpl in H; congruence).
  - rewrite copy_eqn_array in H.
    destruct (copy_array l) as [l' | e' |] eqn:Ec; simpl in H; try discriminate.
    injection H as <-. clear -IH Ec. revert e' Ec.
    induction IH as [| x r Hx _ IHr]; simpl; intros e' Ec; [discriminate |].
    destruct (copy x) as [x' | ex |] eqn:Ex; simpl in Ec; try discriminate.
    + destruct (copy_array r) as [r' | er |] eqn:Er; simpl in Ec;
        try discriminate.
      injection Ec as <-. now apply IHr.
    + injection Ec as <-. now apply Hx.
  - rewrite copy_eqn_object in H.
    destruct (copy_object m) as [m' | e' |] eqn:Ec; simpl in H; try discriminate.
    injection H as <-. clear -IH Ec. revert e' Ec.
    induction IH as [| [k x] r Hx _ IHr]; simpl; intros e' Ec; [discriminate |].
    simpl in Hx.
    destruct (copy x) as [x' | ex |] eqn:Ex; simpl in Ec; try discriminate.
    + destruct (copy_object r) as [r' | er |] eqn:Er; simpl in Ec;
        try discriminate.
      injection Ec as <-. now apply IHr.
    + injection Ec as <-. now apply Hx.
Qed.

Lemma copy_array_throw l e :
  copy_array l = Throw e -> e = runtime_error (U "unexpected json type: invalid").
Proof.
  intros H. apply (copy_throw (JArray l)). rewrite copy_eqn_array, H. reflexivity.
Qed.

Lemma copy_object_throw m e :
  copy_object m = Throw e -> e = runtime_error (U "unexpected json type: invalid").
Proof.
  intros H. apply (copy_throw (JObject m)). rewrite copy_eqn_object, H. reflexivity.
Qed.

Lemma copy_not_oof j : copy j <> OutOfFuel.
Proof.
  induction j as [s | n | d | l IH | b | m IH | |] using json_ind';
    try (simpl; discriminate).
  - rewrite copy_eqn_array. apply bind_not_oof; [| discriminate].
    induction IH as [| x r Hx _ IHr]; simpl; [discriminate |].
    apply bind_not_oof; [exact Hx |]. intros a _.
    apply bind_not_oof; [exact IHr | discriminate].
  - rewrite copy_eqn_object. apply bind_not_oof; [| discriminate].
    induction IH as [| [k v] r Hx _ IHr]; simpl; [discriminate |].
    apply bind_not_oof; [exact Hx |]. intros a _.
    apply bind_not_oof; [exact IHr | discriminate].
Qed.

Lemma copy_array_not_oof l : copy_array l <> OutOfFuel.
Proof.
  intros H. apply (copy_not_oof (JArray l)).
  rewrite copy_eqn_array, H. reflexivity.
Qed.

(** ** The cursor only advances *)

Lemma skip_space_length s : (List.length (skip_space s) <= List.length s)%nat.
Proof.
  induction s as [| c s IH]; simpl; [lia |].
  destruct (negb (c =? EOF) && isspace c); simpl; lia.
Qed.

Lemma skip_space_idem s : skip_space (skip_space s) = skip_space s.
Proof.
  induction s as [| c s IH]; simpl; [reflexivity |].
  destruct (negb (c =? EOF) && isspace c) eqn:E; [exact IH |].
  simpl. rewrite E. reflexivity.
Qed.

Lemma skip_space_head c s :
  negb (c =? EOF) && isspace c = false -> skip_space (c :: s) = c :: s.
Proof. intros H; simpl; rewrite H; reflexivity. Qed.

Lemma skip_char_ok s e s' :
  skip_char s e = Ok s' -> skip_space s = e :: s' /\ e <> EOF.
Proof.
  unfold skip_char. destruct (skip_space s) as [| c r]; simpl.
  - rewrite orb_true_r. discriminate.
  - destruct (N.eqb_spec c e) as [-> | Hne]; simpl; [| discriminate].
    destruct (N.eqb_spec e EOF) as [-> | Hne]; [discriminate |].
    intros H; injection H as <-. split; [reflexivity | assumption].
Qed.

Lemma skip_char_head e s :
  e <> EOF -> isspace e = false -> skip_char (e :: s) e = Ok s.
Proof.
  intros He Hs. unfold skip_char. rewrite skip_space_head.
  - simpl. rewrite N.eqb_refl. simpl.
    destruct (N.eqb_spec e EOF); [contradiction | reflexivity].
  - rewrite Hs. apply andb_false_r.
Qed.

Lemma skip_char_length s e s' :
  skip_char s e = Ok s' -> (List.length s' < List.length s)%nat.
Proof.
  intros H. apply skip_char_ok in H as [H _].
  pose proof (skip_space_length s) as L. rewrite H in L. simpl in L. lia.
Qed.

Lemma skip_char_not_oof s e : skip_char s e <> OutOfFuel.
Proof.
  unfold skip_char.
  destruct (negb (peek (skip_space s) =? e) || (peek (skip_space s) =? EOF));
    discriminate.
Qed.

Lemma get_length s : (List.length (snd (get s)) <= List.length s)%nat.
Proof. destruct s; simpl; lia. Qed.

Lemma parse_hex_loop_length i : forall cs s cs' s',
  parse_hex_loop i cs s = Ok (cs', s') -> (List.length s' <= List.length s)%nat.
Proof.
  induction i as [| i IH]; simpl; intros cs s cs' s' H.
  - injection H as _ <-. lia.
  - destruct s as [| c s]; simpl in H; [discriminate |].
    destruct (negb (c =? EOF) && isxdigit c); [| discriminate].
    apply IH in H. simpl. lia.
Qed.

Lemma parse_hex_loop_not_oof i : forall cs s, parse_hex_loop i cs s <> OutOfFuel.
Proof.
  induction i as [| i IH]; simpl; intros cs s; [discriminate |].
  destruct (get s) as [c s1].
  destruct (negb (c =? EOF) && isxdigit c); [apply IH | discriminate].
Qed.

Lemma parse_hex_length s c s' :
  parse_hex s = Ok (c, s') -> (List.length s' <= List.length s)%nat.
Proof.
  unfold parse_hex. intros H. inv_bind H. destruct a as [cs s1].
  injection H as _ <-. eapply parse_hex_loop_length; eassumption.
Qed.

Lemma parse_hex_not_oof s : parse_hex s <> OutOfFuel.
Proof.
  unfold parse_hex. apply bind_not_oof; [apply parse_hex_loop_not_oof |].
  intros [cs s1] _; discriminate.
Qed.

Lemma escape_char_length s c s' :
  escape_char s = Ok (c, s') -> (List.length s' < List.length s)%nat.
Proof.
  unfold escape_char. intros H. inv_bind H.
  apply skip_char_length in Ha.
  pose proof (get_length a) as L. destruct (get a) as [c1 s1]; simpl in L.
  repeat match type of H with
         | (if ?b then _ else _) = _ => destruct b
         end;
    try (injection H as _ <-; lia); try discriminate.
  apply parse_hex_length in H. lia.
Qed.

Lemma escape_char_not_oof s : escape_char s <> OutOfFuel.
Proof.
  unfold escape_char. apply bind_not_oof; [apply skip_char_not_oof |].
  intros a _. destruct (get a) as [c1 s1].
  repeat match goal with
         | |- (if ?b then _ else _) <> _ => destruct b
         end; try discriminate.
  apply parse_hex_not_oof.
Qed.

Lemma quoted_loop_length fuel : forall val s val' s',
  quoted_loop fuel val s = Ok (val', s') ->
  (List.length s' <= List.length s)%nat.
Proof.
  induction fuel as [| fuel IH]; intros val s val' s' H.
  - simpl in H. destruct (negb (peek s =? EOF) && negb (peek s =? 34));
      [discriminate | injection H as _ <-; lia].
  - simpl in H. destruct (negb (peek s =? EOF) && negb (peek s =? 34));
      [| injection H as _ <-; lia].
    destruct (peek s =? 92).
    + inv_bind H. destruct a as [e s1]. apply escape_char_length in Ha.
      apply IH in H. lia.
    + pose proof (get_length s) as L. destruct (get s) as [c s1]; simpl in L.
      apply IH in H. lia.
Qed.

Lemma quoted_loop_not_oof fuel : forall val s,
  (List.length s <= fuel)%nat -> quoted_loop fuel val s <> OutOfFuel.
Proof.
  induction fuel as [| fuel IH]; intros val s L.
  - destruct s; [| simpl in L; lia]. simpl. discriminate.
  - simpl. destruct (negb (peek s =? EOF) && negb (peek s =? 34)) eqn:E;
      [| discriminate].
    destruct (peek s =? 92).
    + apply bind_not_oof; [apply escape_char_not_oof |].
      intros [e s1] He. apply escape_char_length in He. apply IH. lia.
    + destruct s as [| c s1]; [simpl in E; discriminate |].
      simpl. apply IH. simpl in L. lia.
Qed.

Lemma U32ToU8_ok u s : U32ToU8 u = Ok s -> s = u.
Proof. unfold U32ToU8. destruct (forallb (fun c => c <=? 1114111) u); congruence. Qed.

Lemma U32ToU8_not_oof u : U32ToU8 u <> OutOfFuel.
Proof. unfold U32ToU8. destruct (forallb (fun c => c <=? 1114111) u); discriminate. Qed.

Lemma parse_member_length s k s' :
  parse_member s = Ok (k, s') -> (List.length s' < List.length s)%nat.
Proof.
  unfold parse_member. intros H. inv_bind H. inv_bind H. destruct a0 as [v s1].
  inv_bind H. inv_bind H. injection H as _ <-.
  apply skip_char_length in Ha, Ha1. apply quoted_loop_length in Ha0. lia.
Qed.

Lemma parse_member_not_oof s : parse_member s <> OutOfFuel.
Proof.
  unfold parse_member. apply bind_not_oof; [apply skip_char_not_oof |].
  intros a _. apply bind_not_oof; [apply quoted_loop_not_oof; lia |].
  intros [v s1] _. apply bind_not_oof; [apply skip_char_not_oof |].
  intros a1 _. apply bind_not_oof; [apply U32ToU8_not_oof | discriminate].
Qed.

Lemma parse_string_length s v s' :
  parse_string s = Ok (v, s') -> (List.length s' < List.length s)%nat.
Proof.
  unfold parse_string. intros H. inv_bind H. inv_bind H. destruct a0 as [w s1].
  inv_bind H. inv_bind H. injection H as _ <-.
  apply skip_char_length in Ha, Ha1. apply quoted_loop_length in Ha0. lia.
Qed.

Lemma parse_string_not_oof s : parse_string s <> OutOfFuel.
Proof.
  unfold parse_string. apply bind_not_oof; [apply skip_char_not_oof |].
  intros a _. apply bind_not_oof; [apply quoted_loop_not_oof; lia |].
  intros [v s1] _. apply bind_not_oof; [apply skip_char_not_oof |].
  intros a1 _. apply bind_not_oof; [apply U32ToU8_not_oof | discriminate].
Qed.

Lemma token_loop_guard c :
  negb (c =? EOF) && negb (c =? 44) && negb (c =? 125) && negb (c =? 93)
  = negb (is_delimiter c).
Proof.
  unfold is_delimiter.
  destruct (c =? EOF), (c =? 44), (c =? 125), (c =? 93); reflexivity.
Qed.

Lemma token_loop_length f : forall s val,
  (List.length (snd (token_loop f val s)) <= List.length s)%nat.
Proof.
  induction s as [| c s IH]; intros val; simpl; [lia |].
  rewrite token_loop_guard. destruct (is_delimiter c); simpl; [lia |].
  specialize (IH (val ++ [f c])). lia.
Qed.

Lemma token_loop_length_lt f c s val :
  is_delimiter c = false ->
  (List.length (snd (token_loop f val (c :: s))) < List.length (c :: s))%nat.
Proof.
  intros H. simpl. rewrite token_loop_guard, H. simpl.
  pose proof (token_loop_length f s (val ++ [f c])). lia.
Qed.

Lemma token_loop_consumes f s val :
  is_delimiter (peek s) = false ->
  (List.length (snd (token_loop f val s)) < List.length s)%nat.
Proof.
  destruct s as [| c s]; [discriminate |]. apply token_loop_length_lt.
Qed.

(** ** The leaf productions *)

Lemma to_integer_not_oof str : to_integer str <> OutOfFuel.
Proof.
  unfold to_integer, stoll.
  destruct (read_sign (skip_isspace str)) as [neg s].
  destruct (span isdigit s) as [digits rest].
  destruct digits as [| d ds]; simpl; [discriminate |].
  match goal with |- context [if ?b then Throw _ else Ok (?n, ?p)] =>
    destruct b; simpl; [discriminate |]
  end.
  match goal with |- context [if ?b then _ else _] => destruct b end;
    discriminate.
Qed.

Lemma to_double_not_oof str : to_double str <> OutOfFuel.
Proof.
  unfold to_double, stod.
  destruct (read_sign (skip_isspace str)) as [neg s].
  destruct (read_number_form s) as [[f rest] |]; simpl; [| discriminate].
  destruct (form_out_of_range f (form_magnitude f)); simpl; [discriminate |].
  match goal with |- context [if ?b then _ else _] => destruct b end;
    discriminate.
Qed.

Lemma to_bool_not_oof str : to_bool str <> OutOfFuel.
Proof.
  unfold to_bool.
  destruct (string_eqb (map tolower str) (U "true")); [discriminate |].
  destruct (string_eqb (map tolower str) (U "false")); discriminate.
Qed.

Lemma parse_number_rest s v s' :
  parse_number s = Ok (v, s') -> s' = snd (token_loop (fun c => c) [] s).
Proof.
  unfold parse_number. destruct (token_loop (fun c => c) [] s) as [tok rest].
  intros H. inv_bind H.
  destruct (find_first_not_of integer_chars (trim a));
    inv_bind H; injection H as _ <-; reflexivity.
Qed.

Lemma parse_number_not_oof s : parse_number s <> OutOfFuel.
Proof.
  unfold parse_number. destruct (token_loop (fun c => c) [] s) as [tok rest].
  apply bind_not_oof; [apply U32ToU8_not_oof |]. intros a _.
  destruct (find_first_not_of integer_chars (trim a)).
  - apply bind_not_oof; [apply to_double_not_oof | discriminate].
  - apply bind_not_oof; [apply to_integer_not_oof | discriminate].
Qed.

Lemma parse_bool_rest s v s' :
  parse_bool s = Ok (v, s') -> s' = snd (token_loop tolower [] s).
Proof.
  unfold parse_bool. destruct (token_loop tolower [] s) as [tok rest].
  intros H. inv_bind H. inv_bind H. injection H as _ <-. reflexivity.
Qed.

Lemma parse_bool_not_oof s : parse_bool s <> OutOfFuel.
Proof.
  unfold parse_bool. destruct (token_loop tolower [] s) as [tok rest].
  apply bind_not_oof; [apply U32ToU8_not_oof |]. intros a _.
  apply bind_not_oof; [apply to_bool_not_oof | discriminate].
Qed.

Lemma parse_null_rest s v s' :
  parse_null s = Ok (v, s') -> s' = snd (token_loop tolower [] s).
Proof.
  unfold parse_null. destruct (token_loop tolower [] s) as [tok rest].
  intros H. inv_bind H.
  destruct (string_eqb (trim a) (U "null")); [| discriminate].
  injection H as _ <-. reflexivity.
Qed.

Lemma parse_null_not_oof s : parse_null s <> OutOfFuel.
Proof.
  unfold parse_null. destruct (token_loop tolower [] s) as [tok rest].
  apply bind_not_oof; [apply U32ToU8_not_oof |]. intros a _.
  destruct (string_eqb (trim a) (U "null")); discriminate.
Qed.

Lemma add_member_not_oof j k v : add_member j k v <> OutOfFuel.
Proof.
  unfold add_member. apply bind_not_oof; [apply copy_not_oof |]. intros a _.
  unfold CHECK_TYPE_MISMATCH. destruct (negb (json_t_eqb (type j) t_object));
    simpl; discriminate.
Qed.

(** ** The recursive productions, one unfolding at a time *)

Lemma parse_value_S fuel strm :
  parse_value (S fuel) strm =
  let (c, strm) := peek_next_non_space strm in
  if c =? 34 then parse_string strm
  else if c =? 91 then parse_array fuel strm
  else if isdigit c || (c =? 45) || (c =? 46) then parse_number strm
  else if c =? 123 then parse_object fuel strm
  else if (c =? 84) || (c =? 116) || (c =? 70) || (c =? 102)
       then parse_bool strm
  else if (c =? 110) || (c =? 78) then parse_null strm
  else Throw (runtime_error (U "unexpected character")).
Proof. reflexivity. Qed.

Lemma parse_array_S fuel strm :
  parse_array (S fuel) strm =
  (strm <- skip_char strm 91 ;;
   let (c, strm) := peek_next_non_space strm in
   if c =? 93 then
     strm <- skip_char strm 93 ;;
     Ok (JArray [], strm)
   else
     '(vector_val, strm) <- parse_array_loop fuel [] strm ;;
     strm <- skip_char strm 93 ;;
     array_val <- copy_array vector_val ;;
     Ok (JArray array_val, strm)).
Proof. reflexivity. Qed.

Lemma parse_array_loop_S fuel vector_val strm :
  parse_array_loop (S fuel) vector_val strm =
  ('(elem, strm) <- parse_value fuel strm ;;
   elem <- copy elem ;;
   let vector_val := vector_val ++ [elem] in
   let (c, strm) := peek_next_non_space strm in
   if c =? 44 then
     strm <- skip_char strm 44 ;;
     parse_array_loop fuel vector_val strm
   else if c =? 93 then Ok (vector_val, strm)
   else if negb (c =? EOF) then parse_array_loop fuel vector_val strm
   else Ok (vector_val, strm)).
Proof. reflexivity. Qed.

Lemma parse_object_S fuel strm :
  parse_object (S fuel) strm =
  (strm <- skip_char strm 123 ;;
   '(return_val, strm) <- parse_object_loop fuel (JObject []) strm ;;
   strm <- skip_char strm 125 ;;
   Ok (return_val, strm)).
Proof. reflexivity. Qed.

Lemma parse_object_loop_eqn fuel return_val strm :
  parse_object_loop fuel return_val strm =
  let (c, strm) := peek_next_non_space strm in
  if negb (c =? EOF) then
    match fuel with
    | O => OutOfFuel
    | S fuel =>
        if c =? 34 then
          '(member, strm) <- parse_member strm ;;
          strm <- skip_char strm 58 ;;
          '(member_value, strm) <- parse_value fuel strm ;;
          return_val <- add_member return_val member member_value ;;
          parse_object_loop fuel return_val strm
        else if c =? 125 then Ok (return_val, strm)
        else if c =? 44 then
          let (_, strm) := get_next_non_space strm in
          parse_object_loop fuel return_val strm
        else Throw (runtime_error (U "invalid object format"))
    end
  else Ok (return_val, strm).
Proof. destruct fuel; reflexivity. Qed.

Global Opaque parse_value parse_array parse_array_loop parse_object
       parse_object_loop.

Lemma starts_number_not_delimiter c :
  isdigit c || (c =? 45) || (c =? 46) = true -> is_delimiter c = false.
Proof.
  unfold isdigit, is_delimiter, EOF. intros H.
  repeat match goal with
         | |- context [?a =? ?b] => destruct (N.eqb_spec a b); subst
         end; simpl in *; try reflexivity; try discriminate;
    try (apply andb_true_iff in H as [H1 H2];
         apply N.leb_le in H1; apply N.leb_le in H2; lia).
Qed.

Lemma starts_word_not_delimiter c :
  (c =? 84) || (c =? 116) || (c =? 70) || (c =? 102) || (c =? 110) || (c =? 78)
  = true -> is_delimiter c = false.
Proof.
  intros H. repeat (apply orb_true_iff in H as [H | H]);
    apply N.eqb_eq in H; subst; reflexivity.
Qed.

(** Every production that returns a value has consumed input. *)
Lemma parser_length fuel :
  (forall s v s', parse_value fuel s = Ok (v, s') ->
                  (List.length s' < List.length s)%nat) /\
  (forall s v s', parse_array fuel s = Ok (v, s') ->
                  (List.length s' < List.length s)%nat) /\
  (forall acc s l s', parse_array_loop fuel acc s = Ok (l, s') ->
                      (List.length s' < List.length s)%nat) /\
  (forall s v s', parse_object fuel s = Ok (v, s') ->
                  (List.length s' < List.length s)%nat) /\
  (forall o s v s', parse_object_loop fuel o s = Ok (v, s') ->
                    (List.length s' <= List.length s)%nat).
Proof.
  induction fuel as [| fuel (IHv & IHa & IHal & IHo & IHol)].
  - repeat split; try (intros; discriminate).
    intros o s v s' H. rewrite parse_object_loop_eqn in H.
    unfold peek_next_non_space in H.
    destruct (negb (peek (skip_space s) =? EOF)); [discriminate |].
    injection H as _ <-. apply skip_space_length.
  - repeat split.
    + intros s v s' H. rewrite parse_value_S in H.
      unfold peek_next_non_space in H.
      pose proof (skip_space_length s) as L.
      set (s1 := skip_space s) in *.
      destruct (peek s1 =? 34).
      { apply parse_string_length in H. lia. }
      destruct (peek s1 =? 91).
      { apply IHa in H. lia. }
      destruct (isdigit (peek s1) || (peek s1 =? 45) || (peek s1 =? 46)) eqn:E.
      { apply starts_number_not_delimiter in E.
        apply parse_number_rest in H. subst s'.
        pose proof (token_loop_consumes (fun c => c) s1 [] E). lia. }
      destruct (peek s1 =? 123).
      { apply IHo in H. lia. }
      destruct ((peek s1 =? 84) || (peek s1 =? 116) || (peek s1 =? 70)
                || (peek s1 =? 102)) eqn:E1.
      { assert (E' : is_delimiter (peek s1) = false)
          by (apply starts_word_not_delimiter; rewrite E1; reflexivity).
        apply parse_bool_rest in H. subst s'.
        pose proof (token_loop_consumes tolower s1 [] E'). lia. }
      destruct ((peek s1 =? 110) || (peek s1 =? 78)) eqn:E2; [| discriminate].
      { assert (E' : is_delimiter (peek s1) = false).
        { apply starts_word_not_delimiter.
          apply orb_true_iff in E2 as [E2 | E2]; rewrite E2;
            repeat rewrite orb_true_r; reflexivity. }
        apply parse_null_rest in H. subst s'.
        pose proof (token_loop_consumes tolower s1 [] E'). lia. }
    + intros s v s' H. rewrite parse_array_S in H. inv_bind H.
      apply skip_char_length in Ha. unfold peek_next_non_space in H.
      pose proof (skip_space_length a) as L.
      destruct (peek (skip_space a) =? 93).
      * inv_bind H. injection H as _ <-. apply skip_char_length in Ha0. lia.
      * inv_bind H. destruct a0 as [l s1]. inv_bind H. inv_bind H.
        injection H as _ <-. apply IHal in Ha0.
        apply skip_char_length in Ha1. lia.
    + intros acc s l s' H. rewrite parse_array_loop_S in H. inv_bind H.
      destruct a as [elem s1]. inv_bind H. apply IHv in Ha.
      unfold peek_next_non_space in H.
      pose proof (skip_space_length s1) as L.
      destruct (peek (skip_space s1) =? 44).
      { inv_bind H. apply skip_char_length in Ha1. apply IHal in H. lia. }
      destruct (peek (skip_space s1) =? 93).
      { injection H as _ <-. lia. }
      destruct (negb (peek (skip_space s1) =? EOF)).
      { apply IHal in H. lia. }
      injection H as _ <-. lia.
    + intros s v s' H. rewrite parse_object_S in H. inv_bind H. inv_bind H.
      destruct a0 as [o s1]. inv_bind H. injection H as _ <-.
      apply skip_char_length in Ha, Ha1. apply IHol in Ha0. lia.
    + intros o s v s' H. rewrite parse_object_loop_eqn in H.
      unfold peek_next_non_space in H.
      pose proof (skip_space_length s) as L.
      destruct (negb (peek (skip_space s) =? EOF));
        [| injection H as _ <-; lia].
      destruct (peek (skip_space s) =? 34).
      { inv_bind H. destruct a as [k s1]. inv_bind H. inv_bind H.
        destruct a0 as [mv s2]. inv_bind H.
        apply parse_member_length in Ha. apply skip_char_length in Ha0.
        apply IHv in Ha1. apply IHol in H. lia. }
      destruct (peek (skip_space s) =? 125).
      { injection H as _ <-. lia. }
      destruct (peek (skip_space s) =? 44); [| discriminate].
      unfold get_next_non_space in H.
      pose proof (get_length (skip_space (skip_space s))) as L1.
      pose proof (skip_space_length (skip_space s)) as L2.
      destruct (get (skip_space (skip_space s))) as [c s1]. simpl in L1.
      apply IHol in H. lia.
Qed.

(** Three units of fuel per code point are enough. *)
Lemma parser_not_oof fuel :
  (forall s, (3 * List.length s + 3 <= fuel)%nat ->
             parse_value fuel s <> OutOfFuel) /\
  (forall s, (3 * List.length s + 2 <= fuel)%nat ->
             parse_array fuel s <> OutOfFuel) /\
  (forall acc s, (3 * List.length s + 4 <= fuel)%nat ->
                 parse_array_loop fuel acc s <> OutOfFuel) /\
  (forall s, (3 * List.length s + 2 <= fuel)%nat ->
             parse_object fuel s <> OutOfFuel) /\
  (forall o s, (3 * List.length s + 1 <= fuel)%nat ->
               parse_object_loop fuel o s <> OutOfFuel).
Proof.
  induction fuel as [| fuel (IHv & IHa & IHal & IHo & IHol)].
  - repeat split; intros; lia.
  - destruct (parser_length fuel) as (Lv & La & Lal & Lo & Lol).
    repeat split.
    + intros s B. rewrite parse_value_S. unfold peek_next_non_space.
      pose proof (skip_space_length s) as L.
      repeat match goal with
             | |- (if ?b then _ else _) <> _ => destruct b
             end; try discriminate.
      * apply parse_string_not_oof.
      * apply IHa. lia.
      * apply parse_number_not_oof.
      * apply IHo. lia.
      * apply parse_bool_not_oof.
      * apply parse_null_not_oof.
    + intros s B. rewrite parse_array_S.
      apply bind_not_oof; [apply skip_char_not_oof |]. intros a Ha.
      apply skip_char_length in Ha. unfold peek_next_non_space.
      pose proof (skip_space_length a) as L.
      destruct (peek (skip_space a) =? 93).
      * apply bind_not_oof; [apply skip_char_not_oof | discriminate].
      * apply bind_not_oof; [apply IHal; lia |]. intros [l s1] _.
        apply bind_not_oof; [apply skip_char_not_oof |]. intros a1 _.
        apply bind_not_oof; [apply copy_array_not_oof | discriminate].
    + intros acc s B. rewrite parse_array_loop_S.
      apply bind_not_oof; [apply IHv; lia |]. intros [elem s1] Ha.
      apply Lv in Ha.
      apply bind_not_oof; [apply copy_not_oof |]. intros elem' _.
      unfold peek_next_non_space.
      pose proof (skip_space_length s1) as L.
      destruct (peek (skip_space s1) =? 44).
      { apply bind_not_oof; [apply skip_char_not_oof |]. intros a1 Ha1.
        apply skip_char_length in Ha1. apply IHal. lia. }
      destruct (peek (skip_space s1) =? 93); [discriminate |].
      destruct (negb (peek (skip_space s1) =? EOF)); [| discriminate].
      apply IHal. lia.
    + intros s B. rewrite parse_object_S.
      apply bind_not_oof; [apply skip_char_not_oof |]. intros a Ha.
      apply skip_char_length in Ha.
      apply bind_not_oof; [apply IHol; lia |]. intros [o s1] _.
      apply bind_not_oof; [apply skip_char_not_oof | discriminate].
    + intros o s B. rewrite parse_object_loop_eqn.
      unfold peek_next_non_space.
      pose proof (skip_space_length s) as L.
      destruct (negb (peek (skip_space s) =? EOF)) eqn:E; [| discriminate].
      destruct (peek (skip_space s) =? 34).
      { apply bind_not_oof; [apply parse_member_not_oof |]. intros [k s1] Hk.
        apply parse_member_length in Hk.
        apply bind_not_oof; [apply skip_char_not_oof |]. intros s2 H2.
        apply skip_char_length in H2.
        apply bind_not_oof; [apply IHv; lia |]. intros [mv s3] H3.
        apply Lv in H3.
        apply bind_not_oof; [apply add_member_not_oof |]. intros o' _.
        apply IHol. lia. }
      destruct (peek (skip_space s) =? 125); [discriminate |].
      destruct (peek (skip_space s) =? 44); [| discriminate].
      unfold get_next_non_space. rewrite skip_space_idem.
      destruct (skip_space s) as [| c r] eqn:Es; [discriminate |].
      simpl. apply IHol. simpl in L. lia.
Qed.

(** [parse] gives every call enough fuel: it returns a value or throws. *)
Theorem parse_total s : parse s <> OutOfFuel.
Proof.
  unfold parse, peek_next_non_space, fuel_for.
  apply bind_not_oof.
  - destruct (peek (skip_space s) =? 123).
    + apply (parser_not_oof _). lia.
    + destruct (peek (skip_space s) =? 91); [| discriminate].
      apply (parser_not_oof _). lia.
  - intros [v s1] _.
    destruct (negb (peek (skip_space s1) =? EOF)); discriminate.
Qed.

(** ** The document root and what follows it *)

Lemma skip_space_all_space ws :
  forallb isspace ws = true -> skip_space ws = [].
Proof.
  induction ws as [| c ws IH]; simpl; [reflexivity |].
  intros H. apply andb_true_iff in H as [H1 H2]. rewrite H1.
  assert (E : (c =? EOF) = false).
  { destruct (N.eqb_spec c EOF) as [-> |]; [discriminate H1 | reflexivity]. }
  rewrite E. simpl. apply IH, H2.
Qed.

(** C1.  [parse] throws "invalid json format" unless the first code point
    after the leading white space is an opening brace or bracket; once the
    root object or array is parsed, it throws "invalid json format" when a
    code point other than white space remains and returns the root when only
    white space (or nothing) remains.  [parse] of [{} garbage] throws and
    [parse] of [{}] followed by three spaces returns the empty object. *)
Theorem C1_root_and_trailing_content :
  forall (s : u32string) (v : json) (rest : u32_istream),
    let first_char := fst (peek_next_non_space s) in
    let strm := snd (peek_next_non_space s) in
    (first_char <> 123 -> first_char <> 91 ->
     parse s = Throw (runtime_error (U "invalid json format")))
    /\ ((first_char = 123 /\ parse_object (fuel_for strm) strm = Ok (v, rest))
        \/ (first_char = 91 /\ parse_array (fuel_for strm) strm = Ok (v, rest)) ->
        (fst (peek_next_non_space rest) <> EOF ->
         parse s = Throw (runtime_error (U "invalid json format")))
        /\ (fst (peek_next_non_space rest) = EOF -> parse s = Ok v)
        /\ (forallb isspace rest = true -> parse s = Ok v))
    /\ parse (U "{} garbage") = Throw (runtime_error (U "invalid json format"))
    /\ parse (U "{}   ") = Ok (JObject []).
Proof.
  intros s v rest first_char strm. subst first_char strm.
  unfold parse, peek_next_non_space. cbn [fst snd].
  split; [| split; [| split]].
  - intros H1 H2.
    destruct (N.eqb_spec (peek (skip_space s)) 123); [contradiction |].
    destruct (N.eqb_spec (peek (skip_space s)) 91); [contradiction |].
    reflexivity.
  - intros H.
    assert (Hroot :
              (if peek (skip_space s) =? 123
               then parse_object (fuel_for (skip_space s)) (skip_space s)
               else if peek (skip_space s) =? 91
                    then parse_array (fuel_for (skip_space s)) (skip_space s)
                    else Throw (runtime_error (U "invalid json format")))
              = Ok (v, rest)).
    { destruct H as [[H1 H2] | [H1 H2]]; rewrite H1; simpl; exact H2. }
    rewrite Hroot. simpl. split; [| split].
    + intros Hc. destruct (N.eqb_spec (peek (skip_space rest)) EOF);
        [contradiction | reflexivity].
    + intros ->. reflexivity.
    + intros Hws. rewrite (skip_space_all_space _ Hws). reflexivity.
  - vm_compute. reflexivity.
  - vm_compute. reflexivity.
Qed.

Lemma C1_root_and_trailing_content_witness :
  parse (U "5") = Throw (runtime_error (U "invalid json format"))
  /\ parse (U " [] x") = Throw (runtime_error (U "invalid json format"))
  /\ parse (U "[1] ") = Ok (JArray [JInteger 1]).
Proof.
  split; [| split].
  - destruct (C1_root_and_trailing_content (U "5") JNull []) as (H & _).
    apply H; vm_compute; discriminate.
  - destruct (C1_root_and_trailing_content (U " [] x") (JArray []) (U " x"))
      as (_ & H & _).
    apply H.
    + right; split; vm_compute; reflexivity.
    + vm_compute; discriminate.
  - destruct (C1_root_and_trailing_content (U "[1] ") (JArray [JInteger 1]) (U " "))
      as (_ & H & _).
    apply H.
    + right; split; vm_compute; reflexivity.
    + vm_compute; reflexivity.
Defined.

(** ** Escapes *)

Lemma hex_digit_values :
  map hex_digit_value (U "0123456789abcdefABCDEF")
  = [0; 1; 2; 3; 4; 5; 6; 7; 8; 9; 10; 11; 12; 13; 14; 15; 10; 11; 12; 13; 14; 15].
Proof. reflexivity. Qed.





(** ** Typed getters *)

(** What each getter returns, by the kind of the value: the payload (a copy
    of it for objects and arrays) when the kind is the getter's, and the
    exception of [CHECK_TYPE_MISMATCH] otherwise, never a default value. *)
Lemma getters_by_kind (j : json) :
  get_string j
  = match j with
    | JString s => Ok s
    | _ => Throw (runtime_error (type_mismatch_what (type j) t_string))
    end
  /\ get_integer j
     = match j with
       | JInteger n => Ok n
       | _ => Throw (runtime_error (type_mismatch_what (type j) t_number_integer))
       end
  /\ get_double j
     = match j with
       | JDouble d => Ok d
       | _ => Throw (runtime_error (type_mismatch_what (type j) t_number_double))
       end
  /\ get_bool j
     = match j with
       | JBoolean b => Ok b
       | _ => Throw (runtime_error (type_mismatch_what (type j) t_boolean))
       end
  /\ get_object j
     = match j with
       | JObject m => copy_object m
       | _ => Throw (runtime_error (type_mismatch_what (type j) t_object))
       end
  /\ get_array j
     = match j with
       | JArray l => copy_array l
       | _ => Throw (runtime_error (type_mismatch_what (type j) t_array))
       end
  /\ get_null j
     = match j with
       | JNull => Ok tt
       | _ => Throw (runtime_error (type_mismatch_what (type j) t_null))
       end.
Proof. destruct j; repeat split; reflexivity. Qed.

(** C8.  [get_bool] on a value of kind [String] throws and returns no
    default value, and so does every getter on a value of another kind; a
    getter on a value of its own kind returns the payload.  The exception
    text, however, puts the kind of the value (0, string) after "expect
    type" and the kind the getter needs (4, boolean) after "but found
    type": [CHECK_TYPE_MISMATCH] is called with the value's tag first. *)
Theorem C8_type_mismatch_report :
  get_bool (JString (U "text"))
  = Throw (runtime_error (U "expect type 0, but found type 4"))
  /\ json_t_value (type (JString (U "text"))) = 0
  /\ json_t_value t_boolean = 4
  /\ (forall j : json,
         get_bool j
         = match j with
           | JBoolean b => Ok b
           | _ => Throw (runtime_error
                           (U "expect type " ++ [48 + json_t_value (type j)]
                              ++ U ", but found type 4"))
           end).
Proof.
  repeat split; try reflexivity.
  intros j. destruct j; reflexivity.
Qed.

(** ** The serializer is total on well-formed trees *)

Lemma to_string_array l :
  to_string (JArray l)
  = (_ <- copy_array l ;;
     body <- array_elements_to_string to_string l ;;
     Ok ([91] ++ body ++ [93])).
Proof. reflexivity. Qed.

Lemma to_string_object m :
  to_string (JObject m)
  = (_ <- copy_object m ;;
     body <- object_members_to_string to_string m ;;
     Ok ([123] ++ body ++ [125])).
Proof. reflexivity. Qed.

Lemma to_string_no_invalid j :
  no_invalid j = true -> exists s, to_string j = Ok s.
Proof.
  induction j as [s | n | d | l IH | b | m IH | |] using json_ind';
    intros H; try (eexists; reflexivity); try discriminate.
  - rewrite to_string_array. simpl in H.
    rewrite (copy_array_no_invalid _ H). cbn [bind].
    assert (Hb : exists body, array_elements_to_string to_string l = Ok body).
    { induction IH as [| x r Hx _ IHr]; [eexists; reflexivity |].
      simpl in H. apply andb_true_iff in H as [H1 H2].
      destruct (Hx H1) as [sx Ex]. destruct (IHr H2) as [sr Er].
      simpl. rewrite Ex, Er. eexists; reflexivity. }
    destruct Hb as [body Hb]. rewrite Hb. eexists; reflexivity.
  - rewrite to_string_object. simpl in H.
    rewrite (copy_object_no_invalid _ H). cbn [bind].
    assert (Hb : exists body, object_members_to_string to_string m = Ok body).
    { induction IH as [| [k x] r Hx _ IHr]; [eexists; reflexivity |].
      simpl in H. apply andb_true_iff in H as [H1 H2].
      destruct (Hx H1) as [sx Ex]. destruct (IHr H2) as [sr Er].
      simpl. simpl in Ex. rewrite Ex, Er. eexists; reflexivity. }
    destruct Hb as [body Hb]. rewrite Hb. eexists; reflexivity.
Qed.

Lemma to_string_not_oof j : to_string j <> OutOfFuel.
Proof.
  induction j as [s | n | d | l IH | b | m IH | |] using json_ind';
    try discriminate.
  - rewrite to_string_array.
    apply bind_not_oof; [apply copy_array_not_oof |]. intros _ _.
    apply bind_not_oof; [| discriminate].
    induction IH as [| x r Hx _ IHr]; simpl; [discriminate |].
    apply bind_not_oof; [exact Hx |]. intros sx _.
    apply bind_not_oof; [exact IHr | discriminate].
  - rewrite to_string_object.
    apply bind_not_oof.
    { intros E. apply (copy_not_oof (JObject m)).
      rewrite copy_eqn_object, E. reflexivity. }
    intros _ _. apply bind_not_oof; [| discriminate].
    induction IH as [| [k x] r Hx _ IHr]; simpl; [discriminate |].
    apply bind_not_oof; [exact Hx |]. intros sx _.
    apply bind_not_oof; [exact IHr | discriminate].
Qed.

(** C9.  [to_string] succeeds on every tree whose nodes all have a kind from
    [String] to [Null]; it never fails to terminate; whenever it throws,
    some node of the tree has the kind [Invalid]; and its own error branch,
    "invalid json type", is taken only when the value it is called on has
    the kind [Invalid]. *)
Theorem C9_to_string_total :
  forall j : json,
    (no_invalid j = true -> exists s, to_string j = Ok s)
    /\ to_string j <> OutOfFuel
    /\ (forall e, to_string j = Throw e -> no_invalid j = false)
    /\ (to_string j = Throw (runtime_error (U "invalid json type")) ->
        type j = t_invalid)
    /\ to_string JInvalid = Throw (runtime_error (U "invalid json type")).
Proof.
  intros j. split; [apply to_string_no_invalid |].
  split; [apply to_string_not_oof |].
  split; [| split; [| reflexivity]].
  - intros e He. destruct (no_invalid j) eqn:E; [| reflexivity].
    destruct (to_string_no_invalid j E) as [s Hs]. congruence.
  - intros He. destruct j; try discriminate; try reflexivity.
    + rewrite to_string_array in He.
      destruct (copy_array val) as [l' | e |] eqn:Ec; cbn [bind] in He;
        [| apply copy_array_throw in Ec; subst e; discriminate | discriminate].
      assert (Hn : no_invalid (JArray val) = true).
      { apply (copy_ok_no_invalid (JArray val) (j' := JArray l')).
        rewrite copy_eqn_array, Ec. reflexivity. }
      destruct (to_string_no_invalid _ Hn) as [s Hs].
      rewrite to_string_array, Ec in Hs. cbn [bind] in Hs. congruence.
    + rewrite to_string_object in He.
      destruct (copy_object val) as [m' | e |] eqn:Ec; cbn [bind] in He;
        [| apply copy_object_throw in Ec; subst e; discriminate | discriminate].
      assert (Hn : no_invalid (JObject val) = true).
      { apply (copy_ok_no_invalid (JObject val) (j' := JObject m')).
        rewrite copy_eqn_object, Ec. reflexivity. }
      destruct (to_string_no_invalid _ Hn) as [s Hs].
      rewrite to_string_object, Ec in Hs. cbn [bind] in Hs. congruence.
Qed.

Lemma C9_to_string_total_witness :
  exists s, to_string (JObject [(U "k", JArray [JInteger 1; JNull; JString (U "x")])])
            = Ok s.
Proof.
  destruct (C9_to_string_total
              (JObject [(U "k", JArray [JInteger 1; JNull; JString (U "x")])]))
    as (H & _).
  apply H. reflexivity.
Defined.

(** ** Numbers *)

Lemma find_first_not_of_none set str :
  find_first_not_of set str = None <-> forallb (fun c => mem c set) str = true.
Proof.
  induction str as [| c str IH]; simpl; [tauto |].
  destruct (mem c set); simpl.
  - destruct (find_first_not_of set str); simpl.
    + split; [discriminate |]. intros H. apply IH in H. discriminate.
    + tauto.
  - split; discriminate.
Qed.

Lemma stoll_range str n pos :
  stoll str = Ok (n, pos) -> (LLONG_MIN <= n <= LLONG_MAX)%Z.
Proof.
  unfold stoll. destruct (read_sign (skip_isspace str)) as [neg s].
  destruct (span isdigit s) as [digits rest].
  destruct digits as [| d ds]; [discriminate |].
  set (num := if neg then _ else _).
  destruct ((num <? LLONG_MIN)%Z || (LLONG_MAX <? num)%Z) eqn:E; [discriminate |].
  intros H. injection H as <- _.
  apply orb_false_iff in E as [E1 E2].
  apply Z.ltb_ge in E1. apply Z.ltb_ge in E2. lia.
Qed.

Lemma parse_number_eqn strm :
  parse_number strm
  = (u8 <- U32ToU8 (fst (token_loop (fun c => c) [] strm)) ;;
     if only_integer_chars (trim u8)
     then n <- to_integer (trim u8) ;;
          Ok (JInteger n, snd (token_loop (fun c => c) [] strm))
     else d <- to_double (trim u8) ;;
          Ok (JDouble d, snd (token_loop (fun c => c) [] strm))).
Proof.
  unfold parse_number. destruct (token_loop (fun c => c) [] strm) as [tok rest].
  simpl. destruct (U32ToU8 tok) as [u8 | e |]; simpl; try reflexivity.
  unfold only_integer_chars.
  destruct (find_first_not_of integer_chars (trim u8)) eqn:E.
  - destruct (forallb (fun c => mem c integer_chars) (trim u8)) eqn:F;
      [| reflexivity].
    apply find_first_not_of_none in F. congruence.
  - apply find_first_not_of_none in E. rewrite E. reflexivity.
Qed.

(** C2.  Let [token] be the trimmed token of [parse_number].  When it holds
    only digits and minus signs, a value returned by [parse_number] is an
    [IntegerNumber] within the 64-bit signed range, read by [stoll] from the
    whole token; otherwise a returned value is a [DoubleNumber], read by
    [stod] from the whole token.  In both cases a conversion that stops
    before the end of the token makes [parse_number] throw, and a conversion
    of the whole of a token of valid code points makes it return the value.
    A lone minus sign and [124 000] throw; [42] is an integer, [4.5] and
    [1e3] are doubles, and [12a] goes to the floating-point conversion and
    throws. *)
Theorem C2_number_kind :
  forall (strm : u32_istream),
    let token := number_token strm in
    let rest := snd (token_loop (fun c => c) [] strm) in
    (forall v rest', parse_number strm = Ok (v, rest') ->
       rest' = rest
       /\ (only_integer_chars token = true ->
           exists n, v = JInteger n /\ stoll token = Ok (n, List.length token)
                     /\ (LLONG_MIN <= n <= LLONG_MAX)%Z)
       /\ (only_integer_chars token = false ->
           exists d, v = JDouble d /\ stod token = Ok (d, List.length token)))
    /\ (forall n pos, only_integer_chars token = true ->
          stoll token = Ok (n, pos) -> pos <> List.length token ->
          is_throw (parse_number strm) = true)
    /\ (forall d pos, only_integer_chars token = false ->
          stod token = Ok (d, pos) -> pos <> List.length token ->
          is_throw (parse_number strm) = true)
    /\ (forall n, only_integer_chars token = true ->
          valid_text (fst (token_loop (fun c => c) [] strm)) = true ->
          stoll token = Ok (n, List.length token) ->
          parse_number strm = Ok (JInteger n, rest))
    /\ (forall d, only_integer_chars token = false ->
          valid_text (fst (token_loop (fun c => c) [] strm)) = true ->
          stod token = Ok (d, List.length token) ->
          parse_number strm = Ok (JDouble d, rest))
    /\ is_throw (parse_number (U "-")) = true
    /\ is_throw (parse_number (U "124 000")) = true
    /\ parse_number (U "42,") = Ok (JInteger 42, [44])
    /\ kind_of (parse_number (U "4.5]")) = Some t_number_double
    /\ kind_of (parse_number (U "1e3")) = Some t_number_double
    /\ is_throw (parse_number (U "12a")) = true
    /\ only_integer_chars (number_token (U "12a")) = false.
Proof.
  intros strm token rest.
  assert (Hu : forall u8, U32ToU8 (fst (token_loop (fun c => c) [] strm)) = Ok u8 ->
                          trim u8 = token).
  { intros u8 H. apply U32ToU8_ok in H. subst u8. reflexivity. }
  repeat match goal with |- _ /\ _ => split end; try reflexivity.
  - intros v rest' H. rewrite parse_number_eqn in H. inv_bind H.
    rewrite (Hu _ Ha) in H.
    destruct (only_integer_chars token) eqn:E.
    + inv_bind H. injection H as <- <-. split; [reflexivity |].
      split; [| discriminate]. intros _. exists a0.
      unfold to_integer in Ha0. inv_bind Ha0. destruct a1 as [num pos].
      destruct (Nat.eqb_spec pos (List.length token)); simpl in Ha0;
        [| discriminate].
      injection Ha0 as <-. subst pos.
      split; [reflexivity | split; [exact Ha1 |]].
      eapply stoll_range; eassumption.
    + inv_bind H. injection H as <- <-. split; [reflexivity |].
      split; [discriminate |]. intros _. exists a0.
      unfold to_double in Ha0. inv_bind Ha0. destruct a1 as [num pos].
      destruct (Nat.eqb_spec pos (List.length token)); simpl in Ha0;
        [| discriminate].
      injection Ha0 as <-. subst pos.
      split; [reflexivity | exact Ha1].
  - intros n pos E Hs Hp. rewrite parse_number_eqn.
    destruct (U32ToU8 (fst (token_loop (fun c => c) [] strm))) as [u8 | e |] eqn:Eu;
      [| reflexivity | exfalso; eapply U32ToU8_not_oof; eassumption].
    cbn [bind]. rewrite (Hu _ eq_refl), E. unfold to_integer. rewrite Hs.
    cbn [bind]. destruct (Nat.eqb_spec pos (List.length token));
      [contradiction | reflexivity].
  - intros d pos E Hs Hp. rewrite parse_number_eqn.
    destruct (U32ToU8 (fst (token_loop (fun c => c) [] strm))) as [u8 | e |] eqn:Eu;
      [| reflexivity | exfalso; eapply U32ToU8_not_oof; eassumption].
    cbn [bind]. rewrite (Hu _ eq_refl), E. unfold to_double. rewrite Hs.
    cbn [bind]. destruct (Nat.eqb_spec pos (List.length token));
      [contradiction | reflexivity].
  - intros n E Hv Hs. rewrite parse_number_eqn. unfold U32ToU8.
    unfold valid_text in Hv. rewrite Hv. cbn [bind].
    fold (number_token strm). fold token. rewrite E. unfold to_integer.
    rewrite Hs. cbn [bind]. rewrite Nat.eqb_refl. reflexivity.
  - intros d E Hv Hs. rewrite parse_number_eqn. unfold U32ToU8.
    unfold valid_text in Hv. rewrite Hv. cbn [bind].
    fold (number_token strm). fold token. rewrite E. unfold to_double.
    rewrite Hs. cbn [bind]. rewrite Nat.eqb_refl. reflexivity.
Qed.

Lemma C2_number_kind_witness :
  parse_number (U "-17 ]") = Ok (JInteger (-17), [93])
  /\ is_throw (parse_number (U "12-3")) = true
  /\ is_throw (parse_number (U "0.124abc")) = true
  /\ kind_of (parse_number (U "0.5,")) = Some t_number_double.
Proof.
  split; [| split; [| split]].
  - destruct (C2_number_kind (U "-17 ]")) as (_ & _ & _ & H & _).
    apply H; reflexivity.
  - destruct (C2_number_kind (U "12-3")) as (_ & H & _).
    apply (H 12%Z 2%nat); [reflexivity | reflexivity | discriminate].
  - destruct (C2_number_kind (U "0.124abc")) as (_ & _ & H & _).
    apply (H (S754_finite false 8935141660703064 (-56)) 5%nat);
      [reflexivity | vm_compute; reflexivity | discriminate].
  - destruct (C2_number_kind (U "0.5,")) as (_ & _ & _ & _ & H & _).
    rewrite (H (S754_finite false 4503599627370496 (-53)));
      [reflexivity | reflexivity | reflexivity | vm_compute; reflexivity].
Defined.

(** ** The order of keys *)

Lemma string_eqb_eq a : forall b, string_eqb a b = true <-> a = b.
Proof.
  induction a as [| x a IH]; intros [| y b]; simpl; try (split; congruence).
  rewrite andb_true_iff, N.eqb_eq, IH. split; [intros [-> ->] | intros H];
    [reflexivity | injection H as -> ->; auto].
Qed.

Lemma string_eqb_refl a : string_eqb a a = true.
Proof. apply string_eqb_eq. reflexivity. Qed.

Lemma string_eqb_neq a b : a <> b -> string_eqb a b = false.
Proof.
  intros H. destruct (string_eqb a b) eqn:E; [| reflexivity].
  apply string_eqb_eq in E. contradiction.
Qed.

Lemma string_lt_irrefl a : string_lt a a = false.
Proof.
  induction a as [| x a IH]; simpl; [reflexivity |].
  rewrite N.ltb_irrefl. exact IH.
Qed.

Lemma string_lt_trans a : forall b c,
  string_lt a b = true -> string_lt b c = true -> string_lt a c = true.
Proof.
  induction a as [| x a IH]; intros [| y b] [| z c]; simpl; try congruence.
  destruct (N.ltb_spec x y), (N.ltb_spec y x), (N.ltb_spec y z),
    (N.ltb_spec z y), (N.ltb_spec x z), (N.ltb_spec z x);
    try congruence; try lia.
  apply IH.
Qed.

Lemma string_lt_trichotomy a : forall b,
  string_lt a b = false -> string_lt b a = false -> a = b.
Proof.
  induction a as [| x a IH]; intros [| y b]; simpl; try congruence.
  destruct (N.ltb_spec x y), (N.ltb_spec y x); try congruence; try lia.
  intros H1 H2. assert (x = y) by lia. subst. f_equal. now apply IH.
Qed.

Lemma string_lt_asym a b : string_lt a b = true -> string_lt b a = false.
Proof.
  intros H. destruct (string_lt b a) eqn:E; [| reflexivity].
  pose proof (@string_lt_trans _ _ _ H E) as C.
  rewrite string_lt_irrefl in C. discriminate.
Qed.

Lemma string_lt_neq a b : string_lt a b = true -> a <> b.
Proof. intros H ->. rewrite string_lt_irrefl in H. discriminate. Qed.

(** ** [std::map]: assignment under a key *)

Section MapFacts.
Variable T : Type.
Implicit Types m : list (std_string * T).

Lemma keys_sorted_cons k v m :
  keys_sorted ((k, v) :: m) = true <-> keys_above k m /\ keys_sorted m = true.
Proof.
  revert k v. induction m as [| [k' v'] m IH]; intros k v.
  - simpl. split; [intros _; split; [constructor | reflexivity] | reflexivity].
  - change (keys_sorted ((k, v) :: (k', v') :: m))
      with (string_lt k k' && keys_sorted ((k', v') :: m)).
    rewrite andb_true_iff. split.
    + intros [H1 H2]. split; [| exact H2]. constructor; [exact H1 |].
      apply IH in H2 as [H2 _]. unfold keys_above in *.
      eapply Forall_impl; [| exact H2]. intros [k2 v2] H. simpl in *.
      eapply string_lt_trans; eassumption.
    + intros [H1 H2]. inversion H1; subst. split; assumption.
Qed.

Lemma map_find_above k m : keys_above k m -> map_find k m = None.
Proof.
  induction 1 as [| [k' v'] m H _ IH]; simpl; [reflexivity |].
  simpl in H. rewrite (string_eqb_neq (@string_lt_neq _ _ H)). exact IH.
Qed.

Lemma map_find_assign_same k v m : map_find k (map_assign k v m) = Some v.
Proof.
  induction m as [| [k' v'] m IH]; simpl.
  - rewrite string_eqb_refl. reflexivity.
  - destruct (string_lt k k') eqn:E1; simpl.
    + rewrite string_eqb_refl. reflexivity.
    + destruct (string_lt k' k) eqn:E2; simpl.
      * rewrite (string_eqb_neq (not_eq_sym (@string_lt_neq _ _ E2))). exact IH.
      * rewrite (@string_lt_trichotomy _ _ E1 E2), string_eqb_refl. reflexivity.
Qed.

Lemma map_find_assign_other k k0 v m :
  k0 <> k -> map_find k0 (map_assign k v m) = map_find k0 m.
Proof.
  intros Hne. induction m as [| [k' v'] m IH]; simpl.
  - rewrite (string_eqb_neq Hne). reflexivity.
  - destruct (string_lt k k') eqn:E1; simpl.
    + rewrite (string_eqb_neq Hne). reflexivity.
    + destruct (string_lt k' k) eqn:E2; simpl.
      * rewrite IH. reflexivity.
      * pose proof (@string_lt_trichotomy _ _ E1 E2) as <-.
        rewrite (string_eqb_neq Hne). reflexivity.
Qed.

Lemma keys_above_assign k0 k v m :
  string_lt k0 k = true -> keys_above k0 m -> keys_above k0 (map_assign k v m).
Proof.
  intros Hk. induction 1 as [| [k' v'] m H Hm IH]; simpl.
  - constructor; [exact Hk | constructor].
  - destruct (string_lt k k'); [| destruct (string_lt k' k)].
    + constructor; [exact Hk |]. constructor; assumption.
    + constructor; assumption.
    + constructor; assumption.
Qed.

(** Assignment keeps the members in key order. *)
Lemma keys_sorted_assign k v m :
  keys_sorted m = true -> keys_sorted (map_assign k v m) = true.
Proof.
  induction m as [| [k' v'] m IH]; intros H; [reflexivity |].
  pose proof H as H0. apply keys_sorted_cons in H as [Ha Hs].
  cbn [map_assign]. destruct (string_lt k k') eqn:E1.
  - apply keys_sorted_cons. split; [| exact H0].
    constructor; [exact E1 |].
    eapply Forall_impl; [| exact Ha]. intros [k2 v2] H2. simpl in *.
    eapply string_lt_trans; eassumption.
  - destruct (string_lt k' k) eqn:E2.
    + apply keys_sorted_cons. split; [| apply IH, Hs].
      apply keys_above_assign; assumption.
    + apply keys_sorted_cons. split; assumption.
Qed.

(** Two member lists in key order with the same lookups are equal. *)
Lemma keys_sorted_ext m1 : forall m2,
  keys_sorted m1 = true -> keys_sorted m2 = true ->
  (forall k, map_find k m1 = map_find k m2) -> m1 = m2.
Proof.
  induction m1 as [| [k1 v1] m1 IH]; intros [| [k2 v2] m2] S1 S2 E.
  - reflexivity.
  - specialize (E k2). simpl in E. rewrite string_eqb_refl in E. discriminate.
  - specialize (E k1). simpl in E. rewrite string_eqb_refl in E. discriminate.
  - apply keys_sorted_cons in S1 as [A1 S1]. apply keys_sorted_cons in S2 as [A2 S2].
    assert (Hk : k1 = k2).
    { apply string_lt_trichotomy.
      - destruct (string_lt k1 k2) eqn:L; [| reflexivity].
        pose proof (E k1) as E1. simpl in E1.
        rewrite string_eqb_refl, (string_eqb_neq (@string_lt_neq _ _ L)) in E1.
        rewrite map_find_above in E1; [discriminate |].
        eapply Forall_impl; [| exact A2]. intros [k v] H. simpl in *.
        eapply string_lt_trans; eassumption.
      - destruct (string_lt k2 k1) eqn:L; [| reflexivity].
        pose proof (E k2) as E2. simpl in E2.
        rewrite string_eqb_refl, (string_eqb_neq (@string_lt_neq _ _ L)) in E2.
        rewrite map_find_above in E2; [discriminate |].
        eapply Forall_impl; [| exact A1]. intros [k v] H. simpl in *.
        eapply string_lt_trans; eassumption. }
    subst k2. pose proof (E k1) as E1. simpl in E1.
    rewrite string_eqb_refl in E1. injection E1 as <-.
    f_equal. apply IH; [assumption | assumption |].
    intros k. destruct (string_eqb k k1) eqn:Ek.
    + apply string_eqb_eq in Ek. subst k.
      rewrite !map_find_above by assumption. reflexivity.
    + specialize (E k). simpl in E. rewrite Ek in E. exact E.
Qed.
End MapFacts.

(** ** [add_member] *)

Lemma map_assign_twice (T : Type) k (v v' : T) m :
  map_assign k v (map_assign k v' m) = map_assign k v m.
Proof.
  induction m as [| [k0 v0] m IH]; simpl.
  - rewrite string_lt_irrefl. reflexivity.
  - destruct (string_lt k k0) eqn:E1; simpl.
    + rewrite string_lt_irrefl. reflexivity.
    + destruct (string_lt k0 k) eqn:E2; simpl.
      * rewrite E1, E2, IH. reflexivity.
      * rewrite E1, E2. reflexivity.
Qed.

Lemma add_member_ok j k v j' :
  add_member j k v = Ok j' ->
  exists m, j = JObject m /\ j' = JObject (map_assign k v m)
            /\ no_invalid v = true.
Proof.
  unfold add_member. intros H. inv_bind H.
  pose proof (copy_ok_no_invalid _ Ha) as Hn. apply copy_ok in Ha. subst a.
  destruct j; try discriminate. simpl in H. injection H as <-.
  eexists; split; [reflexivity | split; [reflexivity | assumption]].
Qed.

Lemma add_member_object m k v :
  no_invalid v = true ->
  add_member (JObject m) k v = Ok (JObject (map_assign k v m)).
Proof.
  intros H. unfold add_member. rewrite (copy_no_invalid _ H). reflexivity.
Qed.

Lemma add_members_spec members : forall m j',
  add_members (JObject m) members = Ok j' ->
  keys_sorted m = true ->
  exists m', j' = JObject m' /\ keys_sorted m' = true
             /\ forall key, map_find key m'
                            = match last_value key members with
                              | Some v => Some v
                              | None => map_find key m
                              end.
Proof.
  induction members as [| [k v] members IH]; intros m j' H Hs.
  - simpl in H. injection H as <-. exists m.
    split; [reflexivity | split; [exact Hs | intros key; reflexivity]].
  - simpl in H. inv_bind H.
    apply add_member_ok in Ha as (m0 & E0 & -> & Hv). injection E0 as <-.
    destruct (IH _ _ H (@keys_sorted_assign _ k v _ Hs)) as (m' & -> & Hs' & Hf).
    exists m'. split; [reflexivity | split; [exact Hs' |]].
    intros key. rewrite Hf. simpl.
    destruct (last_value key members); [reflexivity |].
    destruct (string_eqb key k) eqn:E.
    + apply string_eqb_eq in E. subst key. apply map_find_assign_same.
    + apply map_find_assign_other. intros ->.
      rewrite string_eqb_refl in E. discriminate.
Qed.

(** ** Strings without a NUL *)

Lemma span_all p s rest :
  forallb p s = true -> p (peek rest) = false \/ rest = [] ->
  span p (s ++ rest) = (s, rest).
Proof.
  intros Hs Hr. induction s as [| c s IH]; simpl.
  - destruct rest as [| r rest]; [reflexivity |]. simpl in Hr. simpl.
    destruct Hr as [Hr | Hr]; [rewrite Hr; reflexivity | discriminate].
  - simpl in Hs. apply andb_true_iff in Hs as [H1 H2].
    rewrite H1, (IH H2). reflexivity.
Qed.

Lemma span_nil p s : forallb p s = true -> span p s = (s, []).
Proof.
  intros H. rewrite <- (app_nil_r s) at 1. apply span_all; [exact H | now right].
Qed.

(** A string without a NUL is its own C string. *)
Lemma c_str_no_nul s :
  forallb (fun c => negb (c =? 0)) s = true -> c_str s = s.
Proof. intros H. unfold c_str. rewrite span_nil by exact H. reflexivity. Qed.

(** ** Duplicate keys *)

(** C6.  [add_member] overwrites: after two insertions under the same key
    the object holds the second value under that key ([has_member] finds
    the key, and [operator[]], whose argument is a C string, returns the
    value when the key holds no NUL), has the size it had after the first,
    and is the object that the second insertion alone would have built.  An
    object built from the empty object by a sequence of [add_member] calls
    keeps its keys unique and in order, and holds under each key the value
    of the last call for that key.  The object parser inserts every member
    it reads with [add_member], so [parse] of [{'a':1,'a':2}] (apostrophes
    for double quotes) is the one-member object whose member [a] is 2. *)
Theorem C6_duplicate_keys_last_wins :
  forall (j j1 j2 : json) (k : std_string) (v1 v2 : json)
         (members : list (std_string * json)) (built : json)
         (fuel : nat) (return_val : json) (strm : u32_istream),
    (add_member j k v1 = Ok j1 -> add_member j1 k v2 = Ok j2 ->
     (exists m, j2 = JObject m /\ map_find k m = Some v2)
     /\ has_member j2 k = Ok true
     /\ (forallb (fun c => negb (c =? 0)) k = true -> at_key j2 k = Ok v2)
     /\ size j2 = size j1 /\ add_member j k v2 = Ok j2)
    /\ (add_members (JObject []) members = Ok built ->
        exists m, built = JObject m /\ keys_sorted m = true
                  /\ forall key, map_find key m = last_value key members)
    /\ (fst (peek_next_non_space strm) = 34 ->
        parse_object_loop (S fuel) return_val strm
        = ('(member, strm) <- parse_member (snd (peek_next_non_space strm)) ;;
           strm <- skip_char strm 58 ;;
           '(member_value, strm) <- parse_value fuel strm ;;
           return_val <- add_member return_val member member_value ;;
           parse_object_loop fuel return_val strm))
    /\ parse (J "{'a':1,'a':2}") = Ok (JObject [(U "a", JInteger 2)])
    /\ (r <- parse (J "{'a':1,'a':2}") ;; at_key r (U "a")) = Ok (JInteger 2)
    /\ (r <- parse (J "{'a':1,'a':2}") ;; size r) = Ok 1%nat.
Proof.
  intros j j1 j2 k v1 v2 members built fuel return_val strm.
  split; [| split; [| split; [| split; [| split]]]];
    [| | | vm_compute; reflexivity | vm_compute; reflexivity
     | vm_compute; reflexivity].
  - intros H1 H2.
    apply add_member_ok in H1 as (m & -> & -> & Hv1).
    apply add_member_ok in H2 as (m1 & E & -> & Hv2). injection E as <-.
    rewrite map_assign_twice. split; [| split; [| split; [| split]]].
    + eexists. split; [reflexivity | apply map_find_assign_same].
    + unfold has_member. simpl. rewrite map_find_assign_same. reflexivity.
    + intros Hk. unfold at_key. simpl. rewrite (c_str_no_nul _ Hk).
      rewrite map_find_assign_same. reflexivity.
    + simpl. f_equal.
      rewrite <- (map_assign_twice k v2 v1 m).
      assert (L : forall (x y : json) m0,
                 List.length (map_assign k x (map_assign k y m0))
                 = List.length (map_assign k y m0)).
      { clear. intros x y m0. induction m0 as [| [k0 v0] m0 IH]; simpl.
        - rewrite string_lt_irrefl. reflexivity.
        - destruct (string_lt k k0) eqn:E1; simpl.
          + rewrite string_lt_irrefl. reflexivity.
          + destruct (string_lt k0 k) eqn:E2; simpl.
            * rewrite E1, E2. simpl. rewrite IH. reflexivity.
            * rewrite E1, E2. reflexivity. }
      apply L.
    + apply add_member_object, Hv2.
  - intros H. destruct (add_members_spec _ _ H eq_refl) as (m & -> & Hs & Hf).
    exists m. split; [reflexivity | split; [exact Hs |]]. intros key. rewrite Hf.
    destruct (last_value key members); reflexivity.
  - intros H. rewrite parse_object_loop_eqn.
    destruct (peek_next_non_space strm) as [c s1]. simpl in H. subst c.
    reflexivity.
Qed.

Lemma C6_duplicate_keys_last_wins_witness :
  (r <- add_member (JObject [(U "b", JNull)]) (U "a") (JInteger 1) ;;
   r <- add_member r (U "a") (JInteger 2) ;; at_key r (U "a"))
  = Ok (JInteger 2)
  /\ exists m, add_members (JObject [])
                 [(U "a", JInteger 1); (U "b", JNull); (U "a", JInteger 2)]
               = Ok (JObject m)
               /\ map_find (U "a") m = Some (JInteger 2).
Proof.
  split.
  - destruct (C6_duplicate_keys_last_wins
                (JObject [(U "b", JNull)])
                (JObject [(U "a", JInteger 1); (U "b", JNull)])
                (JObject [(U "a", JInteger 2); (U "b", JNull)])
                (U "a") (JInteger 1) (JInteger 2) [] JNull 0 JNull [])
      as (H & _).
    destruct H as (_ & _ & H & _); [reflexivity | reflexivity |].
    simpl. apply H. reflexivity.
  - destruct (C6_duplicate_keys_last_wins
                JNull JNull JNull [] JNull JNull
                [(U "a", JInteger 1); (U "b", JNull); (U "a", JInteger 2)]
                (JObject [(U "a", JInteger 2); (U "b", JNull)])
                0 JNull [])
      as (_ & H & _).
    destruct H as (m & E & _ & Hf); [reflexivity |].
    exists m. split; [rewrite <- E; reflexivity | apply Hf].
Defined.

(** ** What the parser builds *)

Lemma parsed_array l : Forall parsed l <-> parsed (JArray l).
Proof.
  unfold parsed. simpl. rewrite !forallb_forall, Forall_forall.
  split; [intros H; split; intros x Hx; apply H, Hx |].
  intros [H1 H2] x Hx. split; [apply H1 | apply H2]; exact Hx.
Qed.

Lemma parsed_object m :
  (keys_sorted m = true /\ Forall (fun kv => parsed (snd kv)) m)
  <-> parsed (JObject m).
Proof.
  unfold parsed. simpl. rewrite andb_true_iff, !forallb_forall, Forall_forall.
  split.
  - intros [Hs H]. split; [intros x Hx; apply H, Hx |].
    split; [exact Hs | intros x Hx; apply H, Hx].
  - intros [H1 [Hs H2]]. split; [exact Hs |].
    intros x Hx. split; [apply H1 | apply H2]; exact Hx.
Qed.

Lemma Forall_map_assign (T : Type) (P : std_string * T -> Prop) k v m :
  (forall k', P (k', v)) -> Forall P m -> Forall P (map_assign k v m).
Proof.
  intros Hv. induction 1 as [| [k0 v0] m H Hm IH]; simpl.
  - constructor; [apply Hv | constructor].
  - destruct (string_lt k k0); [| destruct (string_lt k0 k)].
    + constructor; [apply Hv |]. constructor; assumption.
    + constructor; assumption.
    + constructor; [apply Hv | assumption].
Qed.

Lemma parsed_add_member o k v o' :
  parsed o -> parsed v -> add_member o k v = Ok o' ->
  parsed o' /\ exists m, o' = JObject m.
Proof.
  intros Ho Hv H. apply add_member_ok in H as (m & -> & -> & _).
  apply parsed_object in Ho as [Hs Hm].
  split; [| eexists; reflexivity]. apply parsed_object. split.
  - apply keys_sorted_assign, Hs.
  - apply Forall_map_assign; [intros k'; exact Hv | exact Hm].
Qed.

Lemma parsed_leaf_string s v s' : parse_string s = Ok (v, s') -> parsed v.
Proof.
  unfold parse_string. intros H. inv_bind H. inv_bind H. destruct a0.
  inv_bind H. inv_bind H. injection H as <- _. split; reflexivity.
Qed.

Lemma parsed_leaf_number s v s' : parse_number s = Ok (v, s') -> parsed v.
Proof.
  rewrite parse_number_eqn. intros H. inv_bind H.
  destruct (only_integer_chars (trim a)); inv_bind H; injection H as <- _;
    split; reflexivity.
Qed.

Lemma parsed_leaf_bool s v s' : parse_bool s = Ok (v, s') -> parsed v.
Proof.
  unfold parse_bool. destruct (token_loop tolower [] s). intros H.
  inv_bind H. inv_bind H. injection H as <- _. split; reflexivity.
Qed.

Lemma parsed_leaf_null s v s' : parse_null s = Ok (v, s') -> parsed v.
Proof.
  unfold parse_null. destruct (token_loop tolower [] s). intros H.
  inv_bind H. destruct (string_eqb (trim a) (U "null")); [| discriminate].
  injection H as <- _. split; reflexivity.
Qed.

Lemma parser_parsed fuel :
  (forall s v s', parse_value fuel s = Ok (v, s') -> parsed v) /\
  (forall s v s', parse_array fuel s = Ok (v, s') -> parsed v) /\
  (forall acc s l s', Forall parsed acc ->
                      parse_array_loop fuel acc s = Ok (l, s') ->
                      Forall parsed l) /\
  (forall s v s', parse_object fuel s = Ok (v, s') ->
                  parsed v /\ exists m, v = JObject m) /\
  (forall o s v s', parsed o -> (exists m, o = JObject m) ->
                    parse_object_loop fuel o s = Ok (v, s') ->
                    parsed v /\ exists m, v = JObject m).
Proof.
  induction fuel as [| fuel (IHv & IHa & IHal & IHo & IHol)].
  - split; [| split; [| split; [| split]]]; try (intros; discriminate).
    intros o s v s' Ho Hm H. rewrite parse_object_loop_eqn in H.
    unfold peek_next_non_space in H.
    destruct (negb (peek (skip_space s) =? EOF)); [discriminate |].
    injection H as <- _. split; assumption.
  - split; [| split; [| split; [| split]]].
    + intros s v s' H. rewrite parse_value_S in H.
      unfold peek_next_non_space in H.
      repeat match type of H with
             | (if ?b then _ else _) = _ => destruct b
             end; try discriminate.
      * eapply parsed_leaf_string; eassumption.
      * eapply IHa; eassumption.
      * eapply parsed_leaf_number; eassumption.
      * eapply IHo; eassumption.
      * eapply parsed_leaf_bool; eassumption.
      * eapply parsed_leaf_null; eassumption.
    + intros s v s' H. rewrite parse_array_S in H. inv_bind H.
      unfold peek_next_non_space in H.
      destruct (peek (skip_space a) =? 93).
      * inv_bind H. injection H as <- _. split; reflexivity.
      * inv_bind H. destruct a0 as [l s1]. inv_bind H. inv_bind H.
        injection H as <- _. apply copy_array_ok in Ha2. subst a1.
        apply parsed_array. eapply IHal; [| eassumption]. constructor.
    + intros acc s l s' Hacc H. rewrite parse_array_loop_S in H. inv_bind H.
      destruct a as [elem s1]. inv_bind H. apply copy_ok in Ha0. subst a.
      apply IHv in Ha.
      assert (Hacc' : Forall parsed (acc ++ [elem])).
      { apply Forall_app. split; [exact Hacc |]. constructor; [exact Ha |].
        constructor. }
      unfold peek_next_non_space in H.
      destruct (peek (skip_space s1) =? 44).
      { inv_bind H. eapply IHal; eassumption. }
      destruct (peek (skip_space s1) =? 93).
      { injection H as <- _. exact Hacc'. }
      destruct (negb (peek (skip_space s1) =? EOF)).
      { eapply IHal; eassumption. }
      injection H as <- _. exact Hacc'.
    + intros s v s' H. rewrite parse_object_S in H. inv_bind H. inv_bind H.
      destruct a0 as [o s1]. inv_bind H. injection H as <- _.
      eapply IHol; [| | eassumption].
      * split; reflexivity.
      * eexists; reflexivity.
    + intros o s v s' Ho Hm H. rewrite parse_object_loop_eqn in H.
      unfold peek_next_non_space in H.
      destruct (negb (peek (skip_space s) =? EOF));
        [| injection H as <- _; split; assumption].
      destruct (peek (skip_space s) =? 34).
      { inv_bind H. destruct a as [k s1]. inv_bind H. inv_bind H.
        destruct a0 as [mv s2]. inv_bind H.
        apply IHv in Ha1.
        destruct (@parsed_add_member _ _ _ _ Ho Ha1 Ha2) as [Ho' Hm'].
        eapply IHol; eassumption. }
      destruct (peek (skip_space s) =? 125).
      { injection H as <- _. split; assumption. }
      destruct (peek (skip_space s) =? 44); [| discriminate].
      destruct (get_next_non_space (skip_space s)) as [c s1].
      eapply IHol; eassumption.
Qed.

(** Every value that [parse] returns is free of invalid nodes and keeps the
    members of every object in key order. *)
Lemma parse_parsed s v : parse s = Ok v -> parsed v.
Proof.
  unfold parse, peek_next_non_space. intros H. inv_bind H.
  destruct a as [r s1].
  destruct (negb (peek (skip_space s1) =? EOF)); [discriminate |].
  injection H as <-.
  destruct (peek (skip_space s) =? 123).
  - eapply (proj1 (proj2 (proj2 (proj2 (parser_parsed _))))); eassumption.
  - destruct (peek (skip_space s) =? 91); [| discriminate].
    eapply (proj1 (proj2 (parser_parsed _))); eassumption.
Qed.

(** ** Commas in objects *)

(** [{'a':1'b':2}] (apostrophes for double quotes) does not parse: the
    number token runs to the closing brace. *)
Lemma C10_counterexample :
  parse (J "{'a':1'b':2}")
  = Throw (runtime_error (U "Unexpected number(double) format."))
  /\ number_token (J "1'b':2}") = J "1'b':2".
Proof. split; vm_compute; reflexivity. Qed.

(** C10, amended.  In the loop of [parse_object] a comma is consumed
    whenever it is the next token and a double quote always starts a
    member, so no comma is required between members and redundant commas
    are accepted: [{'a':'x''b':'y'}] parses to a two-member object, and
    [{,}] and [{,,'a':1}] parse too.  A number (like a boolean or a null)
    extends to the next comma, brace or bracket, so a member must follow a
    number after a comma: [{'a':1'b':2}] throws. *)
Theorem C10_object_commas_optional :
  forall (fuel : nat) (return_val : json) (strm : u32_istream),
    (fst (peek_next_non_space strm) = 44 ->
     parse_object_loop (S fuel) return_val strm
     = parse_object_loop fuel return_val
         (snd (get_next_non_space (snd (peek_next_non_space strm)))))
    /\ (fst (peek_next_non_space strm) = 34 ->
        parse_object_loop (S fuel) return_val strm
        = ('(member, strm) <- parse_member (snd (peek_next_non_space strm)) ;;
           strm <- skip_char strm 58 ;;
           '(member_value, strm) <- parse_value fuel strm ;;
           return_val <- add_member return_val member member_value ;;
           parse_object_loop fuel return_val strm))
    /\ parse (J "{'a':'x''b':'y'}")
       = Ok (JObject [(U "a", JString (U "x")); (U "b", JString (U "y"))])
    /\ parse (J "{'a':[1]'b':{}'c':'z'}")
       = Ok (JObject [(U "a", JArray [JInteger 1]); (U "b", JObject []);
                      (U "c", JString (U "z"))])
    /\ parse (J "{,}") = Ok (JObject [])
    /\ parse (J "{,,'a':1}") = Ok (JObject [(U "a", JInteger 1)])
    /\ is_throw (parse (J "{'a':1'b':2}")) = true
    /\ parse (J "{'a':1,'b':2}")
       = Ok (JObject [(U "a", JInteger 1); (U "b", JInteger 2)]).
Proof.
  intros fuel return_val strm.
  split; [| split; [| repeat split; vm_compute; reflexivity]].
  - intros H. rewrite parse_object_loop_eqn.
    destruct (peek_next_non_space strm) as [c s1]. simpl in H. subst c.
    cbn [snd]. destruct (get_next_non_space s1). reflexivity.
  - intros H. rewrite parse_object_loop_eqn.
    destruct (peek_next_non_space strm) as [c s1]. simpl in H. subst c.
    reflexivity.
Qed.

Lemma C10_object_commas_optional_witness :
  parse_object_loop 2 (JObject []) (J " , }") = Ok (JObject [], [125])
  /\ parse_object_loop 3 (JObject []) (J "'k':null}")
     = Ok (JObject [(U "k", JNull)], [125]).
Proof.
  split.
  - destruct (C10_object_commas_optional 1 (JObject []) (J " , }")) as (H & _).
    rewrite H; vm_compute; reflexivity.
  - destruct (C10_object_commas_optional 2 (JObject []) (J "'k':null}"))
      as (_ & H & _).
    rewrite H; vm_compute; reflexivity.
Defined.

(** ** Separators in arrays *)

(** After the element ['a'] the next token is a double quote, neither a comma
    nor a closing bracket, and the array is parsed all the same. *)
Lemma C3_counterexample :
  parse_value 1 (J "'a' 'b']") = Ok (JString (U "a"), J " 'b']")
  /\ fst (peek_next_non_space (J " 'b']")) = 34
  /\ parse (J "['a' 'b']") = Ok (JArray [JString (U "a"); JString (U "b")])
  /\ parse (J "[[1] {} 'x']")
     = Ok (JArray [JArray [JInteger 1]; JObject []; JString (U "x")]).
Proof. repeat split; vm_compute; reflexivity. Qed.

Lemma parse_value_cannot_start fuel strm :
  starts_value (fst (peek_next_non_space strm)) = false ->
  parse_value (S fuel) strm = Throw (runtime_error (U "unexpected character")).
Proof.
  intros H. rewrite parse_value_S.
  destruct (peek_next_non_space strm) as [c s1]. simpl in H.
  unfold starts_value in H.
  repeat match type of H with
         | _ || _ = false => apply orb_false_iff in H as [H ?]
         end.
  repeat match goal with
         | E : _ = false |- _ => rewrite E; clear E
         end.
  reflexivity.
Qed.

(** C3, amended.  After an element of a non-empty array, with [c] the next
    token: a comma is consumed and another element is parsed; a closing
    bracket ends the loop; at the end of input the loop ends and the closing
    bracket is missed; any other token is left in place and parsed as the
    next element.  That throws "unexpected character" if the token cannot
    start a value; a token that can start a value is parsed as one, which
    succeeds or throws as that value does.  So elements may follow each
    other without a comma: [\['a' 'b'\]] (apostrophes for double quotes) is
    an array of two strings, while [\['a' \[x\]\]] throws inside the nested
    array, whose opening bracket can start a value.  A comma followed by a
    closing bracket throws: [\[1,2,\]] fails and [\[1,2\]] is an array of
    size 2. *)
Theorem C3_array_separators :
  forall (fuel : nat) (vector_val : json_array) (strm : u32_istream)
         (elem : json) (rest : u32_istream),
    parse_value fuel strm = Ok (elem, rest) ->
    let c := fst (peek_next_non_space rest) in
    let rest' := snd (peek_next_non_space rest) in
    (c = 44 ->
     parse_array_loop (S fuel) vector_val strm
     = (strm <- skip_char rest' 44 ;;
        parse_array_loop fuel (vector_val ++ [elem]) strm))
    /\ (c = 44 -> forall after,
          skip_char rest' 44 = Ok after ->
          fst (peek_next_non_space after) = 93 ->
          forall f, fuel = S (S f) ->
          parse_array_loop (S fuel) vector_val strm
          = Throw (runtime_error (U "unexpected character")))
    /\ (c = 93 ->
        parse_array_loop (S fuel) vector_val strm
        = Ok (vector_val ++ [elem], rest'))
    /\ (c = EOF ->
        parse_array_loop (S fuel) vector_val strm
        = Ok (vector_val ++ [elem], rest')
        /\ is_throw (skip_char rest' 93) = true)
    /\ (c <> 44 -> c <> 93 -> c <> EOF ->
        parse_array_loop (S fuel) vector_val strm
        = parse_array_loop fuel (vector_val ++ [elem]) rest')
    /\ (c <> 44 -> c <> 93 -> c <> EOF -> starts_value c = false ->
        forall f, fuel = S (S f) ->
        parse_array_loop (S fuel) vector_val strm
        = Throw (runtime_error (U "unexpected character")))
    /\ parse (J "[1,2,]") = Throw (runtime_error (U "unexpected character"))
    /\ parse (J "[1,2]") = Ok (JArray [JInteger 1; JInteger 2])
    /\ (r <- parse (J "[1,2]") ;; size r) = Ok 2%nat
    /\ parse (J "['a' 'b']") = Ok (JArray [JString (U "a"); JString (U "b")])
    /\ starts_value 91 = true
    /\ parse (J "['a' [x]]") = Throw (runtime_error (U "unexpected character")).
Proof.
  intros fuel vector_val strm elem rest Hv c rest'.
  assert (Hc : copy elem = Ok elem).
  { apply copy_no_invalid. eapply (proj1 (parser_parsed fuel)). eassumption. }
  assert (Hloop :
            parse_array_loop (S fuel) vector_val strm
            = (if c =? 44 then
                 strm <- skip_char rest' 44 ;;
                 parse_array_loop fuel (vector_val ++ [elem]) strm
               else if c =? 93 then Ok (vector_val ++ [elem], rest')
               else if negb (c =? EOF)
                    then parse_array_loop fuel (vector_val ++ [elem]) rest'
                    else Ok (vector_val ++ [elem], rest'))).
  { rewrite parse_array_loop_S, Hv. cbn [bind]. rewrite Hc. cbn [bind].
    subst c rest'. destruct (peek_next_non_space rest). reflexivity. }
  split; [| split; [| split; [| split; [| split; [| split]]]]].
  - intros E. rewrite Hloop, E. reflexivity.
  - intros E after Ha H93 f Hf. rewrite Hloop, E. cbn [N.eqb Pos.eqb].
    rewrite Ha. cbn [bind]. subst fuel. rewrite parse_array_loop_S.
    rewrite parse_value_cannot_start; [reflexivity |].
    rewrite H93. reflexivity.
  - intros E. rewrite Hloop, E. reflexivity.
  - intros E. rewrite Hloop, E. split; [reflexivity |].
    unfold skip_char. subst c rest'. unfold peek_next_non_space in *.
    cbn [fst snd] in *. rewrite skip_space_idem, E. reflexivity.
  - intros H1 H2 H3. rewrite Hloop.
    destruct (N.eqb_spec c 44); [contradiction |].
    destruct (N.eqb_spec c 93); [contradiction |].
    destruct (N.eqb_spec c EOF); [contradiction |]. reflexivity.
  - intros H1 H2 H3 Hs f Hf. rewrite Hloop.
    destruct (N.eqb_spec c 44); [contradiction |].
    destruct (N.eqb_spec c 93); [contradiction |].
    destruct (N.eqb_spec c EOF); [contradiction |]. cbn [negb].
    subst fuel. rewrite parse_array_loop_S.
    rewrite parse_value_cannot_start; [reflexivity |].
    subst c rest'. unfold peek_next_non_space in *. cbn [fst snd] in *.
    rewrite skip_space_idem. exact Hs.
  - repeat split; vm_compute; reflexivity.
Qed.

Lemma C3_array_separators_witness :
  parse_array_loop 2 [] (J "1]") = Ok ([JInteger 1], [93])
  /\ parse_array_loop 3 [] (J "1,]")
     = Throw (runtime_error (U "unexpected character"))
  /\ parse_array_loop 3 [] (J "1,:]")
     = Throw (runtime_error (U "unexpected character"))
  /\ parse_array_loop 3 [] (J "'a':]")
     = Throw (runtime_error (U "unexpected character"))
  /\ parse_array_loop 2 [] (J "'a''b']")
     = parse_array_loop 1 [JString (U "a")] (J "'b']").
Proof.
  split; [| split; [| split; [| split]]].
  - destruct (@C3_array_separators 1 [] (J "1]") (JInteger 1) [93] eq_refl)
      as (_ & _ & H & _).
    apply H. reflexivity.
  - destruct (@C3_array_separators 2 [] (J "1,]") (JInteger 1) (J ",]") eq_refl)
      as (_ & H & _).
    apply (H eq_refl [93] eq_refl eq_refl 0%nat eq_refl).
  - destruct (@C3_array_separators 2 [] (J "1,:]") (JInteger 1) (J ",:]") eq_refl)
      as (H & _).
    rewrite (H eq_refl). vm_compute. reflexivity.
  - destruct (@C3_array_separators 2 [] (J "'a':]") (JString (U "a")) (J ":]")
                eq_refl)
      as (_ & _ & _ & _ & _ & H & _).
    apply (H ltac:(discriminate) ltac:(discriminate) ltac:(discriminate)
             eq_refl 0%nat eq_refl).
  - destruct (@C3_array_separators 1 [] (J "'a''b']") (JString (U "a"))
                (J "'b']") eq_refl)
      as (_ & _ & _ & _ & H & _).
    apply H; discriminate.
Defined.

(** ** Key order of serialized objects *)

(** The text of an object is the texts of its members, in the order of the
    member list. *)
Lemma object_members_in_order m : forall body,
  object_members_to_string to_string m = Ok body ->
  exists values,
    Forall2 (fun kv s => to_string (snd kv) = Ok s) m values
    /\ body = join_comma (map (fun p => member_text (fst (fst p)) (snd p))
                              (combine m values)).
Proof.
  induction m as [| [k v] m IH]; intros body H.
  - simpl in H. injection H as <-. exists []. split; [constructor | reflexivity].
  - simpl in H. inv_bind H. inv_bind H. injection H as <-.
    destruct (IH _ Ha0) as (values & HF & ->).
    exists (a :: values). split; [constructor; assumption |].
    simpl. unfold member_text. rewrite <- !app_assoc. simpl.
    repeat f_equal.
    inversion HF; subst; reflexivity.
Qed.

Lemma last_value_in members :
  NoDup (map fst members) ->
  forall k v, last_value k members = Some v <-> In (k, v) members.
Proof.
  induction members as [| [k0 v0] members IH]; intros Hn k v.
  - simpl. split; [discriminate | tauto].
  - inversion Hn as [| ? ? Hnot Hn']; subst. simpl.
    destruct (last_value k members) as [v' |] eqn:E.
    + apply (IH Hn') in E. split.
      * intros H. injection H as <-. right. exact E.
      * intros [H | H].
        -- injection H as -> ->. exfalso. apply Hnot.
           apply (in_map fst) in E. exact E.
        -- apply (IH Hn') in H. apply (IH Hn') in E.
           rewrite E in H. exact H.
    + destruct (string_eqb k k0) eqn:Ek.
      * apply string_eqb_eq in Ek. subst k0. split.
        -- intros H. injection H as <-. left. reflexivity.
        -- intros [H | H]; [injection H as ->; reflexivity |].
           apply (IH Hn') in H. congruence.
      * split; [discriminate |]. intros [H | H].
        -- injection H as -> ->. rewrite string_eqb_refl in Ek. discriminate.
        -- apply (IH Hn') in H. congruence.
Qed.

Lemma last_value_permutation ms1 ms2 :
  Permutation ms1 ms2 -> NoDup (map fst ms1) ->
  forall k, last_value k ms1 = last_value k ms2.
Proof.
  intros Hp Hn1 k.
  assert (Hn2 : NoDup (map fst ms2)).
  { eapply Permutation_NoDup; [| exact Hn1]. apply Permutation_map, Hp. }
  destruct (last_value k ms1) as [v |] eqn:E1.
  - apply (@last_value_in _ Hn1 _ _) in E1. symmetry. apply (@last_value_in _ Hn2 _ _).
    eapply Permutation_in; eassumption.
  - destruct (last_value k ms2) as [v |] eqn:E2; [| reflexivity].
    apply (@last_value_in _ Hn2 _ _) in E2.
    apply (Permutation_in _ (Permutation_sym Hp)) in E2.
    apply (@last_value_in _ Hn1 _ _) in E2. congruence.
Qed.

(** C5.  An object built from the empty object by [add_member] calls holds
    its members in increasing key order, and so does every object of a
    value returned by [parse]; [add_member] keeps that order.  [to_string]
    writes the members in the order in which the object holds them.  Two
    sequences of [add_member] calls that insert the same members (distinct
    keys) in different orders build the same object, hence the same text;
    [parse] of [{'b':1,'a':2}] and of [{'a':2,'b':1}] serialize to the same
    text, [a] before [b]. *)
Theorem C5_object_key_order :
  forall (members members' : list (std_string * json)) (built built' : json)
         (text : u32string) (parsed_value : json) (m : json_object)
         (body : std_string) (k : std_string) (v : json),
    (add_members (JObject []) members = Ok built ->
     exists m0, built = JObject m0 /\ keys_sorted m0 = true)
    /\ (parse text = Ok parsed_value -> objects_sorted parsed_value = true)
    /\ (keys_sorted m = true -> keys_sorted (map_assign k v m) = true)
    /\ (to_string (JObject m) = Ok body ->
        exists values,
          Forall2 (fun kv s => to_string (snd kv) = Ok s) m values
          /\ body = [123]
                    ++ join_comma
                         (map (fun p => member_text (fst (fst p)) (snd p))
                              (combine m values))
                    ++ [125])
    /\ (Permutation members members' -> NoDup (map fst members) ->
        add_members (JObject []) members = Ok built ->
        add_members (JObject []) members' = Ok built' ->
        built = built' /\ to_string built = to_string built')
    /\ (r <- parse (J "{'b':1,'a':2}") ;; to_string r) = Ok (J "{'a' : 2,'b' : 1}")
    /\ (r <- parse (J "{'a':2,'b':1}") ;; to_string r) = Ok (J "{'a' : 2,'b' : 1}")
    /\ (r <- add_members (JObject [])
               [(U "p2", JNull); (U "_p3_", JBoolean false); (U "p1", JInteger 1)] ;;
        to_string r)
       = Ok (J "{'_p3_' : false,'p1' : 1,'p2' : null}").
Proof.
  intros members members' built built' text parsed_value m body k v.
  split; [| split; [| split; [| split; [| split]]]].
  - intros H. destruct (add_members_spec _ _ H eq_refl) as (m0 & -> & Hs & _).
    exists m0. split; [reflexivity | exact Hs].
  - intros H. apply parse_parsed in H. apply H.
  - apply keys_sorted_assign.
  - intros H. rewrite to_string_object in H. inv_bind H. inv_bind H.
    injection H as <-.
    destruct (object_members_in_order _ Ha0) as (values & HF & ->).
    exists values. split; [exact HF | reflexivity].
  - intros Hp Hn H1 H2.
    destruct (add_members_spec _ _ H1 eq_refl) as (m1 & -> & Hs1 & Hf1).
    destruct (add_members_spec _ _ H2 eq_refl) as (m2 & -> & Hs2 & Hf2).
    assert (E : m1 = m2).
    { apply keys_sorted_ext; [exact Hs1 | exact Hs2 |].
      intros key. rewrite Hf1, Hf2, (@last_value_permutation _ _ Hp Hn key).
      reflexivity. }
    subst m2. split; reflexivity.
  - repeat split; vm_compute; reflexivity.
Qed.

Lemma C5_object_key_order_witness :
  add_members (JObject []) [(U "b", JInteger 1); (U "a", JInteger 2)]
  = add_members (JObject []) [(U "a", JInteger 2); (U "b", JInteger 1)]
  /\ keys_sorted (map_assign (U "b") JNull [(U "a", JNull); (U "c", JNull)]) = true
  /\ objects_sorted (JObject [(U "a", JInteger 2); (U "b", JInteger 1)]) = true.
Proof.
  split; [| split].
  - destruct (C5_object_key_order
                [(U "b", JInteger 1); (U "a", JInteger 2)]
                [(U "a", JInteger 2); (U "b", JInteger 1)]
                (JObject [(U "a", JInteger 2); (U "b", JInteger 1)])
                (JObject [(U "a", JInteger 2); (U "b", JInteger 1)])
                [] JNull [] [] [] JNull)
      as (_ & _ & _ & _ & H & _).
    destruct H as [H _].
    + apply perm_swap.
    + repeat constructor; simpl; intuition discriminate.
    + reflexivity.
    + reflexivity.
    + reflexivity.
  - destruct (C5_object_key_order [] [] JNull JNull [] JNull
                [(U "a", JNull); (U "c", JNull)] [] (U "b") JNull)
      as (_ & _ & H & _).
    apply H. reflexivity.
  - destruct (C5_object_key_order [] [] JNull JNull (J "{'b':1,'a':2}")
                (JObject [(U "a", JInteger 2); (U "b", JInteger 1)])
                [] [] [] JNull)
      as (_ & H & _).
    apply H. vm_compute. reflexivity.
Defined.

(** ** Decimal text read back *)

Lemma read_uint_chars_acc d : forall acc,
  fold_left decimal_step (uint_chars d) (Npos acc) = Npos (Pos.of_uint_acc d acc).
Proof.
  induction d; intros acc; cbn [uint_chars fold_left Pos.of_uint_acc];
    try reflexivity;
    rewrite <- IHd; f_equal; unfold decimal_step; lia.
Qed.

Lemma read_uint_chars d :
  fold_left decimal_step (uint_chars d) 0 = Pos.of_uint d.
Proof.
  induction d; cbn [uint_chars fold_left Pos.of_uint];
    try reflexivity; try exact IHd;
    apply (read_uint_chars_acc d).
Qed.

Lemma decimal_value_N_to_string n : decimal_value (N_to_string n) = n.
Proof.
  unfold decimal_value, N_to_string.
  rewrite read_uint_chars. apply DecimalN.Unsigned.of_to.
Qed.

Lemma uint_chars_digits d : forallb isdigit (uint_chars d) = true.
Proof. induction d; simpl; auto. Qed.

Lemma N_to_string_digits n : forallb isdigit (N_to_string n) = true.
Proof. apply uint_chars_digits. Qed.

Lemma N_to_string_nonempty n : N_to_string n <> [].
Proof.
  unfold N_to_string. destruct n as [| p]; [discriminate |].
  pose proof (DecimalPos.Unsigned.to_uint_nonnil p) as H. simpl.
  destruct (Pos.to_uint p); simpl; congruence.
Qed.

(** [stoll] reads the decimal text of a [long long] back, whole. *)
Lemma stoll_Z_to_string z :
  (LLONG_MIN <= z <= LLONG_MAX)%Z ->
  stoll (Z_to_string z) = Ok (z, List.length (Z_to_string z)).
Proof.
  intros Hr. unfold stoll.
  destruct z as [| p | p].
  - reflexivity.
  - assert (Hs : skip_isspace (Z_to_string (Zpos p)) = N_to_string (Npos p)).
    { unfold skip_isspace, Z_to_string.
      pose proof (N_to_string_digits (Npos p)) as Hd.
      pose proof (N_to_string_nonempty (Npos p)) as Hn.
      destruct (N_to_string (Npos p)) as [| c r]; [congruence |].
      simpl in Hd. apply andb_true_iff in Hd as [Hc _].
      simpl. replace (isspace c) with false; [reflexivity |].
      unfold isdigit in Hc. unfold isspace.
      apply andb_true_iff in Hc as [H1 H2].
      apply N.leb_le in H1. apply N.leb_le in H2.
      destruct (N.eqb_spec c 32); [lia |].
      destruct (N.leb_spec 9 c), (N.leb_spec c 13); try reflexivity; lia. }
    rewrite Hs.
    assert (Hg : read_sign (N_to_string (Npos p)) = (false, N_to_string (Npos p))).
    { pose proof (N_to_string_digits (Npos p)) as Hd.
      destruct (N_to_string (Npos p)) as [| c r]; [reflexivity |].
      simpl in Hd. apply andb_true_iff in Hd as [Hc _].
      unfold isdigit in Hc. apply andb_true_iff in Hc as [H1 H2].
      apply N.leb_le in H1. apply N.leb_le in H2.
      unfold read_sign.
      destruct (N.eqb_spec c 45); [lia |].
      destruct (N.eqb_spec c 43); [lia | reflexivity]. }
    rewrite Hg, span_nil by apply N_to_string_digits.
    pose proof (N_to_string_nonempty (Npos p)) as Hn.
    destruct (N_to_string (Npos p)) as [| c r] eqn:E; [congruence |].
    rewrite <- E, decimal_value_N_to_string.
    unfold LLONG_MIN, LLONG_MAX in *.
    destruct (Z.ltb_spec (Z.of_N (N.pos p)) (-9223372036854775808));
      [simpl in *; lia |].
    destruct (Z.ltb_spec 9223372036854775807 (Z.of_N (N.pos p)));
      [simpl in *; lia |].
    cbn [orb length]. rewrite Nat.sub_0_r. reflexivity.
  - unfold Z_to_string, skip_isspace. cbn [span isspace].
    change (isspace 45) with false. cbn [snd read_sign].
    change (45 =? 45) with true. cbv iota.
    rewrite span_nil by apply N_to_string_digits.
    pose proof (N_to_string_nonempty (Npos p)) as Hn.
    destruct (N_to_string (Npos p)) as [| c r] eqn:E; [congruence |].
    rewrite <- E, decimal_value_N_to_string.
    unfold LLONG_MIN, LLONG_MAX in *.
    destruct (Z.ltb_spec (- Z.of_N (N.pos p)) (-9223372036854775808));
      [simpl in *; lia |].
    destruct (Z.ltb_spec 9223372036854775807 (- Z.of_N (N.pos p)));
      [simpl in *; lia |].
    cbn [orb length]. rewrite Nat.sub_0_r. reflexivity.
Qed.

(** ** Texts written by the serializer *)

Lemma word_char_facts c :
  word_char c = true ->
  is_delimiter c = false /\ mem c default_whitespace = false
  /\ (c <=? 1114111) = true /\ negb (c =? 0) = true /\ isspace c = false.
Proof.
  intros H. unfold word_char, isalnum, isdigit in H.
  assert (R : 48 <= c <= 57 \/ 65 <= c <= 90 \/ 97 <= c <= 122
              \/ c = 45 \/ c = 46).
  { repeat match type of H with
           | _ || _ = true => apply orb_true_iff in H as [H | H]
           end;
      repeat match goal with
             | H : _ && _ = true |- _ => apply andb_true_iff in H as [? ?]
             | H : (_ <=? _) = true |- _ => apply N.leb_le in H
             | H : (_ =? _) = true |- _ => apply N.eqb_eq in H
             end; lia. }
  unfold is_delimiter, mem, default_whitespace, isspace, EOF. simpl.
  repeat match goal with
         | |- context [?a =? ?b] => destruct (N.eqb_spec a b); try lia
         | |- context [?a <=? ?b] => destruct (N.leb_spec a b); try lia
         end.
  all: repeat split; reflexivity.
Qed.

Lemma isdigit_word_char c : isdigit c = true -> word_char c = true.
Proof. intros H. unfold word_char, isalnum. rewrite H. reflexivity. Qed.

Lemma forallb_impl (A : Type) (p q : A -> bool) l :
  (forall x, p x = true -> q x = true) ->
  forallb p l = true -> forallb q l = true.
Proof.
  intros Hpq. induction l as [| x l IH]; simpl; [reflexivity |].
  intros H. apply andb_true_iff in H as [H1 H2].
  rewrite (Hpq _ H1), (IH H2). reflexivity.
Qed.

Lemma token_loop_word f s : forall acc rest,
  forallb word_char s = true -> is_delimiter (peek rest) = true ->
  token_loop f acc (s ++ rest) = (acc ++ map f s, rest).
Proof.
  induction s as [| c s IH]; intros acc rest Hs Hr.
  - simpl. rewrite app_nil_r. destruct rest as [| r rest]; [reflexivity |].
    simpl in Hr |- *. rewrite token_loop_guard, Hr. reflexivity.
  - simpl in Hs. apply andb_true_iff in Hs as [Hc Hs].
    destruct (@word_char_facts _ Hc) as (Hd & _).
    simpl. rewrite token_loop_guard, Hd. simpl.
    rewrite (IH _ _ Hs Hr), <- app_assoc. reflexivity.
Qed.

Lemma find_first_not_of_head set c s :
  mem c set = false -> find_first_not_of set (c :: s) = Some 0%nat.
Proof. intros H. simpl. rewrite H. reflexivity. Qed.

Lemma find_last_not_of_all set s :
  s <> [] -> forallb (fun c => negb (mem c set)) s = true ->
  find_last_not_of set s = Some (List.length s - 1)%nat.
Proof.
  induction s as [| c s IH]; intros Hn H; [congruence |].
  simpl in H. apply andb_true_iff in H as [Hc Hs].
  apply negb_true_iff in Hc. simpl.
  destruct s as [| c' s'].
  - simpl. rewrite Hc. reflexivity.
  - rewrite IH by (congruence || exact Hs). simpl. rewrite Nat.sub_0_r.
    reflexivity.
Qed.

(** [trim] leaves a text without white space as it is. *)
Lemma trim_word s :
  forallb word_char s = true -> trim s = s.
Proof.
  intros H. destruct s as [| c s]; [reflexivity |].
  assert (Hw : forallb (fun c => negb (mem c default_whitespace)) (c :: s) = true).
  { eapply forallb_impl; [| exact H]. intros x Hx.
    destruct (@word_char_facts _ Hx) as (_ & Hm & _). rewrite Hm. reflexivity. }
  unfold trim. rewrite find_first_not_of_head.
  - rewrite find_last_not_of_all by (congruence || exact Hw).
    unfold substr. cbn [skipn].
    replace (List.length (c :: s) - 1 - 0 + 1)%nat with (List.length (c :: s))
      by (simpl; lia).
    apply firstn_all.
  - simpl in Hw. apply andb_true_iff in Hw as [Hc _].
    apply negb_true_iff in Hc. exact Hc.
Qed.

Lemma U32ToU8_word s : forallb word_char s = true -> U32ToU8 s = Ok s.
Proof.
  intros H. unfold U32ToU8.
  match goal with
  | |- (if ?b then _ else _) = _ => replace b with true; [reflexivity |]
  end.
  symmetry. eapply forallb_impl; [| exact H].
  intros x Hx. apply (@word_char_facts x Hx).
Qed.

(** [parse_number] on a scalar text followed by a delimiter. *)
Lemma parse_number_word s rest :
  forallb word_char s = true -> is_delimiter (peek rest) = true ->
  parse_number (s ++ rest)
  = if only_integer_chars s
    then n <- to_integer s ;; Ok (JInteger n, rest)
    else d <- to_double s ;; Ok (JDouble d, rest).
Proof.
  intros Hs Hr. rewrite parse_number_eqn, (token_loop_word _ _ [] _ Hs Hr).
  cbn [fst snd app]. rewrite map_id, (U32ToU8_word _ Hs). cbn [bind].
  rewrite (trim_word _ Hs). reflexivity.
Qed.

Lemma parse_value_space fuel c strm :
  negb (c =? EOF) && isspace c = true ->
  parse_value fuel (c :: strm) = parse_value fuel strm.
Proof.
  intros H. destruct fuel as [| fuel]; [reflexivity |].
  rewrite !parse_value_S. unfold peek_next_non_space. simpl. rewrite H.
  reflexivity.
Qed.

Lemma starts_value_facts c :
  starts_value c = true ->
  isspace c = false /\ (c =? EOF) = false /\ (c =? 93) = false
  /\ (c =? 44) = false /\ (c =? 125) = false.
Proof.
  intros H. unfold starts_value, isdigit in H.
  assert (R : c = 34 \/ c = 91 \/ 48 <= c <= 57 \/ c = 45 \/ c = 46
              \/ c = 123 \/ c = 84 \/ c = 116 \/ c = 70 \/ c = 102
              \/ c = 110 \/ c = 78).
  { repeat match type of H with
           | _ || _ = true => apply orb_true_iff in H as [H | H]
           end;
      repeat match goal with
             | H : _ && _ = true |- _ => apply andb_true_iff in H as [? ?]
             | H : (_ <=? _) = true |- _ => apply N.leb_le in H
             | H : (_ =? _) = true |- _ => apply N.eqb_eq in H
             end; lia. }
  unfold isspace, EOF.
  repeat match goal with
         | |- context [?a =? ?b] => destruct (N.eqb_spec a b); try lia
         | |- context [?a <=? ?b] => destruct (N.leb_spec a b); try lia
         end.
  all: repeat split; reflexivity.
Qed.

Lemma plain_char_facts c :
  plain_char c = true ->
  (c =? EOF) = false /\ (c =? 34) = false /\ (c =? 92) = false
  /\ (c <=? 1114111) = true /\ negb (c =? 0) = true.
Proof.
  unfold plain_char, iscntrl, EOF. intros H.
  apply andb_true_iff in H as [H HD]. apply andb_true_iff in H as [H HC].
  apply andb_true_iff in H as [HA HB].
  apply negb_true_iff in HA, HB, HC. apply orb_false_iff in HC as [HC _].
  apply N.leb_le in HD. apply N.ltb_ge in HC.
  rewrite HA, HB.
  destruct (N.eqb_spec c 4294967295); [lia |].
  destruct (N.eqb_spec c 0); [lia |].
  destruct (N.leb_spec c 1114111); [| lia].
  repeat split; reflexivity.
Qed.

Lemma plain_string_no_nul s :
  plain_string s = true -> forallb (fun c => negb (c =? 0)) s = true.
Proof.
  apply forallb_impl. intros x Hx. apply (@plain_char_facts x Hx).
Qed.

Lemma quoted_loop_plain p : forall fuel acc tail,
  plain_string p = true -> (List.length p <= fuel)%nat ->
  quoted_loop fuel acc (p ++ 34 :: tail) = Ok (acc ++ p, 34 :: tail).
Proof.
  induction p as [| c p IH]; intros fuel acc tail Hp Hf.
  - rewrite app_nil_r. destruct fuel; reflexivity.
  - simpl in Hp. apply andb_true_iff in Hp as [Hc Hp].
    destruct (@plain_char_facts c Hc) as (H1 & H2 & H3 & _).
    destruct fuel as [| fuel]; [simpl in Hf; lia |].
    cbn [quoted_loop app peek get]. rewrite H1, H2, H3. cbn [negb andb].
    rewrite IH by (try exact Hp; simpl in Hf; lia).
    rewrite <- app_assoc. reflexivity.
Qed.

Lemma U32ToU8_plain p : plain_string p = true -> U32ToU8 p = Ok p.
Proof.
  intros H. unfold U32ToU8.
  match goal with
  | |- (if ?b then _ else _) = _ => replace b with true; [reflexivity |]
  end.
  symmetry. eapply forallb_impl; [| exact H].
  intros x Hx. apply (@plain_char_facts x Hx).
Qed.

Lemma skip_char_quote tail : skip_char (34 :: tail) 34 = Ok tail.
Proof. apply skip_char_head; [discriminate | reflexivity]. Qed.

(** A quoted plain string is read back as it is. *)
Lemma parse_string_plain p tail :
  plain_string p = true ->
  parse_string (34 :: p ++ 34 :: tail) = Ok (JString p, tail).
Proof.
  intros H. unfold parse_string. rewrite skip_char_quote. cbn [bind].
  rewrite quoted_loop_plain by (try exact H; rewrite length_app; lia).
  cbn [bind app]. rewrite skip_char_quote. cbn [bind].
  rewrite (U32ToU8_plain _ H). reflexivity.
Qed.

Lemma parse_member_plain p tail :
  plain_string p = true ->
  parse_member (34 :: p ++ 34 :: tail) = Ok (p, tail).
Proof.
  intros H. unfold parse_member. rewrite skip_char_quote. cbn [bind].
  rewrite quoted_loop_plain by (try exact H; rewrite length_app; lia).
  cbn [bind app]. rewrite skip_char_quote. cbn [bind].
  rewrite (U32ToU8_plain _ H). reflexivity.
Qed.

(** The dispatch of [parse_value] on the first code point of a text. *)
Lemma parse_value_number fuel c strm :
  isdigit c || (c =? 45) || (c =? 46) = true ->
  parse_value (S fuel) (c :: strm) = parse_number (c :: strm).
Proof.
  intros H. rewrite parse_value_S. unfold peek_next_non_space.
  assert (Hs : starts_value c = true).
  { unfold starts_value.
    apply orb_true_iff in H as [H | H];
      [apply orb_true_iff in H as [H | H] |]; rewrite H;
      repeat rewrite orb_true_r; reflexivity. }
  destruct (starts_value_facts _ Hs) as (Hsp & He & _).
  rewrite skip_space_head by (rewrite Hsp; apply andb_false_r).
  cbn [peek]. rewrite H.
  assert (R : 45 <= c <= 57).
  { unfold isdigit in H.
    apply orb_true_iff in H as [H | H];
      [apply orb_true_iff in H as [H | H] |].
    - apply andb_true_iff in H as [H1 H2]. apply N.leb_le in H1, H2. lia.
    - apply N.eqb_eq in H. lia.
    - apply N.eqb_eq in H. lia. }
  destruct (N.eqb_spec c 34); [lia |].
  destruct (N.eqb_spec c 91); [lia |]. reflexivity.
Qed.

Lemma only_integer_chars_point a b : only_integer_chars (a ++ 46 :: b) = false.
Proof.
  unfold only_integer_chars. induction a as [| c a IH]; cbn [app forallb].
  - reflexivity.
  - rewrite IH. apply andb_false_r.
Qed.

Lemma spec_float_eqb_eq a b : spec_float_eqb a b = true -> a = b.
Proof.
  destruct a, b; simpl; try discriminate.
  - intros H. apply Bool.eqb_prop in H. congruence.
  - intros H. apply andb_true_iff in H as [H He].
    apply andb_true_iff in H as [Hs Hm].
    apply Bool.eqb_prop in Hs. apply Pos.eqb_eq in Hm. apply Z.eqb_eq in He.
    congruence.
Qed.

Lemma zero_pad_digits w s :
  forallb isdigit s = true -> forallb isdigit (zero_pad w s) = true.
Proof.
  intros H. unfold zero_pad. rewrite forallb_app, H, andb_true_r.
  induction (w - List.length s)%nat; simpl; auto.
Qed.

(** The text of a finite double: an optional minus, digits, a point and
    digits. *)
Lemma double_to_string_shape d :
  double_survives d = true ->
  stod (double_to_string d) = Ok (d, List.length (double_to_string d))
  /\ forallb word_char (double_to_string d) = true
  /\ only_integer_chars (double_to_string d) = false
  /\ exists c s, double_to_string d = c :: s
                 /\ isdigit c || (c =? 45) || (c =? 46) = true.
Proof.
  intros H. unfold double_survives in H.
  destruct (stod (double_to_string d)) as [[d' pos] | |] eqn:E;
    try discriminate.
  apply andb_true_iff in H as [H1 H2]. pose proof H1 as Hfin.
  apply spec_float_eqb_eq in H1. subst d'. apply Nat.eqb_eq in H2. subst pos.
  split; [reflexivity |]. clear E.
  assert (Hsign : forall s : bool,
             forallb word_char (if s then [45] else []) = true).
  { intros []; reflexivity. }
  assert (Hdig : forall n, forallb word_char (N_to_string n) = true).
  { intros n. eapply forallb_impl; [| apply N_to_string_digits].
    apply isdigit_word_char. }
  destruct d as [s | s | | s m e]; try discriminate.
  - split; [destruct s; reflexivity |].
    split; [destruct s; reflexivity |].
    destruct s; eexists; eexists; split; reflexivity.
  - unfold double_to_string.
    set (scaled := if (0 <=? e)%Z then _ else _).
    split; [| split].
    + rewrite !forallb_app, Hsign, Hdig. cbn [forallb andb].
      change (word_char 46) with true. cbn [andb].
      eapply forallb_impl; [apply isdigit_word_char |].
      apply zero_pad_digits, N_to_string_digits.
    + destruct s.
      * apply (only_integer_chars_point
                 ([45] ++ N_to_string (Z.to_N (scaled / 1000000)))).
      * apply (only_integer_chars_point
                 (N_to_string (Z.to_N (scaled / 1000000)))).
    + destruct s.
      * eexists; eexists; split; reflexivity.
      * pose proof (N_to_string_digits (Z.to_N (scaled / 1000000))) as Hd.
        pose proof (N_to_string_nonempty (Z.to_N (scaled / 1000000))) as Hn.
        destruct (N_to_string (Z.to_N (scaled / 1000000))) as [| c r];
          [congruence |].
        simpl in Hd. apply andb_true_iff in Hd as [Hc _].
        exists c. eexists. split; [reflexivity |]. rewrite Hc. reflexivity.
Qed.

(** ** The round trip *)

Lemma word_no_nul s :
  forallb word_char s = true -> forallb (fun c => negb (c =? 0)) s = true.
Proof.
  apply forallb_impl. intros x Hx. apply (@word_char_facts x Hx).
Qed.

Lemma reads_back_string p : plain_string p = true -> reads_back (JString p).
Proof.
  intros H. exists ([34] ++ p ++ [34]). split; [reflexivity |]. split.
  - split; [exists 34, (p ++ [34]); split; reflexivity |].
    simpl. rewrite forallb_app, (@plain_string_no_nul _ H). reflexivity.
  - intros fuel rest Hf _. destruct fuel as [| fuel]; [lia |].
    rewrite parse_value_S. unfold peek_next_non_space.
    cbn [app]. rewrite skip_space_head by reflexivity. cbn [peek].
    change (34 =? 34) with true. cbv iota.
    rewrite <- app_assoc. apply parse_string_plain, H.
Qed.

Lemma Z_to_string_word z : forallb word_char (Z_to_string z) = true.
Proof.
  assert (Hdig : forall n, forallb word_char (N_to_string n) = true).
  { intros n. eapply forallb_impl; [| apply N_to_string_digits].
    apply isdigit_word_char. }
  destruct z; simpl; [reflexivity | apply Hdig |].
  change (word_char 45) with true. apply (Hdig (Npos p)).
Qed.

Lemma Z_to_string_integer_chars z : only_integer_chars (Z_to_string z) = true.
Proof.
  assert (Hdig : forall n, only_integer_chars (N_to_string n) = true).
  { intros n. unfold only_integer_chars.
    eapply forallb_impl; [| apply N_to_string_digits].
    intros c Hc. unfold isdigit in Hc.
    apply andb_true_iff in Hc as [H1 H2]. apply N.leb_le in H1, H2.
    assert (E : c = 48 \/ c = 49 \/ c = 50 \/ c = 51 \/ c = 52 \/ c = 53
                \/ c = 54 \/ c = 55 \/ c = 56 \/ c = 57) by lia.
    repeat destruct E as [-> | E]; try reflexivity. subst; reflexivity. }
  destruct z; [reflexivity | apply Hdig |].
  unfold Z_to_string, only_integer_chars. cbn [forallb].
  change (mem 45 integer_chars) with true. apply (Hdig (Npos p)).
Qed.

Lemma Z_to_string_head z :
  exists c s, Z_to_string z = c :: s /\ isdigit c || (c =? 45) || (c =? 46) = true.
Proof.
  destruct z as [| p | p].
  - eexists; eexists; split; reflexivity.
  - pose proof (N_to_string_digits (Npos p)) as Hd.
    pose proof (N_to_string_nonempty (Npos p)) as Hn.
    unfold Z_to_string.
    destruct (N_to_string (Npos p)) as [| c r]; [congruence |].
    simpl in Hd. apply andb_true_iff in Hd as [Hc _].
    exists c, r. split; [reflexivity |]. rewrite Hc. reflexivity.
  - eexists; eexists; split; reflexivity.
Qed.

Lemma number_head_starts_value c :
  isdigit c || (c =? 45) || (c =? 46) = true -> starts_value c = true.
Proof.
  intros H. unfold starts_value.
  apply orb_true_iff in H as [H | H];
    [apply orb_true_iff in H as [H | H] |]; rewrite H;
    repeat rewrite orb_true_r; reflexivity.
Qed.

Lemma reads_back_integer n :
  (LLONG_MIN <= n <= LLONG_MAX)%Z -> reads_back (JInteger n).
Proof.
  intros Hr. exists (Z_to_string n). split; [reflexivity |].
  destruct (Z_to_string_head n) as (c & s & E & Hc).
  split.
  - split; [| apply word_no_nul, Z_to_string_word].
    exists c, s. split; [exact E | apply number_head_starts_value, Hc].
  - intros fuel rest Hf Hd. destruct fuel as [| fuel]; [lia |].
    rewrite E. cbn [app]. rewrite parse_value_number by exact Hc.
    change (c :: s ++ rest) with ((c :: s) ++ rest). rewrite <- E.
    rewrite parse_number_word by (try apply Z_to_string_word; exact Hd).
    rewrite Z_to_string_integer_chars. unfold to_integer.
    rewrite (@stoll_Z_to_string _ Hr). cbn [bind]. rewrite Nat.eqb_refl.
    reflexivity.
Qed.

Lemma reads_back_double d : double_survives d = true -> reads_back (JDouble d).
Proof.
  intros H. destruct (@double_to_string_shape _ H) as (Hs & Hw & Hi & c & s & E & Hc).
  exists (double_to_string d). split; [reflexivity |]. split.
  - split; [| apply word_no_nul, Hw].
    exists c, s. split; [exact E | apply number_head_starts_value, Hc].
  - intros fuel rest Hf Hd. destruct fuel as [| fuel]; [lia |].
    rewrite E. cbn [app]. rewrite parse_value_number by exact Hc.
    change (c :: s ++ rest) with ((c :: s) ++ rest). rewrite <- E.
    rewrite parse_number_word by (try exact Hw; exact Hd).
    rewrite Hi. unfold to_double. rewrite Hs. cbn [bind].
    rewrite Nat.eqb_refl. reflexivity.
Qed.

Lemma parse_bool_word s rest :
  forallb word_char s = true -> is_delimiter (peek rest) = true ->
  parse_bool (s ++ rest)
  = (u8 <- U32ToU8 (map tolower s) ;;
     val_bool <- to_bool (trim u8) ;;
     Ok (JBoolean val_bool, rest)).
Proof.
  intros Hs Hr. unfold parse_bool.
  rewrite (token_loop_word tolower s [] rest Hs Hr). reflexivity.
Qed.

Lemma parse_null_word s rest :
  forallb word_char s = true -> is_delimiter (peek rest) = true ->
  parse_null (s ++ rest)
  = (u8 <- U32ToU8 (map tolower s) ;;
     if string_eqb (trim u8) (U "null") then Ok (JNull, rest)
     else Throw (runtime_error (U "unexpected null string"))).
Proof.
  intros Hs Hr. unfold parse_null.
  rewrite (token_loop_word tolower s [] rest Hs Hr). reflexivity.
Qed.

Lemma reads_back_boolean b : reads_back (JBoolean b).
Proof.
  exists (if b then U "true" else U "false").
  split; [destruct b; reflexivity |]. split.
  - split; [| destruct b; reflexivity].
    destruct b; eexists; eexists; split; reflexivity.
  - intros fuel rest Hf Hd. destruct fuel as [| fuel]; [lia |].
    rewrite parse_value_S. destruct b.
    + change (parse_bool (U "true" ++ rest) = Ok (JBoolean true, rest)).
      rewrite parse_bool_word by (reflexivity || exact Hd). reflexivity.
    + change (parse_bool (U "false" ++ rest) = Ok (JBoolean false, rest)).
      rewrite parse_bool_word by (reflexivity || exact Hd). reflexivity.
Qed.

Lemma reads_back_null : reads_back JNull.
Proof.
  exists (U "null"). split; [reflexivity |]. split.
  - split; [eexists; eexists; split; reflexivity | reflexivity].
  - intros fuel rest Hf Hd. destruct fuel as [| fuel]; [lia |].
    rewrite parse_value_S.
    change (parse_null (U "null" ++ rest) = Ok (JNull, rest)).
    rewrite parse_null_word by (reflexivity || exact Hd). reflexivity.
Qed.

Lemma is_delimiter_44 rest : is_delimiter (peek (44 :: rest)) = true.
Proof. reflexivity. Qed.

Lemma is_delimiter_93 rest : is_delimiter (peek (93 :: rest)) = true.
Proof. reflexivity. Qed.

Lemma is_delimiter_125 rest : is_delimiter (peek (125 :: rest)) = true.
Proof. reflexivity. Qed.

(** The loop of [parse_array] reads a non-empty list of elements back from
    their texts joined by commas. *)
Lemma array_loop_reads_back l :
  Forall reads_back l -> forallb no_invalid l = true ->
  exists body,
    array_elements_to_string to_string l = Ok body
    /\ forallb (fun c => negb (c =? 0)) body = true
    /\ (l <> [] -> exists c0 s', body = c0 :: s' /\ starts_value c0 = true)
    /\ (l <> [] -> forall fuel acc rest,
          (3 * List.length body + 4 <= fuel)%nat ->
          parse_array_loop fuel acc (body ++ 93 :: rest)
          = Ok (acc ++ l, 93 :: rest)).
Proof.
  induction 1 as [| e l He Hl IH]; intros Hn.
  - exists []. repeat split; try reflexivity; intros; congruence.
  - simpl in Hn. apply andb_true_iff in Hn as [Hne Hnl].
    destruct He as (se & Hse & [(c0 & s0 & Ec0 & Hc0) Hnul] & Hparse).
    destruct (IH Hnl) as (body' & Hb' & Hnul' & Hhead' & Hloop').
    cbn [array_elements_to_string]. rewrite Hse, Hb'. cbn [bind].
    rewrite (c_str_no_nul _ Hnul).
    eexists. split; [reflexivity |]. split; [| split].
    + rewrite !forallb_app, Hnul, Hnul'. destruct l; reflexivity.
    + intros _. exists c0, (s0 ++ (match l with [] => [] | _ :: _ => [44] end)
                                ++ body').
      split; [rewrite Ec0; reflexivity | exact Hc0].
    + intros _ fuel acc rest Hf.
      destruct fuel as [| fuel]; [lia |].
      rewrite parse_array_loop_S.
      rewrite !length_app in Hf.
      destruct l as [| e2 l2].
      * (* the last element *)
        simpl in Hb'. injection Hb' as <-. cbn [app]. rewrite app_nil_r.
        rewrite Hparse by (try apply is_delimiter_93; simpl in Hf; lia).
        cbn [bind]. rewrite (copy_no_invalid _ Hne). cbn [bind].
        reflexivity.
      * rewrite <- !app_assoc. cbn [app].
        rewrite Hparse by (try apply is_delimiter_44; simpl in Hf; lia).
        cbn [bind]. rewrite (copy_no_invalid _ Hne). cbn [bind].
        unfold peek_next_non_space.
        rewrite skip_space_head by reflexivity. cbn [peek].
        change (44 =? 44) with true. cbv iota.
        rewrite skip_char_head by (discriminate || reflexivity). cbn [bind].
        rewrite Hloop' by (try discriminate; simpl in Hf; lia).
        rewrite <- app_assoc. reflexivity.
Qed.

Lemma keys_sorted_app_below (T : Type) (acc : list (std_string * T)) k v m :
  keys_sorted (acc ++ (k, v) :: m) = true ->
  Forall (fun kv => string_lt (fst kv) k = true) acc.
Proof.
  induction acc as [| [k0 v0] acc IH]; intros H; [constructor |].
  change (((k0, v0) :: acc) ++ (k, v) :: m)
    with ((k0, v0) :: (acc ++ (k, v) :: m)) in H.
  apply keys_sorted_cons in H as [Ha Hs].
  constructor; [| apply IH, Hs].
  unfold keys_above in Ha. apply Forall_app in Ha as [_ Ha].
  inversion Ha; subst. assumption.
Qed.

Lemma map_assign_last (T : Type) k (v : T) acc :
  Forall (fun kv => string_lt (fst kv) k = true) acc ->
  map_assign k v acc = acc ++ [(k, v)].
Proof.
  induction 1 as [| [k0 v0] acc H _ IH]; simpl; [reflexivity |].
  simpl in H. rewrite (@string_lt_asym _ _ H), H, IH. reflexivity.
Qed.

(** Assigning the members of a list in key order, one after the other,
    rebuilds the list. *)
Lemma assign_all_sorted m : forall acc,
  keys_sorted (acc ++ m) = true -> assign_all m acc = acc ++ m.
Proof.
  induction m as [| [k v] m IH]; intros acc H.
  - simpl. rewrite app_nil_r. reflexivity.
  - unfold assign_all. cbn [fold_left fst snd].
    rewrite (@map_assign_last _ k v acc (@keys_sorted_app_below _ acc k v m H)).
    fold (assign_all m (acc ++ [(k, v)])).
    rewrite IH; rewrite <- app_assoc; [reflexivity | exact H].
Qed.

(** The loop of [parse_object] reads the members back from their texts. *)
Lemma object_loop_reads_back m :
  Forall (fun kv => reads_back (snd kv)) m ->
  forallb (fun kv => plain_string (fst kv)) m = true ->
  forallb (fun kv => no_invalid (snd kv)) m = true ->
  exists body,
    object_members_to_string to_string m = Ok body
    /\ forallb (fun c => negb (c =? 0)) body = true
    /\ forall fuel acc rest,
        (3 * List.length body + 1 <= fuel)%nat ->
        parse_object_loop fuel (JObject acc) (body ++ 125 :: rest)
        = Ok (JObject (assign_all m acc), 125 :: rest).
Proof.
  induction 1 as [| [k v] m Hv Hm IH]; intros Hp Hn.
  - exists []. split; [reflexivity |]. split; [reflexivity |].
    intros fuel acc rest Hf. destruct fuel as [| fuel]; [simpl in Hf; lia |].
    rewrite parse_object_loop_eqn. reflexivity.
  - simpl in Hp, Hn, Hv.
    apply andb_true_iff in Hp as [Hpk Hpm].
    apply andb_true_iff in Hn as [Hnv Hnm].
    destruct Hv as (sv & Hsv & [(c0 & s0 & Ec0 & Hc0) Hnul] & Hparse).
    destruct (IH Hpm Hnm) as (body' & Hb' & Hnul' & Hloop').
    cbn [object_members_to_string]. rewrite Hsv, Hb'. cbn [bind].
    rewrite (c_str_no_nul _ Hnul), (c_str_no_nul _ (plain_string_no_nul _ Hpk)).
    eexists. split; [reflexivity |]. split.
    + rewrite !forallb_app, Hnul, Hnul', (plain_string_no_nul _ Hpk).
      destruct m; reflexivity.
    + intros fuel acc rest Hf.
      destruct fuel as [| fuel]; [lia |].
      rewrite parse_object_loop_eqn.
      rewrite <- !app_assoc. cbn [app U map list_ascii_of_string].
      unfold peek_next_non_space.
      rewrite skip_space_head by reflexivity. cbn [peek].
      change (negb (34 =? EOF)) with true. change (34 =? 34) with true.
      cbv iota.
      rewrite (parse_member_plain _ _ Hpk). cbn [bind].
      change (skip_char (N_of_ascii " " :: N_of_ascii ":" :: N_of_ascii " "
                           :: sv ++ (match m with [] => [] | _ :: _ => [44] end)
                                ++ body' ++ 125 :: rest) 58)
        with (Ok (32 :: sv ++ (match m with [] => [] | _ :: _ => [44] end)
                         ++ body' ++ 125 :: rest)).
      cbn [bind].
      rewrite parse_value_space by reflexivity.
      rewrite !length_app in Hf. simpl in Hf.
      destruct m as [| kv2 m2].
      * simpl in Hb'. injection Hb' as <-. cbn [app].
        rewrite Hparse by (try apply is_delimiter_125; lia).
        cbn [bind]. rewrite (@add_member_object _ _ _ Hnv). cbn [bind].
        specialize (Hloop' fuel (map_assign k v acc) rest).
        cbn [app] in Hloop'. rewrite Hloop' by (simpl; lia).
        reflexivity.
      * cbn [app].
        rewrite Hparse by (try apply is_delimiter_44; lia).
        cbn [bind]. rewrite (@add_member_object _ _ _ Hnv). cbn [bind].
        destruct fuel as [| fuel]; [lia |].
        rewrite parse_object_loop_eqn. unfold peek_next_non_space.
        rewrite skip_space_head by reflexivity. cbn [peek].
        change (negb (44 =? EOF)) with true. change (44 =? 34) with false.
        change (44 =? 125) with false. change (44 =? 44) with true.
        cbv iota. unfold get_next_non_space.
        rewrite skip_space_head by reflexivity. cbn [get].
        rewrite Hloop' by lia. reflexivity.
Qed.

Lemma round_trips_parts v :
  round_trips v = true ->
  no_invalid v = true /\ objects_sorted v = true /\ integers_in_range v = true
  /\ doubles_survive v = true /\ plain_strings v = true.
Proof.
  unfold round_trips. intros H.
  repeat (apply andb_true_iff in H as [H ?]). repeat split; assumption.
Qed.

Lemma round_trips_intro v :
  no_invalid v = true -> objects_sorted v = true ->
  integers_in_range v = true -> doubles_survive v = true ->
  plain_strings v = true -> round_trips v = true.
Proof.
  unfold round_trips. intros -> -> -> -> ->. reflexivity.
Qed.

Lemma forallb_Forall (A : Type) (p : A -> bool) l :
  forallb p l = true <-> Forall (fun x => p x = true) l.
Proof. rewrite forallb_forall, Forall_forall. reflexivity. Qed.

(** Every tree of the round trip is read back from its text. *)
Lemma round_trip_value v : round_trips v = true -> reads_back v.
Proof.
  induction v as [s | n | d | l IH | b | m IH | |] using json_ind';
    intros H; apply round_trips_parts in H as (Hn & Hs & Hi & Hd & Hp).
  - apply reads_back_string, Hp.
  - apply reads_back_integer. simpl in Hi.
    apply andb_true_iff in Hi as [H1 H2].
    apply Z.leb_le in H1. apply Z.leb_le in H2. lia.
  - apply reads_back_double, Hd.
  - (* arrays *)
    simpl in Hn, Hs, Hi, Hd, Hp.
    assert (Hall : Forall reads_back l).
    { apply forallb_Forall in Hn, Hs, Hi, Hd, Hp.
      rewrite Forall_forall in *. intros x Hx.
      apply (IH x Hx). apply round_trips_intro; auto. }
    destruct (array_loop_reads_back Hall Hn)
      as (body & Hb & Hnul & Hhead & Hloop).
    exists ([91] ++ body ++ [93]). split; [| split].
    + rewrite to_string_array, (copy_array_no_invalid _ Hn). cbn [bind].
      rewrite Hb. reflexivity.
    + split; [exists 91, (body ++ [93]); split; reflexivity |].
      cbn [app forallb]. rewrite forallb_app, Hnul. reflexivity.
    + intros fuel rest Hf _.
      rewrite !length_app in Hf. simpl in Hf.
      destruct fuel as [| fuel]; [lia |].
      rewrite parse_value_S. rewrite <- !app_assoc. cbn [app].
      unfold peek_next_non_space.
      rewrite skip_space_head by reflexivity. cbn [peek].
      change (91 =? 34) with false. change (91 =? 91) with true. cbv iota.
      destruct fuel as [| fuel]; [lia |].
      rewrite parse_array_S.
      rewrite skip_char_head by (discriminate || reflexivity). cbn [bind].
      unfold peek_next_non_space.
      destruct l as [| e l'].
      * simpl in Hb. injection Hb as <-. reflexivity.
      * destruct Hhead as (c0 & s0 & -> & Hc0); [discriminate |].
        destruct (starts_value_facts _ Hc0) as (Hsp & _ & H93 & _).
        cbn [app]. rewrite skip_space_head by (rewrite Hsp; apply andb_false_r).
        cbn [peek]. rewrite H93.
        change (c0 :: s0 ++ 93 :: rest) with ((c0 :: s0) ++ 93 :: rest).
        rewrite Hloop by (try discriminate; simpl in *; lia).
        cbn [bind app].
        rewrite skip_char_head by (discriminate || reflexivity). cbn [bind].
        rewrite (copy_array_no_invalid _ Hn). reflexivity.
  - apply reads_back_boolean.
  - (* objects *)
    simpl in Hn, Hs, Hi, Hd, Hp.
    apply andb_true_iff in Hs as [Hks Hs].
    assert (Hkeys : forallb (fun kv => plain_string (fst kv)) m = true).
    { eapply forallb_impl; [| exact Hp]. intros x Hx.
      apply andb_true_iff in Hx as [Hx _]. exact Hx. }
    assert (Hall : Forall (fun kv => reads_back (snd kv)) m).
    { apply forallb_Forall in Hn, Hs, Hi, Hd, Hp.
      rewrite Forall_forall in *. intros x Hx.
      apply (IH x Hx). apply round_trips_intro; auto.
      specialize (Hp x Hx). apply andb_true_iff in Hp as [_ Hp]. exact Hp. }
    destruct (object_loop_reads_back Hall Hkeys Hn) as (body & Hb & Hnul & Hloop).
    exists ([123] ++ body ++ [125]). split; [| split].
    + rewrite to_string_object, (copy_object_no_invalid _ Hn). cbn [bind].
      rewrite Hb. reflexivity.
    + split; [exists 123, (body ++ [125]); split; reflexivity |].
      cbn [app forallb]. rewrite forallb_app, Hnul. reflexivity.
    + intros fuel rest Hf _.
      rewrite !length_app in Hf. simpl in Hf.
      destruct fuel as [| fuel]; [lia |].
      rewrite parse_value_S. rewrite <- !app_assoc. cbn [app].
      unfold peek_next_non_space.
      rewrite skip_space_head by reflexivity. cbn [peek].
      change (123 =? 34) with false. change (123 =? 91) with false.
      change (isdigit 123 || (123 =? 45) || (123 =? 46)) with false.
      change (123 =? 123) with true. cbv iota.
      destruct fuel as [| fuel]; [lia |].
      rewrite parse_object_S.
      rewrite skip_char_head by (discriminate || reflexivity). cbn [bind].
      rewrite Hloop by lia. cbn [bind].
      rewrite skip_char_head by (discriminate || reflexivity). cbn [bind].
      rewrite (assign_all_sorted m [] Hks). reflexivity.
  - apply reads_back_null.
  - discriminate.
Qed.

(** [operator==] holds between a tree of the round trip and itself. *)
Lemma SFeqb_refl_survives d : double_survives d = true -> SFeqb d d = true.
Proof.
  intros H. unfold double_survives in H.
  destruct (stod (double_to_string d)) as [[d' pos] | |]; try discriminate.
  apply andb_true_iff in H as [H _].
  destruct d as [s | s | | s m e]; try discriminate.
  - reflexivity.
  - unfold SFeqb, SFcompare.
    destruct s; rewrite Z.compare_refl, Pos.compare_cont_refl; reflexivity.
Qed.

Lemma json_eq_refl v :
  no_invalid v = true -> doubles_survive v = true -> json_eq v v = true.
Proof.
  induction v as [s | n | d | l IH | b | m IH | |] using json_ind';
    intros Hn Hd; simpl.
  - apply string_eqb_refl.
  - apply Z.eqb_refl.
  - apply SFeqb_refl_survives, Hd.
  - simpl in Hn, Hd. induction IH as [| x r Hx _ IHr]; [reflexivity |].
    simpl in Hn, Hd. apply andb_true_iff in Hn as [Hn1 Hn2].
    apply andb_true_iff in Hd as [Hd1 Hd2].
    simpl. rewrite (Hx Hn1 Hd1), (IHr Hn2 Hd2). reflexivity.
  - destruct b; reflexivity.
  - simpl in Hn, Hd. induction IH as [| [k x] r Hx _ IHr]; [reflexivity |].
    simpl in Hn, Hd, Hx. apply andb_true_iff in Hn as [Hn1 Hn2].
    apply andb_true_iff in Hd as [Hd1 Hd2].
    simpl. rewrite string_eqb_refl, (Hx Hn1 Hd1), (IHr Hn2 Hd2). reflexivity.
  - reflexivity.
  - discriminate.
Qed.

(** A scalar root is not read back, and a double loses digits in its
    six-decimal text: 0.1234567 comes back as 0.123457. *)
Lemma C4_counterexample :
  plain_strings (JInteger 5) = true
  /\ (s <- to_string (JInteger 5) ;; parse s)
     = Throw (runtime_error (U "invalid json format"))
  /\ plain_strings (JString (U "a")) = true
  /\ (s <- to_string (JString (U "a")) ;; parse s)
     = Throw (runtime_error (U "invalid json format"))
  /\ stod (U "0.1234567") = Ok (S754_finite false 8895992769862258 (-56), 9%nat)
  /\ plain_strings (JArray [JDouble (S754_finite false 8895992769862258 (-56))])
     = true
  /\ to_string (JArray [JDouble (S754_finite false 8895992769862258 (-56))])
     = Ok (U "[0.123457]")
  /\ parse (U "[0.123457]")
     = Ok (JArray [JDouble (S754_finite false 8896014387140469 (-56))])
  /\ json_eq (JArray [JDouble (S754_finite false 8896014387140469 (-56))])
             (JArray [JDouble (S754_finite false 8895992769862258 (-56))])
     = false.
Proof. repeat split; vm_compute; reflexivity. Qed.

(** C4, amended.  For every value tree whose root is an object or an array,
    whose string payloads and keys are valid text with no double quote, no
    backslash and no control character, and whose doubles are finite and
    equal to the value read from their own six-decimal text, [to_string]
    returns a text and [parse] of that text returns the tree itself, which
    [operator==] finds equal to it.  (The tree is a value as the class holds
    it: no invalid node, members in key order, 64-bit integers.) *)
Theorem C4_round_trip :
  forall v : json,
    is_container v = true ->
    round_trips v = true ->
    exists s,
      to_string v = Ok s
      /\ parse s = Ok v
      /\ (r <- parse s ;; Ok (json_eq r v)) = Ok true.
Proof.
  intros v Hc Hr.
  destruct (round_trip_value v Hr) as (s & Hs & _ & Hparse).
  destruct (round_trips_parts _ Hr) as (Hn & _ & _ & Hd & _).
  exists s. split; [exact Hs |].
  assert (Hp : parse s = Ok v).
  { specialize (Hparse (S (fuel_for s)) []). rewrite app_nil_r in Hparse.
    assert (Hv : parse_value (S (fuel_for s)) s = Ok (v, [])).
    { apply Hparse; [unfold fuel_for; lia | reflexivity]. }
    clear Hparse. rewrite parse_value_S in Hv.
    unfold parse. unfold peek_next_non_space in *.
    destruct v as [| | | l | | m | |]; try discriminate.
    - rewrite to_string_array in Hs. inv_bind Hs. inv_bind Hs.
      injection Hs as <-. cbn [app] in *.
      rewrite skip_space_head in * by reflexivity. cbn [peek] in *.
      change (91 =? 34) with false in Hv. change (91 =? 91) with true in *.
      change (91 =? 123) with false. cbv iota in *.
      rewrite Hv. reflexivity.
    - rewrite to_string_object in Hs. inv_bind Hs. inv_bind Hs.
      injection Hs as <-. cbn [app] in *.
      rewrite skip_space_head in * by reflexivity. cbn [peek] in *.
      change (123 =? 34) with false in Hv. change (123 =? 91) with false in Hv.
      change (isdigit 123 || (123 =? 45) || (123 =? 46)) with false in Hv.
      change (123 =? 123) with true in *. cbv iota in *.
      rewrite Hv. reflexivity. }
  split; [exact Hp |].
  rewrite Hp. cbn [bind]. rewrite (json_eq_refl _ Hn Hd). reflexivity.
Qed.

Lemma C4_round_trip_witness :
  exists s,
    to_string (JObject [(U "a", JArray [JInteger (-3); JDouble (S754_finite false 4503599627370496 (-53));
                                        JString (U "x y"); JNull]);
                        (U "b", JObject [(U "k", JBoolean true)])]) = Ok s
    /\ parse s
       = Ok (JObject [(U "a", JArray [JInteger (-3); JDouble (S754_finite false 4503599627370496 (-53));
                                      JString (U "x y"); JNull]);
                      (U "b", JObject [(U "k", JBoolean true)])])
    /\ (r <- parse s ;;
        Ok (json_eq r
              (JObject [(U "a", JArray [JInteger (-3); JDouble (S754_finite false 4503599627370496 (-53));
                                        JString (U "x y"); JNull]);
                        (U "b", JObject [(U "k", JBoolean true)])])))
       = Ok true.
Proof.
  apply C4_round_trip; vm_compute; reflexivity.
Defined.

(** * Further properties *)

(** ** White space *)

Lemma find_last_not_of_none set l :
  find_last_not_of set l = None -> all_in set l = true.
Proof.
  unfold all_in. induction l as [| x l IH]; simpl; [reflexivity |].
  destruct (find_last_not_of set l); [discriminate |].
  destruct (mem x set); [intros _; apply IH; reflexivity | discriminate].
Qed.

Lemma find_last_not_of_split set l : forall j,
  find_last_not_of set l = Some j ->
  exists p c b, l = p ++ c :: b /\ List.length p = j
                /\ mem c set = false /\ all_in set b = true.
Proof.
  induction l as [| x l IH]; simpl; intros j H; [discriminate |].
  destruct (find_last_not_of set l) as [i |] eqn:E.
  - injection H as <-.
    destruct (IH i eq_refl) as (p & c & b & -> & Hp & Hc & Hb).
    exists (x :: p), c, b. simpl. rewrite Hp. auto.
  - destruct (mem x set) eqn:Hx; [discriminate |]. injection H as <-.
    exists [], x, l. simpl.
    split; [reflexivity | split; [reflexivity | split; [exact Hx |]]].
    apply find_last_not_of_none, E.
Qed.

Lemma trim_skips set_c s :
  mem set_c default_whitespace = true -> trim (set_c :: s) = trim s.
Proof.
  intros Hc. unfold trim. cbn [find_first_not_of find_last_not_of].
  rewrite Hc.
  destruct (find_first_not_of default_whitespace s) as [i |]; cbn [option_map];
    [| reflexivity].
  destruct (find_last_not_of default_whitespace s) as [j |]; [| reflexivity].
  unfold substr. reflexivity.
Qed.

Lemma trim_keeps c s j :
  mem c default_whitespace = false ->
  find_last_not_of default_whitespace (c :: s) = Some j ->
  trim (c :: s) = firstn (S j) (c :: s).
Proof.
  intros Hc Hj. unfold trim. rewrite Hj.
  cbn [find_first_not_of]. rewrite Hc. unfold substr.
  rewrite Nat.sub_0_r, Nat.add_1_r. reflexivity.
Qed.

(** X1. [trim] removes a prefix and a suffix made of the characters space,
    tab, carriage return and newline, and what it returns is empty or begins
    and ends with a character that is none of the four. *)
Theorem trim_spec (str : std_string) :
  exists a b,
    str = a ++ trim str ++ b
    /\ all_in default_whitespace a = true
    /\ all_in default_whitespace b = true
    /\ (trim str = []
        \/ (mem (hd 0 (trim str)) default_whitespace = false
            /\ mem (last (trim str) 0) default_whitespace = false)).
Proof.
  induction str as [| c s IH].
  - exists [], []. repeat split; auto.
  - destruct (mem c default_whitespace) eqn:Hc.
    + rewrite (@trim_skips _ _ Hc).
      destruct IH as (a & b & Hs & Ha & Hb & He).
      exists (c :: a), b. split; [simpl; f_equal; exact Hs |].
      split; [unfold all_in in *; cbn [forallb]; rewrite Hc; exact Ha |].
      split; assumption.
    + destruct (find_last_not_of default_whitespace (c :: s)) as [j |] eqn:Hj.
      * rewrite (@trim_keeps _ _ _ Hc Hj).
        destruct (@find_last_not_of_split _ _ _ Hj) as (p & c' & b & E & Hp & Hc' & Hb).
        rewrite E. subst j.
        assert (F : firstn (S (List.length p)) (p ++ c' :: b) = p ++ [c']).
        { replace (S (List.length p)) with (List.length p + 1)%nat by lia.
          rewrite firstn_app_2. reflexivity. }
        rewrite F. exists [], b.
        split; [simpl; rewrite <- app_assoc; reflexivity |].
        split; [reflexivity |]. split; [exact Hb |]. right. split.
        -- destruct p as [| x p]; simpl in *.
           ++ exact Hc'.
           ++ injection E as <- _. exact Hc.
        -- rewrite last_last. exact Hc'.
      * apply find_last_not_of_none in Hj. unfold all_in in Hj.
        cbn [forallb] in Hj. rewrite Hc in Hj. discriminate.
Qed.

Lemma skip_space_app ws s :
  forallb isspace ws = true -> skip_space (ws ++ s) = skip_space s.
Proof.
  induction ws as [| c ws IH]; simpl; [reflexivity |].
  intros H. apply andb_true_iff in H as [H1 H2]. rewrite H1.
  assert (E : (c =? EOF) = false).
  { destruct (N.eqb_spec c EOF) as [-> |]; [discriminate H1 | reflexivity]. }
  rewrite E. simpl. apply IH, H2.
Qed.

(** X2. [peek_next_non_space] removes a prefix of white space (space and the
    characters 9 to 13) and nothing else; the code point it returns is never
    white space, and [get_next_non_space] reads that same code point. *)
Theorem skip_space_spec (strm : u32_istream) :
  exists ws,
    strm = ws ++ snd (peek_next_non_space strm)
    /\ forallb isspace ws = true
    /\ isspace (fst (peek_next_non_space strm)) = false
    /\ fst (get_next_non_space strm) = fst (peek_next_non_space strm).
Proof.
  unfold peek_next_non_space, get_next_non_space. cbn [fst snd].
  induction strm as [| c s IH].
  - exists []. repeat split; reflexivity.
  - simpl skip_space.
    destruct (isspace c) eqn:Hc.
    + assert (E : (c =? EOF) = false).
      { destruct (N.eqb_spec c EOF) as [-> |]; [discriminate Hc | reflexivity]. }
      rewrite E. simpl negb. simpl andb.
      destruct IH as (ws & Hs & Hws & Hp & Hg).
      exists (c :: ws). split; [simpl; f_equal; exact Hs |].
      split; [simpl; rewrite Hc; exact Hws |]. split; assumption.
    + rewrite andb_false_r. exists []. simpl. repeat split; auto.
Qed.

(** X3. White space before the document does not change what [parse] returns
    or throws. *)
Theorem parse_leading_space (ws s : u32string) :
  forallb isspace ws = true -> parse (ws ++ s) = parse s.
Proof.
  intros H. unfold parse, peek_next_non_space.
  rewrite (@skip_space_app _ _ H). reflexivity.
Qed.

Lemma parse_leading_space_witness :
  parse ([32; 10; 9] ++ J "{'a':[1,2]}") = parse (J "{'a':[1,2]}").
Proof. apply parse_leading_space. reflexivity. Defined.

(** X4. [parse] terminates on every input: it returns a value or throws. *)
Theorem parse_returns_or_throws (s : u32string) :
  (exists v, parse s = Ok v) \/ (exists e, parse s = Throw e).
Proof.
  pose proof (parse_total s) as H.
  destruct (parse s) as [v | e |].
  - left. exists v. reflexivity.
  - right. exists e. reflexivity.
  - contradiction.
Qed.

(** ** Members and elements *)

(** X5. [has_member] takes the key as a [std::string], [operator[]] as a C
    string, so [operator[]] looks up the text of its argument before the
    first NUL.  On an object, [operator[]] returns a member exactly when
    [has_member] is true for that text, and throws "key ... not found."
    with that text when it is false; on a value that is not an object both
    throw the same type-mismatch exception.  For a key without a NUL the
    text is the key itself.  For a key with a NUL the two differ: the
    object whose one key is [a], NUL, [b] has that member, while
    [operator[]] with the same characters looks up [a] and throws. *)
Theorem has_member_at_key (j : json) (key : std_string) :
  (has_member j (c_str key) = Ok true <-> exists v, at_key j key = Ok v)
  /\ (has_member j (c_str key) = Ok false ->
      at_key j key
      = Throw (runtime_error (U "key " ++ c_str key ++ U " not found.")))
  /\ (forall e, has_member j (c_str key) = Throw e ->
        at_key j key = Throw e /\ type j <> t_object)
  /\ (type j <> t_object ->
      has_member j key
      = Throw (runtime_error (type_mismatch_what (type j) t_object)))
  /\ (forallb (fun c => negb (c =? 0)) key = true -> c_str key = key)
  /\ has_member (JObject [([97; 0; 98], JNull)]) [97; 0; 98] = Ok true
  /\ at_key (JObject [([97; 0; 98], JNull)]) [97; 0; 98]
     = Throw (runtime_error (U "key a not found.")).
Proof.
  split; [| split; [| split; [| split; [| split; [| split]]]]].
  - unfold has_member, at_key.
    destruct j as [s | n | d | l | b | m | |];
      cbn [type CHECK_TYPE_MISMATCH json_t_eqb json_t_value N.eqb Pos.eqb
           negb bind];
      try (split; [discriminate | intros [v H]; discriminate]).
    destruct (map_find (c_str key) m) as [v |].
    + split; [intros _; exists v; reflexivity | reflexivity].
    + split; [discriminate | intros [v H]; discriminate].
  - unfold has_member, at_key.
    destruct j as [s | n | d | l | b | m | |];
      cbn [type CHECK_TYPE_MISMATCH json_t_eqb json_t_value N.eqb Pos.eqb
           negb bind];
      try discriminate.
    destruct (map_find (c_str key) m) as [v |]; [discriminate | reflexivity].
  - unfold has_member, at_key. intros e.
    destruct j as [s | n | d | l | b | m | |];
      cbn [type CHECK_TYPE_MISMATCH json_t_eqb json_t_value N.eqb Pos.eqb
           negb bind];
      try (intros H; injection H as <-; split; [reflexivity | discriminate]).
    destruct (map_find (c_str key) m) as [v |]; discriminate.
  - unfold has_member.
    destruct j as [s | n | d | l | b | m | |];
      cbn [type CHECK_TYPE_MISMATCH json_t_eqb json_t_value N.eqb Pos.eqb
           negb bind];
      try (intros _; reflexivity).
    intros H; contradiction H; reflexivity.
  - apply c_str_no_nul.
  - reflexivity.
  - reflexivity.
Qed.

Lemma has_member_at_key_witness :
  at_key (JObject [(U "a", JNull)]) (U "b")
  = Throw (runtime_error (U "key " ++ U "b" ++ U " not found.")).
Proof.
  destruct (has_member_at_key (JObject [(U "a", JNull)]) (U "b"))
    as (_ & H & _).
  apply H. reflexivity.
Defined.

(** X6. After [add_member] the object has the key, and [operator[]] returns
    the value given for every argument whose text before the first NUL is
    the key, so for the key itself when it holds no NUL.  Membership of
    every other key is what it was, and so is what [operator[]] gives for
    every argument whose text before the first NUL is another key. *)
Theorem add_member_lookup (j j' : json) (k : std_string) (v : json) :
  add_member j k v = Ok j' ->
  has_member j' k = Ok true
  /\ (forall key, c_str key = k -> at_key j' key = Ok v)
  /\ (forallb (fun c => negb (c =? 0)) k = true -> at_key j' k = Ok v)
  /\ forall k',
       (k' <> k -> has_member j' k' = has_member j k')
       /\ (c_str k' <> k -> at_key j' k' = at_key j k').
Proof.
  intros H. apply add_member_ok in H as (m & -> & -> & _).
  assert (A : forall key, c_str key = k ->
                at_key (JObject (map_assign k v m)) key = Ok v).
  { intros key <-. unfold at_key. cbn [type CHECK_TYPE_MISMATCH json_t_eqb
      json_t_value N.eqb Pos.eqb negb bind].
    rewrite map_find_assign_same. reflexivity. }
  split; [| split; [exact A | split]].
  - unfold has_member. cbn [type CHECK_TYPE_MISMATCH json_t_eqb
      json_t_value N.eqb Pos.eqb negb bind].
    rewrite map_find_assign_same. reflexivity.
  - intros Hk. apply A, c_str_no_nul, Hk.
  - intros k'. unfold has_member, at_key. cbn [type CHECK_TYPE_MISMATCH
      json_t_eqb json_t_value N.eqb Pos.eqb negb bind].
    split; intros Hk; rewrite (map_find_assign_other _ _ Hk); reflexivity.
Qed.

Lemma add_member_lookup_witness :
  has_member (JObject [(U "a", JNull); (U "b", JInteger 7)]) (U "b") = Ok true
  /\ at_key (JObject [(U "a", JNull); (U "b", JInteger 7)]) (U "b")
     = Ok (JInteger 7)
  /\ at_key (JObject [(U "a", JNull); (U "b", JInteger 7)]) [98; 0; 99]
     = Ok (JInteger 7)
  /\ at_key (JObject [(U "a", JNull); (U "b", JInteger 7)]) (U "a")
     = at_key (JObject [(U "a", JNull)]) (U "a").
Proof.
  destruct (@add_member_lookup (JObject [(U "a", JNull)])
              (JObject [(U "a", JNull); (U "b", JInteger 7)])
              (U "b") (JInteger 7) eq_refl)
    as (H1 & H2 & H3 & H4).
  split; [exact H1 |]. split; [exact (H3 eq_refl) |].
  split; [exact (H2 [98; 0; 99] eq_refl) |].
  destruct (H4 (U "a")) as [_ H]. apply H. discriminate.
Defined.

Lemma map_assign_length (T : Type) k (v : T) m :
  keys_sorted m = true ->
  List.length (map_assign k v m)
  = match map_find k m with
    | Some _ => List.length m
    | None => S (List.length m)
    end.
Proof.
  induction m as [| [k0 v0] m IH]; intros Hs; [reflexivity |].
  apply keys_sorted_cons in Hs as [Ha Hs].
  cbn [map_assign map_find].
  destruct (string_lt k k0) eqn:L1.
  - rewrite (string_eqb_neq (@string_lt_neq _ _ L1)).
    rewrite map_find_above; [reflexivity |].
    unfold keys_above in *. eapply Forall_impl; [| exact Ha].
    intros kv H. exact (@string_lt_trans _ _ _ L1 H).
  - destruct (string_lt k0 k) eqn:L2.
    + assert (Hne : k <> k0).
      { intros ->. rewrite string_lt_irrefl in L2. discriminate. }
      rewrite (string_eqb_neq Hne). cbn [List.length]. rewrite (IH Hs).
      destruct (map_find k m); reflexivity.
    + rewrite (@string_lt_trichotomy _ _ L1 L2), string_eqb_refl. reflexivity.
Qed.

(** X7. [add_member] on an object (its members in key order, as a [std::map]
    holds them) adds one member when the key is new and keeps the size when
    the object already has the key. *)
Theorem add_member_size (j j' : json) (k : std_string) (v : json) (n : nat) :
  objects_sorted j = true ->
  add_member j k v = Ok j' -> size j = Ok n ->
  (has_member j k = Ok true /\ size j' = Ok n)
  \/ (has_member j k = Ok false /\ size j' = Ok (S n)).
Proof.
  intros Hs H Hn. apply add_member_ok in H as (m & -> & -> & _).
  cbn [objects_sorted] in Hs. apply andb_true_iff in Hs as [Hs _].
  cbn [size] in *. injection Hn as <-.
  unfold has_member. cbn [type CHECK_TYPE_MISMATCH json_t_eqb
    json_t_value N.eqb Pos.eqb negb bind].
  rewrite (map_assign_length k v _ Hs).
  destruct (map_find k m); [left | right]; split; reflexivity.
Qed.

Lemma add_member_size_witness :
  (has_member (JObject [(U "a", JNull)]) (U "a") = Ok true
   /\ size (JObject [(U "a", JBoolean true)]) = Ok 1%nat)
  \/ (has_member (JObject [(U "a", JNull)]) (U "a") = Ok false
      /\ size (JObject [(U "a", JBoolean true)]) = Ok 2%nat).
Proof.
  apply (@add_member_size (JObject [(U "a", JNull)])
           (JObject [(U "a", JBoolean true)]) (U "a") (JBoolean true) 1);
    reflexivity.
Defined.

Lemma add_element_ok j elem j' :
  add_element j elem = Ok j' ->
  exists l, j = JArray l /\ j' = JArray (l ++ [elem])
            /\ no_invalid elem = true.
Proof.
  unfold add_element. intros H. inv_bind H.
  pose proof (copy_ok_no_invalid _ Ha) as Hn. apply copy_ok in Ha. subst a.
  destruct j; try discriminate. simpl in H. injection H as <-.
  eexists; split; [reflexivity | split; [reflexivity | assumption]].
Qed.

(** X8. [add_element] appends: the size grows by one, the new element is at
    the index that was the size, the elements before it keep their indices,
    and a negative index, like an index beyond the new element, still throws
    "index ... out of range.". (An index is an [int].) *)
Theorem add_element_appends (j j' elem : json) (n : nat) :
  add_element j elem = Ok j' -> size j = Ok n ->
  size j' = Ok (S n)
  /\ ((Z.of_nat n <= INT_MAX)%Z -> at_index j' (Z.of_nat n) = Ok elem)
  /\ (forall i, (0 <= i < Z.of_nat n)%Z -> at_index j' i = at_index j i)
  /\ (forall i, (INT_MIN <= i < 0 \/ Z.of_nat n < i <= INT_MAX)%Z ->
        at_index j' i
        = Throw (runtime_error
                   (U "index " ++ Z_to_string i ++ U " out of range."))).
Proof.
  intros H Hn. apply add_element_ok in H as (l & -> & -> & _).
  cbn [size] in *. injection Hn as <-.
  unfold at_index. cbn [type CHECK_TYPE_MISMATCH json_t_eqb
    json_t_value N.eqb Pos.eqb negb bind].
  rewrite length_app. cbn [List.length].
  split; [f_equal; lia |]. split; [| split].
  - intros _.
    destruct (Z.ltb_spec (Z.of_nat (List.length l)) 0); [lia |].
    destruct (Z.leb_spec (Z.of_nat (List.length l + 1)) (Z.of_nat (List.length l)));
      [lia |].
    cbn [orb]. rewrite Nat2Z.id, app_nth2, Nat.sub_diag by lia. reflexivity.
  - intros i Hi.
    destruct (Z.ltb_spec i 0); [lia |].
    destruct (Z.leb_spec (Z.of_nat (List.length l + 1)) i); [lia |].
    destruct (Z.leb_spec (Z.of_nat (List.length l)) i); [lia |].
    cbn [orb]. rewrite app_nth1 by lia. reflexivity.
  - intros i Hi.
    destruct (Z.ltb_spec i 0); [reflexivity |].
    destruct (Z.leb_spec (Z.of_nat (List.length l + 1)) i); [reflexivity | lia].
Qed.

Lemma add_element_appends_witness :
  size (JArray [JNull; JInteger 5]) = Ok 2%nat
  /\ ((Z.of_nat 1 <= INT_MAX)%Z ->
      at_index (JArray [JNull; JInteger 5]) (Z.of_nat 1) = Ok (JInteger 5))
  /\ (forall i, (0 <= i < Z.of_nat 1)%Z ->
        at_index (JArray [JNull; JInteger 5]) i = at_index (JArray [JNull]) i)
  /\ (forall i, (INT_MIN <= i < 0 \/ Z.of_nat 1 < i <= INT_MAX)%Z ->
        at_index (JArray [JNull; JInteger 5]) i
        = Throw (runtime_error
                   (U "index " ++ Z_to_string i ++ U " out of range."))).
Proof.
  apply (@add_element_appends (JArray [JNull]) (JArray [JNull; JInteger 5])
           (JInteger 5) 1); reflexivity.
Defined.

(** X9. Every conversion operator returns the payload that the getter of its
    kind returns, and throws "cannot cast ... to json ..." on a value of
    another kind, where the getter throws the type-mismatch exception. No
    number is converted: the operator for [double] throws on an integer and
    the operator for [long long] throws on a double. *)
Theorem conversion_operators (j : json) :
  (type j = t_string -> operator_std_string j = get_string j)
  /\ (type j = t_number_double -> operator_double j = get_double j)
  /\ (type j = t_number_integer -> operator_long_long j = get_integer j)
  /\ (type j = t_boolean -> operator_bool j = get_bool j)
  /\ (type j <> t_string ->
      operator_std_string j
      = Throw (runtime_error
                 (U "cannot cast " ++ type_name j ++ U " to json string"))
      /\ get_string j
         = Throw (runtime_error (type_mismatch_what (type j) t_string)))
  /\ (type j <> t_number_double ->
      operator_double j
      = Throw (runtime_error
                 (U "cannot cast " ++ type_name j ++ U " to json number"))
      /\ get_double j
         = Throw (runtime_error (type_mismatch_what (type j) t_number_double)))
  /\ (type j <> t_number_integer ->
      operator_long_long j
      = Throw (runtime_error
                 (U "cannot cast " ++ type_name j ++ U " to json number"))
      /\ get_integer j
         = Throw (runtime_error (type_mismatch_what (type j) t_number_integer)))
  /\ (type j <> t_boolean ->
      operator_bool j
      = Throw (runtime_error
                 (U "cannot cast " ++ type_name j ++ U " to json boolean"))
      /\ get_bool j
         = Throw (runtime_error (type_mismatch_what (type j) t_boolean)))
  /\ (type j = t_number_integer ->
      operator_double j
      = Throw (runtime_error (U "cannot cast number to json number")))
  /\ (type j = t_number_double ->
      operator_long_long j
      = Throw (runtime_error (U "cannot cast number to json number"))).
Proof.
  destruct j as [s | n | d | l | b | m | |];
    repeat match goal with |- _ /\ _ => split end;
    intros H; try discriminate H; try (contradiction H; reflexivity);
    try split; reflexivity.
Qed.

Lemma conversion_operators_witness :
  operator_double (JInteger 3)
  = Throw (runtime_error (U "cannot cast number to json number")).
Proof.
  destruct (conversion_operators (JInteger 3))
    as (_ & _ & _ & _ & _ & _ & _ & _ & H & _).
  apply H. reflexivity.
Defined.

(** ** [operator==] *)

Lemma SFeqb_true a b :
  SFeqb a b = true
  <-> match a, b with
      | S754_zero _, S754_zero _ => True
      | S754_infinity s, S754_infinity s' => s = s'
      | S754_finite s m e, S754_finite s' m' e' => s = s' /\ m = m' /\ e = e'
      | _, _ => False
      end.
Proof.
  unfold SFeqb, SFcompare.
  destruct a as [s | s | | s m e], b as [s' | s' | | s' m' e'];
    try destruct s; try destruct s'; cbn;
    try (split; [discriminate | contradiction]);
    try (split; [discriminate | congruence]);
    try (split; [trivial | reflexivity]);
    try (split; [discriminate | intros [H _]; discriminate H]).
  all: change (PosDef.Pos.compare_cont Eq m m') with (Pos.compare m m').
  all: destruct (Z.compare_spec e e') as [He | He | He];
    destruct (Pos.compare_spec m m') as [Hm | Hm | Hm]; cbn [CompOpp];
    (split; [try discriminate; intros _; subst; auto
            | intros (_ & Hm' & He'); try reflexivity; lia]).
Qed.

Lemma SFeqb_sym a b : SFeqb a b = SFeqb b a.
Proof.
  apply eq_true_iff_eq. rewrite !SFeqb_true.
  destruct a, b; try tauto; split; intros; intuition congruence.
Qed.

Lemma SFeqb_trans a b c :
  SFeqb a b = true -> SFeqb b c = true -> SFeqb a c = true.
Proof.
  rewrite !SFeqb_true. destruct a, b, c; try tauto; try congruence.
  intros (-> & -> & ->) H. exact H.
Qed.

Lemma string_eqb_sym a b : string_eqb a b = string_eqb b a.
Proof.
  apply eq_true_iff_eq. rewrite !string_eqb_eq. split; congruence.
Qed.

Lemma json_eq_sym a : forall b, json_eq a b = json_eq b a.
Proof.
  induction a as [s | n | d | l IH | x | m IH | |] using json_ind';
    intros [s' | n' | d' | l' | x' | m' | |]; try reflexivity.
  - apply string_eqb_sym.
  - apply Z.eqb_sym.
  - apply SFeqb_sym.
  - cbn [json_eq]. revert l'.
    induction IH as [| y r Hy _ IHr]; intros [| y' r']; try reflexivity.
    cbn [array_eq]. rewrite Hy, IHr. reflexivity.
  - destruct x, x'; reflexivity.
  - cbn [json_eq]. revert m'.
    induction IH as [| [k y] r Hy _ IHr]; intros [| [k' y'] r']; try reflexivity.
    cbn [object_eq]. cbn [snd] in Hy.
    rewrite Hy, IHr, string_eqb_sym. reflexivity.
Qed.

Lemma json_eq_trans a : forall b c,
  json_eq a b = true -> json_eq b c = true -> json_eq a c = true.
Proof.
  induction a as [s | n | d | l IH | x | m IH | |] using json_ind';
    intros [s' | n' | d' | l' | x' | m' | |] [s2 | n2 | d2 | l2 | x2 | m2 | |];
    try discriminate; cbn [json_eq]; try reflexivity.
  - rewrite !string_eqb_eq. congruence.
  - rewrite !Z.eqb_eq. congruence.
  - apply SFeqb_trans.
  - revert l' l2.
    induction IH as [| y r Hy _ IHr]; intros [| y' r'] [| y2 r2];
      cbn [array_eq]; try discriminate; try reflexivity.
    rewrite !andb_true_iff. intros [H1 H2] [H3 H4].
    split; [exact (Hy _ _ H1 H3) | exact (IHr _ _ H2 H4)].
  - destruct x, x', x2; try discriminate; reflexivity.
  - revert m' m2.
    induction IH as [| [k y] r Hy _ IHr]; intros [| [k' y'] r'] [| [k2 y2] r2];
      cbn [object_eq]; try discriminate; try reflexivity.
    cbn [snd] in Hy. rewrite !andb_true_iff, !string_eqb_eq.
    intros [[H0 H1] H2] [[H0' H3] H4].
    split; [split; [congruence | exact (Hy _ _ H1 H3)] | exact (IHr _ _ H2 H4)].
Qed.

(** X10. [operator==] finds a value equal to itself exactly when no node of
    the value has the tag [invalid] and no double in it is a NaN. *)
Theorem json_eq_self (v : json) : json_eq v v = no_invalid v && no_nan v.
Proof.
  induction v as [s | n | d | l IH | x | m IH | |] using json_ind';
    try reflexivity.
  - apply string_eqb_refl.
  - apply Z.eqb_refl.
  - cbn [json_eq no_invalid no_nan andb].
    destruct d as [s | s | | s m e]; try reflexivity.
    + destruct s; reflexivity.
    + apply SFeqb_true. auto.
  - cbn [json_eq no_invalid no_nan].
    induction IH as [| y r Hy _ IHr]; [reflexivity |].
    cbn [array_eq forallb]. rewrite Hy, IHr.
    destruct (no_invalid y), (no_nan y), (forallb no_invalid r),
      (forallb no_nan r); reflexivity.
  - destruct x; reflexivity.
  - cbn [json_eq no_invalid no_nan].
    induction IH as [| [k y] r Hy _ IHr]; [reflexivity |].
    cbn [object_eq forallb snd] in *. rewrite Hy, IHr, string_eqb_refl.
    destruct (no_invalid y), (no_nan y),
      (forallb (fun kv => no_invalid (snd kv)) r),
      (forallb (fun kv => no_nan (snd kv)) r); reflexivity.
Qed.

(** X11. [operator==] and [operator!=] do not depend on the order of their
    operands, [operator==] is transitive, and two values that it finds equal
    have the same kind. *)
Theorem json_eq_symmetric_transitive (a b c : json) :
  json_eq a b = json_eq b a
  /\ json_neq a b = json_neq b a
  /\ (json_eq a b = true -> json_eq b c = true -> json_eq a c = true)
  /\ (json_eq a b = true -> type a = type b).
Proof.
  split; [apply json_eq_sym |].
  split; [unfold json_neq; rewrite json_eq_sym; reflexivity |].
  split; [apply json_eq_trans |].
  destruct a, b; try discriminate; reflexivity.
Qed.

Lemma json_eq_symmetric_transitive_witness :
  json_eq (JDouble (S754_zero false)) (JDouble (S754_zero false)) = true
  /\ type (JDouble (S754_zero false)) = type (JDouble (S754_zero true)).
Proof.
  destruct (json_eq_symmetric_transitive
              (JDouble (S754_zero false)) (JDouble (S754_zero true))
              (JDouble (S754_zero false))) as (_ & _ & Ht & Hk).
  split; [apply Ht; reflexivity | apply Hk; reflexivity].
Defined.

(** ** Copies and the values a client can hold *)

Lemma assign_copy j : type j <> t_invalid -> assign j = copy j.
Proof.
  destruct j as [s | n | d | l | b | m | |]; intros H; try reflexivity.
  contradiction H; reflexivity.
Qed.

Lemma assign_ok j j' : assign j = Ok j' -> j' = j /\ no_invalid j = true.
Proof.
  intros H. destruct (type j) eqn:E;
    try (rewrite assign_copy in H by (rewrite E; discriminate);
         split; [exact (@copy_ok _ _ H) | exact (@copy_ok_no_invalid _ _ H)]).
  destruct j; discriminate.
Qed.

(** X12. The copy constructor and the copy assignment return the value
    itself when no node of it has the tag [invalid]. Otherwise both throw:
    the constructor always with "unexpected json type: invalid"; the
    assignment with that text when the invalid node is below the root (the
    payload is cloned by the constructor) and with "unexpected json
    typeinvalid" when it is the root. *)
Theorem copy_and_assign (j : json) :
  (no_invalid j = true -> copy j = Ok j /\ assign j = Ok j)
  /\ (no_invalid j = false ->
      copy j = Throw (runtime_error (U "unexpected json type: invalid"))
      /\ (type j <> t_invalid ->
          assign j
          = Throw (runtime_error (U "unexpected json type: invalid")))
      /\ (type j = t_invalid ->
          assign j
          = Throw (runtime_error (U "unexpected json typeinvalid")))).
Proof.
  split.
  - intros H. pose proof (@copy_no_invalid _ H) as Hc. split; [exact Hc |].
    rewrite assign_copy; [exact Hc |].
    destruct j; try discriminate.
  - intros H.
    assert (Hc : copy j
                 = Throw (runtime_error (U "unexpected json type: invalid"))).
    { destruct (copy j) as [j' | e |] eqn:E.
      - apply copy_ok_no_invalid in E. congruence.
      - rewrite (@copy_throw _ _ E). reflexivity.
      - contradiction (@copy_not_oof _ E). }
    split; [exact Hc |]. split.
    + intros Ht. rewrite (@assign_copy _ Ht). exact Hc.
    + intros Ht. destruct j; try discriminate. reflexivity.
Qed.

Lemma copy_and_assign_witness :
  copy (JArray [JInteger 1; JInvalid])
  = Throw (runtime_error (U "unexpected json type: invalid"))
  /\ assign (JArray [JInteger 1; JInvalid])
     = Throw (runtime_error (U "unexpected json type: invalid"))
  /\ assign JInvalid
     = Throw (runtime_error (U "unexpected json typeinvalid"))
  /\ assign (JArray [JInteger 1]) = Ok (JArray [JInteger 1]).
Proof.
  destruct (copy_and_assign (JArray [JInteger 1; JInvalid])) as [_ H1].
  destruct (H1 eq_refl) as (Hc & Ha & _).
  destruct (copy_and_assign JInvalid) as [_ H2].
  destruct (H2 eq_refl) as (_ & _ & Hi).
  destruct (copy_and_assign (JArray [JInteger 1])) as [H3 _].
  split; [exact Hc |]. split; [apply Ha; discriminate |].
  split; [apply Hi; reflexivity | apply (H3 eq_refl)].
Defined.

Lemma map_find_in (T : Type) key (m : list (std_string * T)) v :
  map_find key m = Some v -> In (key, v) m.
Proof.
  induction m as [| [k x] m IH]; simpl; [discriminate |].
  destruct (string_eqb key k) eqn:E.
  - apply string_eqb_eq in E. subst k. intros H. injection H as ->. left.
    reflexivity.
  - intros H. right. apply IH, H.
Qed.

Lemma reachable_parsed (v : json) : reachable v -> parsed v.
Proof.
  revert v. fix IH 2. intros v H.
  destruct H as [| val | val | val | val | array j Hl Hj | obj j Hs Hl Hj
                 | s j Hj | v j Hv Hj | v j Hv Hj | o k v j Ho Hv Hj
                 | a v j Ha Hv Hj | o key j Ho Hj | a index j Ha Hj
                 | a l j Ha Hl Hj | o m key j Ho Hm Hj].
  - split; reflexivity.
  - split; reflexivity.
  - split; reflexivity.
  - split; reflexivity.
  - split; reflexivity.
  - unfold json_of_array in Hj. inv_bind Hj. apply copy_array_ok in Ha.
    subst a. injection Hj as <-. apply parsed_array.
    revert array Hl. fix IHl 2. intros array Hl.
    destruct Hl as [| x r Hx Hr]; constructor;
      [apply IH; exact Hx | apply IHl; exact Hr].
  - unfold json_of_object in Hj. inv_bind Hj. apply copy_object_ok in Ha.
    subst a. injection Hj as <-. apply parsed_object. split; [exact Hs |].
    clear Hs. revert obj Hl. fix IHl 2. intros obj Hl.
    destruct Hl as [| x r Hx Hr]; constructor;
      [apply IH; exact Hx | apply IHl; exact Hr].
  - exact (@parse_parsed _ _ Hj).
  - apply copy_ok in Hj. subst j. apply IH, Hv.
  - apply assign_ok in Hj as [-> _]. apply IH, Hv.
  - apply (@parsed_add_member o k v j); [apply IH, Ho | apply IH, Hv | exact Hj].
  - apply add_element_ok in Hj as (l & -> & -> & _).
    apply parsed_array. apply Forall_app. split.
    + apply parsed_array. apply IH, Ha.
    + constructor; [apply IH, Hv | constructor].
  - apply IH in Ho. unfold at_key in Hj.
    destruct o as [| | | | | m | |]; try discriminate.
    cbn [type CHECK_TYPE_MISMATCH json_t_eqb json_t_value N.eqb Pos.eqb
         negb bind] in Hj.
    destruct (map_find (c_str key) m) as [x |] eqn:E; [| discriminate].
    injection Hj as ->. apply parsed_object in Ho as [_ Ho].
    apply map_find_in in E. rewrite Forall_forall in Ho. exact (Ho _ E).
  - apply IH in Ha. unfold at_index in Hj.
    destruct a as [| | | l | | | |]; try discriminate.
    cbn [type CHECK_TYPE_MISMATCH json_t_eqb json_t_value N.eqb Pos.eqb
         negb bind] in Hj.
    destruct ((index <? 0)%Z || (Z.of_nat (List.length l) <=? index)%Z) eqn:E;
      [discriminate |].
    injection Hj as <-. apply orb_false_iff in E as [E1 E2].
    apply Z.ltb_ge in E1. apply Z.leb_gt in E2.
    apply parsed_array in Ha. rewrite Forall_forall in Ha.
    apply Ha, nth_In. lia.
  - apply IH in Ha. unfold get_array in Hl.
    destruct a as [| | | l0 | | | |]; try discriminate.
    cbn [type CHECK_TYPE_MISMATCH json_t_eqb json_t_value N.eqb Pos.eqb
         negb bind] in Hl.
    apply copy_array_ok in Hl. subst l.
    apply parsed_array in Ha. rewrite Forall_forall in Ha. exact (Ha _ Hj).
  - apply IH in Ho. unfold get_object in Hm.
    destruct o as [| | | | | m0 | |]; try discriminate.
    cbn [type CHECK_TYPE_MISMATCH json_t_eqb json_t_value N.eqb Pos.eqb
         negb bind] in Hm.
    apply copy_object_ok in Hm. subst m.
    apply parsed_object in Ho as [_ Ho].
    apply map_find_in in Hj. rewrite Forall_forall in Ho. exact (Ho _ Hj).
Qed.

(** X13. The invariant of the class. A value that a client can hold (built
    by the constructors, returned by [parse], a copy, or returned by a
    member function on such values) has no node with the tag [invalid] and
    holds the members of every object in increasing key order; so copying it
    and serializing it never throw. *)
Theorem reachable_invariant (v : json) :
  reachable v ->
  no_invalid v = true
  /\ objects_sorted v = true
  /\ copy v = Ok v
  /\ assign v = Ok v
  /\ exists s, to_string v = Ok s.
Proof.
  intros H. destruct (@reachable_parsed _ H) as [Hn Hs].
  split; [exact Hn |]. split; [exact Hs |].
  split; [exact (@copy_no_invalid _ Hn) |].
  split; [| exact (@to_string_no_invalid _ Hn)].
  rewrite assign_copy; [exact (@copy_no_invalid _ Hn) |].
  destruct v; discriminate.
Qed.

Lemma reachable_invariant_witness :
  exists s, to_string (JObject [(U "k", JArray [JNull; JBoolean true])]) = Ok s.
Proof.
  apply (@reachable_invariant
           (JObject [(U "k", JArray [JNull; JBoolean true])])).
  apply (@reach_add_member (JObject []) (U "k") (JArray [JNull; JBoolean true])).
  - apply (@reach_object [] (JObject [])); [reflexivity | constructor | reflexivity].
  - apply (@reach_array [JNull; JBoolean true]); [| reflexivity].
    constructor; [exact reach_default |].
    constructor; [exact (reach_bool true) | constructor].
  - reflexivity.
Defined.

Lemma parse_array_kind fuel s v s' :
  parse_array fuel s = Ok (v, s') -> exists l, v = JArray l.
Proof.
  destruct fuel as [| fuel]; [discriminate |].
  rewrite parse_array_S. intros H. inv_bind H.
  unfold peek_next_non_space in H.
  destruct (peek (skip_space a) =? 93).
  - inv_bind H. injection H as <- _. exists []. reflexivity.
  - inv_bind H. destruct a0 as [l r]. inv_bind H. inv_bind H.
    injection H as <- _. eexists. reflexivity.
Qed.

(** X14. What [parse] returns is an object or an array, no node of it is
    invalid and every object in it holds its members in increasing key
    order; the copy assignment in [parse] ([ret_val = ...]) returns it
    unchanged, and [to_string] serializes it. *)
Theorem parse_result_invariant (s : u32string) (v : json) :
  parse s = Ok v ->
  is_container v = true
  /\ no_invalid v = true
  /\ objects_sorted v = true
  /\ assign v = Ok v
  /\ exists text, to_string v = Ok text.
Proof.
  intros H. destruct (@parse_parsed _ _ H) as [Hn Hs].
  assert (Hc : is_container v = true).
  { unfold parse, peek_next_non_space in H. inv_bind H.
    destruct a as [r rest].
    destruct (negb (peek (skip_space rest) =? EOF)); [discriminate |].
    injection H as ->.
    destruct (peek (skip_space s) =? 123).
    - apply (parser_parsed _) in Ha. destruct Ha as [_ [m ->]]. reflexivity.
    - destruct (peek (skip_space s) =? 91); [| discriminate].
      apply parse_array_kind in Ha. destruct Ha as [l ->]. reflexivity. }
  split; [exact Hc |]. split; [exact Hn |]. split; [exact Hs |].
  split; [| exact (@to_string_no_invalid _ Hn)].
  rewrite assign_copy; [exact (@copy_no_invalid _ Hn) |].
  destruct v; discriminate.
Qed.

Lemma parse_result_invariant_witness :
  is_container (JArray [JInteger 1; JObject []]) = true
  /\ no_invalid (JArray [JInteger 1; JObject []]) = true
  /\ objects_sorted (JArray [JInteger 1; JObject []]) = true
  /\ assign (JArray [JInteger 1; JObject []])
     = Ok (JArray [JInteger 1; JObject []])
  /\ exists text, to_string (JArray [JInteger 1; JObject []]) = Ok text.
Proof.
  apply (@parse_result_invariant (U "[1, {}]")). vm_compute. reflexivity.
Defined.

(** ** String literals *)

Lemma raw_char_facts c :
  raw_char c = true ->
  (c =? EOF) = false /\ (c =? 34) = false /\ (c =? 92) = false
  /\ (c <=? 1114111) = true.
Proof.
  unfold raw_char, EOF. intros H.
  apply andb_true_iff in H as [H HD]. apply andb_true_iff in H as [HA HB].
  apply negb_true_iff in HA, HB. apply N.leb_le in HD.
  rewrite HA, HB.
  destruct (N.eqb_spec c 4294967295); [lia |].
  destruct (N.leb_spec c 1114111); [| lia].
  repeat split; reflexivity.
Qed.

Lemma quoted_loop_raw p : forall fuel acc tail,
  forallb raw_char p = true -> (List.length p <= fuel)%nat ->
  tail = [] \/ (exists t, tail = 34 :: t) ->
  quoted_loop fuel acc (p ++ tail) = Ok (acc ++ p, tail).
Proof.
  induction p as [| c p IH]; intros fuel acc tail Hp Hf Ht.
  - rewrite app_nil_r. cbn [app].
    destruct Ht as [-> | [t ->]]; destruct fuel; reflexivity.
  - simpl in Hp. apply andb_true_iff in Hp as [Hc Hp].
    destruct (@raw_char_facts c Hc) as (H1 & H2 & H3 & _).
    destruct fuel as [| fuel]; [simpl in Hf; lia |].
    cbn [quoted_loop app peek get]. rewrite H1, H2, H3. cbn [negb andb].
    rewrite IH by (try exact Hp; try exact Ht; simpl in Hf; lia).
    rewrite <- app_assoc. reflexivity.
Qed.

Lemma U32ToU8_raw p : forallb raw_char p = true -> U32ToU8 p = Ok p.
Proof.
  intros H. unfold U32ToU8.
  match goal with
  | |- (if ?b then _ else _) = _ => replace b with true; [reflexivity |]
  end.
  symmetry. eapply forallb_impl; [| exact H].
  intros x Hx. apply (@raw_char_facts x Hx).
Qed.

Lemma parse_string_raw p tail :
  forallb raw_char p = true ->
  parse_string (34 :: p ++ 34 :: tail) = Ok (JString p, tail).
Proof.
  intros H. unfold parse_string. rewrite skip_char_quote. cbn [bind].
  rewrite quoted_loop_raw
    by (try exact H; try (rewrite length_app; lia); right; eexists; reflexivity).
  cbn [bind app]. rewrite skip_char_quote. cbn [bind].
  rewrite (@U32ToU8_raw _ H). reflexivity.
Qed.

(** X15. A string literal and a member key are taken as they are written:
    every code point between the quotes other than a double quote and a
    backslash (control characters and line breaks included) goes into the
    string unchanged. A literal that the input ends before closing throws
    "expected char ... not found", with a double quote as the expected
    character. *)
Theorem string_literal_verbatim (p : u32string) (rest : u32_istream) :
  forallb raw_char p = true ->
  parse_string (34 :: p ++ 34 :: rest) = Ok (JString p, rest)
  /\ parse_member (34 :: p ++ 34 :: rest) = Ok (p, rest)
  /\ parse_string (34 :: p)
     = Throw (runtime_error (U "expected char '" ++ [34] ++ U "' not found"))
  /\ parse_member (34 :: p)
     = Throw (runtime_error (U "expected char '" ++ [34] ++ U "' not found")).
Proof.
  intros H. split; [exact (@parse_string_raw _ _ H) |]. split.
  - unfold parse_member. rewrite skip_char_quote. cbn [bind].
    rewrite quoted_loop_raw
      by (try exact H; try (rewrite length_app; lia); right; eexists; reflexivity).
    cbn [bind app]. rewrite skip_char_quote. cbn [bind].
    rewrite (@U32ToU8_raw _ H). reflexivity.
  - assert (Hq : quoted_loop (List.length p) [] p = Ok (p, [])).
    { pose proof (@quoted_loop_raw p (List.length p) [] [] H (le_n _)
                    (or_introl eq_refl)) as Hq.
      rewrite app_nil_r in Hq. exact Hq. }
    split.
    + unfold parse_string. rewrite skip_char_quote. cbn [bind].
      rewrite Hq. reflexivity.
    + unfold parse_member. rewrite skip_char_quote. cbn [bind].
      rewrite Hq. reflexivity.
Qed.

Lemma string_literal_verbatim_witness :
  parse_string (34 :: [97; 10; 9; 98] ++ 34 :: [93])
  = Ok (JString [97; 10; 9; 98], [93])
  /\ parse_string (34 :: [97; 10; 9; 98])
     = Throw (runtime_error (U "expected char '" ++ [34] ++ U "' not found")).
Proof.
  destruct (@string_literal_verbatim [97; 10; 9; 98] [93] eq_refl)
    as (H1 & _ & H2 & _).
  split; [exact H1 | exact H2].
Defined.

(** X16. [to_string] writes a string payload between two double quotes
    without escaping anything, so the text of a string that holds a double
    quote is read back by [parse_string] as the part before that quote, and
    the rest of the text stays in the stream. *)
Theorem to_string_does_not_escape (a b : std_string) (rest : u32_istream) :
  forallb raw_char a = true ->
  to_string (JString (a ++ 34 :: b)) = Ok (34 :: a ++ 34 :: b ++ [34])
  /\ parse_string ((34 :: a ++ 34 :: b ++ [34]) ++ rest)
     = Ok (JString a, b ++ 34 :: rest).
Proof.
  intros H. split.
  - cbn [to_string get_string type CHECK_TYPE_MISMATCH json_t_eqb
         json_t_value N.eqb negb bind app].
    rewrite <- app_assoc. reflexivity.
  - cbn [app]. repeat (rewrite <- app_assoc; cbn [app]).
    apply parse_string_raw, H.
Qed.

Lemma to_string_does_not_escape_witness :
  to_string (JString ([97] ++ 34 :: [98])) = Ok (34 :: [97] ++ 34 :: [98] ++ [34])
  /\ parse_string ((34 :: [97] ++ 34 :: [98] ++ [34]) ++ [93])
     = Ok (JString [97], [98] ++ 34 :: [93]).
Proof. apply to_string_does_not_escape. reflexivity. Defined.

Lemma c_str_cut x y :
  forallb (fun c => negb (c =? 0)) x = true -> c_str (x ++ 0 :: y) = x.
Proof.
  intros H. unfold c_str. rewrite span_all; [reflexivity | exact H |].
  left. reflexivity.
Qed.

(** X17. A value nested in an array or an object is written through
    [c_str()], and so is a key: the text of a nested string that holds a NUL
    stops before the NUL, without the closing quote, while [to_string] of
    the string itself returns the whole payload between quotes. *)
Theorem nested_text_stops_at_nul (a b k : std_string) :
  forallb (fun c => negb (c =? 0)) a = true ->
  to_string (JString (a ++ 0 :: b)) = Ok ([34] ++ a ++ 0 :: b ++ [34])
  /\ to_string (JArray [JString (a ++ 0 :: b)]) = Ok ([91; 34] ++ a ++ [93])
  /\ to_string (JObject [(k, JString (a ++ 0 :: b))])
     = Ok ([123; 34] ++ c_str k ++ [34] ++ U " : " ++ [34] ++ a ++ [125])
  /\ to_string (JObject [(a ++ 0 :: b, JNull)])
     = Ok ([123; 34] ++ a ++ [34] ++ U " : " ++ U "null" ++ [125]).
Proof.
  intros H.
  assert (Hs : to_string (JString (a ++ 0 :: b))
               = Ok ((34 :: a) ++ 0 :: (b ++ [34]))).
  { cbn [to_string get_string type CHECK_TYPE_MISMATCH json_t_eqb
         json_t_value N.eqb negb bind app].
    rewrite <- app_assoc. reflexivity. }
  assert (Hc : c_str ((34 :: a) ++ 0 :: (b ++ [34])) = 34 :: a).
  { apply c_str_cut. cbn [forallb]. rewrite H. reflexivity. }
  split; [exact Hs |]. split; [| split].
  - rewrite to_string_array. cbn [copy_array copy bind array_elements_to_string].
    rewrite Hs. cbn [bind]. rewrite Hc. cbn [app].
    rewrite ?app_nil_r. reflexivity.
  - rewrite to_string_object.
    cbn [copy_object copy bind object_members_to_string].
    rewrite Hs. cbn [bind]. rewrite Hc. cbn [app].
    repeat (rewrite <- app_assoc; cbn [app]). rewrite ?app_nil_r.
    reflexivity.
  - rewrite to_string_object.
    cbn [copy_object copy bind object_members_to_string to_string].
    rewrite (@c_str_cut a b H). cbn [app].
    repeat (rewrite <- app_assoc; cbn [app]). reflexivity.
Qed.

Lemma nested_text_stops_at_nul_witness :
  to_string (JArray [JString ([97] ++ 0 :: [98])]) = Ok ([91; 34] ++ [97] ++ [93]).
Proof.
  destruct (@nested_text_stops_at_nul [97] [98] [] eq_refl) as (_ & H & _).
  exact H.
Defined.

(** ** Words and numbers *)

Lemma tolower_word c : word_char (tolower c) = true -> word_char c = true.
Proof.
  unfold tolower. destruct ((65 <=? c) && (c <=? 90)) eqn:E; [| trivial].
  intros _. unfold word_char, isalnum. rewrite E.
  rewrite orb_true_r. reflexivity.
Qed.

Lemma tolower_word_all w :
  forallb word_char (map tolower w) = true -> forallb word_char w = true.
Proof.
  induction w as [| c w IH]; [trivial |]. cbn [map forallb].
  intros H. apply andb_true_iff in H as [H1 H2].
  rewrite (@tolower_word _ H1), (IH H2). reflexivity.
Qed.

(** X18. [true], [false] and [null] are read in any mix of upper and lower
    case. *)
Theorem parse_bool_null_any_case (w : u32string) (rest : u32_istream) :
  is_delimiter (peek rest) = true ->
  (map tolower w = U "true" ->
   parse_bool (w ++ rest) = Ok (JBoolean true, rest))
  /\ (map tolower w = U "false" ->
      parse_bool (w ++ rest) = Ok (JBoolean false, rest))
  /\ (map tolower w = U "null" -> parse_null (w ++ rest) = Ok (JNull, rest)).
Proof.
  intros Hr.
  assert (Hw : forall lit, forallb word_char lit = true ->
                           map tolower w = lit -> forallb word_char w = true).
  { intros lit Hl E. apply tolower_word_all. rewrite E. exact Hl. }
  split; [| split]; intros E.
  - rewrite (@parse_bool_word _ _ (Hw (U "true") eq_refl E) Hr), E.
    reflexivity.
  - rewrite (@parse_bool_word _ _ (Hw (U "false") eq_refl E) Hr), E.
    reflexivity.
  - rewrite (@parse_null_word _ _ (Hw (U "null") eq_refl E) Hr), E.
    reflexivity.
Qed.

Lemma parse_bool_null_any_case_witness :
  parse_bool (U "TrUe" ++ U "]") = Ok (JBoolean true, U "]")
  /\ parse_null (U "NULL" ++ U "]") = Ok (JNull, U "]").
Proof.
  destruct (@parse_bool_null_any_case (U "TrUe") (U "]") eq_refl) as (H1 & _).
  destruct (@parse_bool_null_any_case (U "NULL") (U "]") eq_refl) as (_ & _ & H2).
  split; [apply H1 | apply H2]; reflexivity.
Defined.

Lemma isdigit_integer_char c : isdigit c = true -> mem c integer_chars = true.
Proof.
  intros Hc. unfold isdigit in Hc.
  apply andb_true_iff in Hc as [H1 H2]. apply N.leb_le in H1, H2.
  assert (E : c = 48 \/ c = 49 \/ c = 50 \/ c = 51 \/ c = 52 \/ c = 53
              \/ c = 54 \/ c = 55 \/ c = 56 \/ c = 57) by lia.
  repeat destruct E as [-> | E]; try reflexivity. subst; reflexivity.
Qed.

Lemma isdigit_facts c :
  isdigit c = true -> isspace c = false /\ (c =? 45) = false /\ (c =? 43) = false.
Proof.
  intros Hc. unfold isdigit in Hc.
  apply andb_true_iff in Hc as [H1 H2]. apply N.leb_le in H1, H2.
  unfold isspace.
  destruct (N.eqb_spec c 32); [lia |].
  destruct (N.eqb_spec c 45); [lia |].
  destruct (N.eqb_spec c 43); [lia |].
  destruct (N.leb_spec 9 c), (N.leb_spec c 13); try (repeat split; reflexivity); lia.
Qed.

Lemma stoll_digits (neg : bool) ds :
  ds <> [] -> forallb isdigit ds = true ->
  stoll ((if neg then [45] else []) ++ ds)
  = let v := Z.of_N (decimal_value ds) in
    let num := if neg then (- v)%Z else v in
    if (num <? LLONG_MIN)%Z || (LLONG_MAX <? num)%Z
    then Throw (out_of_range (U "stoll"))
    else Ok (num, List.length ((if neg then [45] else []) ++ ds)).
Proof.
  intros Hn Hd. destruct ds as [| c r] eqn:Eds; [congruence |].
  rewrite <- Eds in *. 
  assert (Hc : isdigit c = true).
  { rewrite Eds in Hd. simpl in Hd. apply andb_true_iff in Hd as [Hc _]. exact Hc. }
  destruct (@isdigit_facts _ Hc) as (S1 & S2 & S3).
  assert (Hsp : span isdigit ds = (ds, [])) by (apply span_nil, Hd).
  unfold stoll, skip_isspace. destruct neg; cbn [app].
  - cbn [span]. change (isspace 45) with false. cbn [snd read_sign].
    change (45 =? 45) with true. cbv iota. rewrite Hsp.
    rewrite Eds at 1. cbv zeta. cbn [List.length]. rewrite Nat.sub_0_r.
    reflexivity.
  - rewrite Eds at 1. cbn [span]. rewrite S1. cbn [snd read_sign].
    rewrite S2, S3. rewrite <- Eds, Hsp.
    rewrite Eds at 1. cbv zeta. cbn [List.length]. rewrite Nat.sub_0_r.
    reflexivity.
Qed.

(** X19. A token of decimal digits, with or without a minus sign before
    them, is an integer when its value fits [long long]; when it does not,
    [parse_number] throws the [std::out_of_range] of [std::stoll], which is
    not a [runtime_error]. *)
Theorem integer_literal_range (ds : std_string) (rest : u32_istream) :
  ds <> [] -> forallb isdigit ds = true -> is_delimiter (peek rest) = true ->
  let n := Z.of_N (decimal_value ds) in
  ((n <= LLONG_MAX)%Z -> parse_number (ds ++ rest) = Ok (JInteger n, rest))
  /\ ((LLONG_MAX < n)%Z ->
      exists what, parse_number (ds ++ rest) = Throw (out_of_range what))
  /\ ((LLONG_MIN <= - n)%Z ->
      parse_number (45 :: ds ++ rest) = Ok (JInteger (- n), rest))
  /\ ((- n < LLONG_MIN)%Z ->
      exists what,
        parse_number (45 :: ds ++ rest) = Throw (out_of_range what)).
Proof.
  intros Hn Hd Hr n.
  assert (Hw : forallb word_char ds = true).
  { eapply forallb_impl; [| exact Hd]. apply isdigit_word_char. }
  assert (Hi : only_integer_chars ds = true).
  { unfold only_integer_chars. eapply forallb_impl; [| exact Hd].
    apply isdigit_integer_char. }
  assert (Hw' : forallb word_char (45 :: ds) = true).
  { cbn [forallb]. rewrite Hw. reflexivity. }
  assert (Hi' : only_integer_chars (45 :: ds) = true).
  { unfold only_integer_chars in *. cbn [forallb]. rewrite Hi. reflexivity. }
  pose proof (@stoll_digits false _ Hn Hd) as P. cbn [app] in P.
  pose proof (@stoll_digits true _ Hn Hd) as M. cbn [app] in M.
  cbv zeta in P, M. fold n in P, M.
  assert (Hpos : (0 <= n)%Z) by (unfold n; lia).
  unfold LLONG_MIN, LLONG_MAX in *.
  split; [| split; [| split]]; intros Hrange.
  - rewrite (@parse_number_word _ _ Hw Hr), Hi. unfold to_integer. rewrite P.
    destruct (Z.ltb_spec n (-9223372036854775808)); [lia |].
    destruct (Z.ltb_spec 9223372036854775807 n); [lia |].
    cbn [orb bind]. rewrite Nat.eqb_refl. reflexivity.
  - rewrite (@parse_number_word _ _ Hw Hr), Hi. unfold to_integer. rewrite P.
    destruct (Z.ltb_spec 9223372036854775807 n); [| lia].
    rewrite orb_true_r. eexists. reflexivity.
  - change (45 :: ds ++ rest) with ((45 :: ds) ++ rest).
    rewrite (@parse_number_word _ _ Hw' Hr), Hi'. unfold to_integer. rewrite M.
    destruct (Z.ltb_spec (- n) (-9223372036854775808)); [lia |].
    destruct (Z.ltb_spec 9223372036854775807 (- n)); [lia |].
    cbn [orb bind]. rewrite Nat.eqb_refl. reflexivity.
  - change (45 :: ds ++ rest) with ((45 :: ds) ++ rest).
    rewrite (@parse_number_word _ _ Hw' Hr), Hi'. unfold to_integer. rewrite M.
    destruct (Z.ltb_spec (- n) (-9223372036854775808)); [| lia].
    eexists. reflexivity.
Qed.

Lemma integer_literal_range_witness :
  parse_number (U "9223372036854775807" ++ U "]")
  = Ok (JInteger 9223372036854775807, U "]")
  /\ (exists what,
        parse_number (U "9223372036854775808" ++ U "]")
        = Throw (out_of_range what))
  /\ parse_number (45 :: U "9223372036854775808" ++ U "]")
     = Ok (JInteger (-9223372036854775808), U "]").
Proof.
  destruct (@integer_literal_range (U "9223372036854775807") (U "]"))
    as (H1 & _); [discriminate | reflexivity | reflexivity |].
  destruct (@integer_literal_range (U "9223372036854775808") (U "]"))
    as (_ & H2 & H3 & _); [discriminate | reflexivity | reflexivity |].
  split; [apply H1; vm_compute; discriminate |].
  split; [apply H2; vm_compute; reflexivity | apply H3; vm_compute; discriminate].
Defined.

(** ** Escapes *)




(** ** The text of an array *)

Lemma array_elements_in_order l : forall body,
  array_elements_to_string to_string l = Ok body ->
  exists values,
    Forall2 (fun x s => to_string x = Ok s) l values
    /\ body = join_comma (map c_str values).
Proof.
  induction l as [| x l IH]; intros body H.
  - simpl in H. injection H as <-. exists []. split; [constructor | reflexivity].
  - simpl in H. inv_bind H. inv_bind H. injection H as <-.
    destruct (IH _ Ha0) as (values & HF & ->).
    exists (a :: values). split; [constructor; assumption |].
    simpl. repeat f_equal. inversion HF; subst; reflexivity.
Qed.

(** X21. The text of an array is an opening bracket, the texts of its
    elements in order, each cut at its first NUL and separated from the next
    by one comma, and a closing bracket; [array_to_string] returns on an
    array what [to_string] returns. *)
Theorem array_text_in_order (l : json_array) (text : std_string) :
  to_string (JArray l) = Ok text ->
  (exists values,
     Forall2 (fun x s => to_string x = Ok s) l values
     /\ text = [91] ++ join_comma (map c_str values) ++ [93])
  /\ array_to_string (JArray l) = Ok text.
Proof.
  intros H. split.
  - rewrite to_string_array in H. inv_bind H. inv_bind H. injection H as <-.
    destruct (array_elements_in_order _ Ha0) as (values & HF & ->).
    exists values. split; [exact HF | reflexivity].
  - rewrite to_string_array in H. unfold array_to_string, get_array.
    cbn [type CHECK_TYPE_MISMATCH json_t_eqb json_t_value N.eqb Pos.eqb
         negb bind].
    destruct (copy_array l) as [l' | |] eqn:E; try discriminate.
    apply copy_array_ok in E. subst l'. exact H.
Qed.

Lemma array_text_in_order_witness :
  (exists values,
     Forall2 (fun x s => to_string x = Ok s)
       [JInteger 1; JString (U "a"); JNull] values
     /\ J "[1,'a',null]" = [91] ++ join_comma (map c_str values) ++ [93])
  /\ array_to_string (JArray [JInteger 1; JString (U "a"); JNull])
     = Ok (J "[1,'a',null]").
Proof.
  apply (@array_text_in_order [JInteger 1; JString (U "a"); JNull]).
  reflexivity.
Defined.

(** ** The kind of a parsed value *)

Lemma parse_string_kind s v s' :
  parse_string s = Ok (v, s') -> type v = t_string.
Proof.
  unfold parse_string. intros H. inv_bind H. inv_bind H.
  destruct a0 as [x r]. inv_bind H. inv_bind H. injection H as <- _.
  reflexivity.
Qed.

Lemma parse_number_kind s v s' :
  parse_number s = Ok (v, s') ->
  type v = t_number_integer \/ type v = t_number_double.
Proof.
  unfold parse_number. destruct (token_loop (fun c => c) [] s) as [t r].
  intros H. inv_bind H.
  destruct (find_first_not_of integer_chars (trim a)); inv_bind H;
    injection H as <- _; [right | left]; reflexivity.
Qed.

Lemma parse_bool_kind s v s' :
  parse_bool s = Ok (v, s') -> type v = t_boolean.
Proof.
  unfold parse_bool. destruct (token_loop tolower [] s) as [t r].
  intros H. inv_bind H. inv_bind H. injection H as <- _. reflexivity.
Qed.

Lemma parse_null_kind s v s' :
  parse_null s = Ok (v, s') -> type v = t_null.
Proof.
  unfold parse_null. destruct (token_loop tolower [] s) as [t r].
  intros H. inv_bind H.
  destruct (string_eqb (trim a) (U "null")); [| discriminate].
  injection H as <- _. reflexivity.
Qed.

(** X22. The first code point after the white space decides the kind of the
    value that [parse_value] returns: a double quote gives a string, an
    opening bracket an array, an opening brace an object, a digit, a minus
    sign or a point a number, [t], [T], [f] or [F] a boolean, and [n] or [N]
    null. *)
Theorem parse_value_kind (fuel : nat) (strm rest : u32_istream) (v : json) :
  parse_value fuel strm = Ok (v, rest) ->
  let c := fst (peek_next_non_space strm) in
  (c = 34 /\ type v = t_string)
  \/ (c = 91 /\ type v = t_array)
  \/ (c = 123 /\ type v = t_object)
  \/ ((isdigit c = true \/ c = 45 \/ c = 46)
      /\ (type v = t_number_integer \/ type v = t_number_double))
  \/ ((c = 84 \/ c = 116 \/ c = 70 \/ c = 102) /\ type v = t_boolean)
  \/ ((c = 110 \/ c = 78) /\ type v = t_null).
Proof.
  destruct fuel as [| fuel]; [discriminate |].
  rewrite parse_value_S. unfold peek_next_non_space. cbn [fst].
  set (c := peek (skip_space strm)). intros H.
  destruct (N.eqb_spec c 34) as [E | _].
  { left. split; [exact E | exact (@parse_string_kind _ _ _ H)]. }
  destruct (N.eqb_spec c 91) as [E | _].
  { right; left. split; [exact E |].
    destruct (@parse_array_kind _ _ _ _ H) as [l ->]. reflexivity. }
  destruct (isdigit c || (c =? 45) || (c =? 46)) eqn:En.
  { right; right; right; left. split; [| exact (@parse_number_kind _ _ _ H)].
    apply orb_true_iff in En as [En | En];
      [apply orb_true_iff in En as [En | En] |].
    - left. exact En.
    - right; left. apply N.eqb_eq, En.
    - right; right. apply N.eqb_eq, En. }
  destruct (N.eqb_spec c 123) as [E | _].
  { right; right; left. split; [exact E |].
    apply (parser_parsed _) in H. destruct H as [_ [m ->]]. reflexivity. }
  destruct ((c =? 84) || (c =? 116) || (c =? 70) || (c =? 102)) eqn:Eb.
  { right; right; right; right; left.
    split; [| exact (@parse_bool_kind _ _ _ H)].
    repeat (apply orb_true_iff in Eb as [Eb | Eb]);
      apply N.eqb_eq in Eb; auto. }
  destruct ((c =? 110) || (c =? 78)) eqn:Eu; [| discriminate].
  right; right; right; right; right.
  split; [| exact (@parse_null_kind _ _ _ H)].
  apply orb_true_iff in Eu as [Eu | Eu]; apply N.eqb_eq in Eu; auto.
Qed.

Lemma parse_value_kind_witness :
  (84 = 34 /\ type (JBoolean true) = t_string)
  \/ (84 = 91 /\ type (JBoolean true) = t_array)
  \/ (84 = 123 /\ type (JBoolean true) = t_object)
  \/ ((isdigit 84 = true \/ 84 = 45 \/ 84 = 46)
      /\ (type (JBoolean true) = t_number_integer
          \/ type (JBoolean true) = t_number_double))
  \/ ((84 = 84 \/ 84 = 116 \/ 84 = 70 \/ 84 = 102)
      /\ type (JBoolean true) = t_boolean)
  \/ ((84 = 110 \/ 84 = 78) /\ type (JBoolean true) = t_null).
Proof.
  apply (@parse_value_kind 3 (U "  True ,") (U ",") (JBoolean true)).
  vm_compute. reflexivity.
Defined.

(** ** The exceptions of [parse] *)

Lemma bind_throw (A B : Type) (r : result A) (k : A -> result B) e :
  bind r k = Throw e -> r = Throw e \/ exists a, r = Ok a /\ k a = Throw e.
Proof.
  destruct r as [a | e' |]; simpl; intros H;
    [right; eauto | left; injection H as ->; reflexivity | discriminate].
Qed.

Ltac inv_throw H :=
  let a := fresh "a" in
  let Ha := fresh "Ha" in
  apply bind_throw in H; destruct H as [H | [a [Ha H]]].

Lemma parse_error_text what :
  In what parse_error_texts -> parse_error (runtime_error what).
Proof. intros H. left. exact H. Qed.

Ltac pe_text := apply parse_error_text; unfold parse_error_texts; cbn [In]; auto 20.

Lemma skip_char_error s c e : skip_char s c = Throw e -> parse_error e.
Proof.
  unfold skip_char.
  destruct (negb (peek (skip_space s) =? c) || (peek (skip_space s) =? EOF));
    [| discriminate].
  intros H. injection H as <-. right; left. exists c. reflexivity.
Qed.

Lemma U32ToU8_error u e : U32ToU8 u = Throw e -> parse_error e.
Proof.
  unfold U32ToU8. destruct (forallb _ u); [discriminate |].
  intros H. injection H as <-. right; right.
  exists (U "wstring_convert::to_bytes"). reflexivity.
Qed.

Lemma parse_hex_loop_error i : forall cs s e,
  parse_hex_loop i cs s = Throw e -> parse_error e.
Proof.
  induction i as [| i IH]; intros cs s e; cbn [parse_hex_loop];
    [discriminate |].
  destruct (get s) as [c s1].
  destruct (negb (c =? EOF) && isxdigit c); [apply IH |].
  intros H. injection H as <-. pe_text.
Qed.

Lemma escape_char_error s e : escape_char s = Throw e -> parse_error e.
Proof.
  unfold escape_char. intros H. inv_throw H;
    [exact (@skip_char_error _ _ _ H) |].
  destruct (get a) as [c s1].
  repeat match type of H with
         | (if ?b then Ok _ else _) = _ => destruct b; [discriminate |]
         end.
  destruct (c =? 117).
  - unfold parse_hex in H. inv_throw H;
      [exact (@parse_hex_loop_error _ _ _ _ H) | destruct a0; discriminate].
  - injection H as <-. pe_text.
Qed.

Lemma quoted_loop_error fuel : forall val s e,
  quoted_loop fuel val s = Throw e -> parse_error e.
Proof.
  induction fuel as [| fuel IH]; intros val s e; cbn [quoted_loop];
    destruct (negb (peek s =? EOF) && negb (peek s =? 34)); try discriminate.
  destruct (peek s =? 92).
  - intros H. inv_throw H; [exact (@escape_char_error _ _ H) |].
    destruct a as [x r]. exact (IH _ _ _ H).
  - destruct (get s) as [c r]. apply IH.
Qed.

Lemma parse_member_error s e : parse_member s = Throw e -> parse_error e.
Proof.
  unfold parse_member. intros H.
  inv_throw H; [exact (@skip_char_error _ _ _ H) |].
  inv_throw H; [exact (@quoted_loop_error _ _ _ _ H) |].
  destruct a0 as [x r].
  inv_throw H; [exact (@skip_char_error _ _ _ H) |].
  inv_throw H; [exact (@U32ToU8_error _ _ H) | discriminate].
Qed.

Lemma parse_string_error s e : parse_string s = Throw e -> parse_error e.
Proof.
  unfold parse_string. intros H.
  inv_throw H; [exact (@skip_char_error _ _ _ H) |].
  inv_throw H; [exact (@quoted_loop_error _ _ _ _ H) |].
  destruct a0 as [x r].
  inv_throw H; [exact (@skip_char_error _ _ _ H) |].
  inv_throw H; [exact (@U32ToU8_error _ _ H) | discriminate].
Qed.

Lemma to_integer_error str e : to_integer str = Throw e -> parse_error e.
Proof.
  unfold to_integer. intros H. inv_throw H.
  - unfold stoll in H.
    destruct (read_sign (skip_isspace str)) as [neg s].
    destruct (span isdigit s) as [digits rest].
    destruct digits; [injection H as <-; exact I |].
    match type of H with
    | (if ?b then _ else _) = _ => destruct b
    end; [injection H as <-; exact I | discriminate].
  - destruct a as [num pos].
    destruct (negb (Nat.eqb pos (List.length str))); [| discriminate].
    injection H as <-. pe_text.
Qed.

Lemma to_double_error str e : to_double str = Throw e -> parse_error e.
Proof.
  unfold to_double. intros H. inv_throw H.
  - unfold stod in H.
    destruct (read_sign (skip_isspace str)) as [neg s].
    destruct (read_number_form s) as [[f rest] |];
      [| injection H as <-; exact I].
    destruct (form_out_of_range f (form_magnitude f));
      [injection H as <-; exact I | discriminate].
  - destruct a as [num pos].
    destruct (negb (Nat.eqb pos (List.length str))); [| discriminate].
    injection H as <-. pe_text.
Qed.

Lemma parse_number_error s e : parse_number s = Throw e -> parse_error e.
Proof.
  unfold parse_number. destruct (token_loop (fun c => c) [] s) as [t r].
  intros H. inv_throw H; [exact (@U32ToU8_error _ _ H) |].
  destruct (find_first_not_of integer_chars (trim a)); inv_throw H;
    try discriminate;
    [exact (@to_double_error _ _ H) | exact (@to_integer_error _ _ H)].
Qed.

Lemma parse_bool_error s e : parse_bool s = Throw e -> parse_error e.
Proof.
  unfold parse_bool. destruct (token_loop tolower [] s) as [t r].
  intros H. inv_throw H; [exact (@U32ToU8_error _ _ H) |].
  inv_throw H; [| discriminate].
  unfold to_bool in H.
  destruct (string_eqb (map tolower (trim a)) (U "true")); [discriminate |].
  destruct (string_eqb (map tolower (trim a)) (U "false")); [discriminate |].
  injection H as <-. pe_text.
Qed.

Lemma parse_null_error s e : parse_null s = Throw e -> parse_error e.
Proof.
  unfold parse_null. destruct (token_loop tolower [] s) as [t r].
  intros H. inv_throw H; [exact (@U32ToU8_error _ _ H) |].
  destruct (string_eqb (trim a) (U "null")); [discriminate |].
  injection H as <-. pe_text.
Qed.

Lemma parsed_copy_array l : Forall parsed l -> copy_array l = Ok l.
Proof.
  intros H. apply parsed_array in H. apply copy_array_no_invalid.
  exact (proj1 H).
Qed.

Lemma parser_errors fuel :
  (forall s e, parse_value fuel s = Throw e -> parse_error e) /\
  (forall s e, parse_array fuel s = Throw e -> parse_error e) /\
  (forall acc s e, Forall parsed acc ->
                   parse_array_loop fuel acc s = Throw e -> parse_error e) /\
  (forall s e, parse_object fuel s = Throw e -> parse_error e) /\
  (forall o s e, parsed o -> (exists m, o = JObject m) ->
                 parse_object_loop fuel o s = Throw e -> parse_error e).
Proof.
  induction fuel as [| fuel (IHv & IHa & IHal & IHo & IHol)].
  - split; [| split; [| split; [| split]]]; try (intros; discriminate).
    intros o s e _ _ H. rewrite parse_object_loop_eqn in H.
    unfold peek_next_non_space in H.
    destruct (negb (peek (skip_space s) =? EOF)); discriminate.
  - destruct (parser_parsed fuel) as (Pv & Pa & Pal & Po & Pol).
    split; [| split; [| split; [| split]]].
    + intros s e H. rewrite parse_value_S in H.
      unfold peek_next_non_space in H.
      destruct (peek (skip_space s) =? 34);
        [exact (@parse_string_error _ _ H) |].
      destruct (peek (skip_space s) =? 91); [exact (IHa _ _ H) |].
      destruct (isdigit (peek (skip_space s)) || (peek (skip_space s) =? 45)
                || (peek (skip_space s) =? 46));
        [exact (@parse_number_error _ _ H) |].
      destruct (peek (skip_space s) =? 123); [exact (IHo _ _ H) |].
      destruct ((peek (skip_space s) =? 84) || (peek (skip_space s) =? 116)
                || (peek (skip_space s) =? 70) || (peek (skip_space s) =? 102));
        [exact (@parse_bool_error _ _ H) |].
      destruct ((peek (skip_space s) =? 110) || (peek (skip_space s) =? 78));
        [exact (@parse_null_error _ _ H) |].
      injection H as <-. pe_text.
    + intros s e H. rewrite parse_array_S in H.
      inv_throw H; [exact (@skip_char_error _ _ _ H) |].
      unfold peek_next_non_space in H.
      destruct (peek (skip_space a) =? 93).
      * inv_throw H; [exact (@skip_char_error _ _ _ H) | discriminate].
      * inv_throw H; [exact (IHal _ _ _ (Forall_nil _) H) |].
        destruct a0 as [l r].
        inv_throw H; [exact (@skip_char_error _ _ _ H) |].
        rewrite (parsed_copy_array (Pal _ _ _ _ (Forall_nil _) Ha0)) in H.
        discriminate.
    + intros acc s e Hacc H. rewrite parse_array_loop_S in H.
      inv_throw H; [exact (IHv _ _ H) |].
      destruct a as [elem r].
      pose proof (Pv _ _ _ Ha) as Pe.
      rewrite (@copy_no_invalid _ (proj1 Pe)) in H. cbn [bind] in H.
      assert (Hacc' : Forall parsed (acc ++ [elem])).
      { apply Forall_app. split; [exact Hacc | constructor; [exact Pe | constructor]]. }
      unfold peek_next_non_space in H.
      destruct (peek (skip_space r) =? 44).
      * inv_throw H; [exact (@skip_char_error _ _ _ H) |].
        exact (IHal _ _ _ Hacc' H).
      * destruct (peek (skip_space r) =? 93); [discriminate |].
        destruct (negb (peek (skip_space r) =? EOF)); [| discriminate].
        exact (IHal _ _ _ Hacc' H).
    + intros s e H. rewrite parse_object_S in H.
      inv_throw H; [exact (@skip_char_error _ _ _ H) |].
      assert (P0 : parsed (JObject [])) by (split; reflexivity).
      inv_throw H; [exact (IHol _ _ _ P0 (ex_intro _ [] eq_refl) H) |].
      destruct a0 as [o r].
      inv_throw H; [exact (@skip_char_error _ _ _ H) | discriminate].
    + intros o s e Ho Hm H. rewrite parse_object_loop_eqn in H.
      unfold peek_next_non_space in H.
      destruct (negb (peek (skip_space s) =? EOF)); [| discriminate].
      destruct (peek (skip_space s) =? 34).
      * inv_throw H; [exact (@parse_member_error _ _ H) |].
        destruct a as [member r].
        inv_throw H; [exact (@skip_char_error _ _ _ H) |].
        inv_throw H; [exact (IHv _ _ H) |].
        destruct a0 as [mv r2].
        pose proof (Pv _ _ _ Ha1) as Pm.
        destruct Hm as [m ->].
        rewrite (@add_member_object m member mv (proj1 Pm)) in H.
        cbn [bind] in H.
        refine (IHol _ _ _ _ (ex_intro _ _ eq_refl) H).
        apply (@parsed_add_member (JObject m) member mv);
          [exact Ho | exact Pm | apply add_member_object, Pm].
      * destruct (peek (skip_space s) =? 125); [discriminate |].
        destruct (peek (skip_space s) =? 44).
        -- destruct (get_next_non_space (skip_space s)) as [c r].
           exact (IHol _ _ _ Ho Hm H).
        -- injection H as <-. pe_text.
Qed.

(** X23. Every exception of [parse] is a [runtime_error] with one of nine
    fixed texts, with the text of [skip_char] ("expected char ... not
    found") or with the text of [U32ToU8], or it is an exception of
    [std::stoll] or [std::stod]: [parse] of a lone minus sign in brackets
    throws [std::invalid_argument] and [parse] of a twenty-digit integer
    throws [std::out_of_range], neither of which is a [runtime_error]. No
    exception of the value class (type mismatch, invalid tag) leaves
    [parse]. *)
Theorem parse_errors (s : u32string) (e : exception) :
  (parse s = Throw e -> parse_error e)
  /\ (exists what, parse (U "[-]") = Throw (invalid_argument what))
  /\ (exists what,
        parse (U "[99999999999999999999]") = Throw (out_of_range what)).
Proof.
  split; [| split; eexists; vm_compute; reflexivity].
  unfold parse, peek_next_non_space. intros H. inv_throw H.
  - destruct (peek (skip_space s) =? 123);
      [exact (proj1 (proj2 (proj2 (proj2 (parser_errors _)))) _ _ H) |].
    destruct (peek (skip_space s) =? 91);
      [exact (proj1 (proj2 (parser_errors _)) _ _ H) |].
    injection H as <-. pe_text.
  - destruct a as [v r].
    destruct (negb (peek (skip_space r) =? EOF)); [| discriminate].
    injection H as <-. pe_text.
Qed.

Lemma parse_errors_witness :
  parse_error (runtime_error (U "expected char '" ++ [93] ++ U "' not found")).
Proof.
  destruct (parse_errors (U "[1, 2")
              (runtime_error (U "expected char '" ++ [93] ++ U "' not found")))
    as [H _].
  apply H. vm_compute. reflexivity.
Defined.

(** ** White space after a scalar *)

Lemma token_loop_nondelim f s : forall acc rest,
  forallb (fun c => negb (is_delimiter c)) s = true ->
  is_delimiter (peek rest) = true ->
  token_loop f acc (s ++ rest) = (acc ++ map f s, rest).
Proof.
  induction s as [| c s IH]; intros acc rest Hs Hr.
  - simpl. rewrite app_nil_r. destruct rest as [| r rest]; [reflexivity |].
    simpl in Hr |- *. rewrite token_loop_guard, Hr. reflexivity.
  - simpl in Hs. apply andb_true_iff in Hs as [Hc Hs].
    simpl. rewrite token_loop_guard, Hc.
    rewrite (IH _ _ Hs Hr), <- app_assoc. reflexivity.
Qed.

Lemma ws_char_facts c :
  mem c default_whitespace = true ->
  is_delimiter c = false /\ (c <=? 1114111) = true /\ tolower c = c.
Proof.
  unfold mem, default_whitespace. cbn [existsb]. intros H.
  assert (E : c = 32 \/ c = 9 \/ c = 13 \/ c = 10).
  { repeat (apply orb_true_iff in H as [H | H]);
      try (apply N.eqb_eq in H; auto). discriminate. }
  repeat destruct E as [-> | E]; try (repeat split; reflexivity).
  subst. repeat split; reflexivity.
Qed.

Lemma word_tolower c : word_char c = true -> word_char (tolower c) = true.
Proof.
  intros H. unfold tolower.
  destruct ((65 <=? c) && (c <=? 90)) eqn:E; [| exact H].
  apply andb_true_iff in E as [E1 E2]. apply N.leb_le in E1, E2.
  unfold word_char, isalnum, isdigit.
  destruct (N.leb_spec 97 (c + 32)), (N.leb_spec (c + 32) 122); lia.
Qed.

Lemma find_last_not_of_all_in set ws :
  all_in set ws = true -> find_last_not_of set ws = None.
Proof.
  unfold all_in. induction ws as [| c ws IH]; cbn [forallb find_last_not_of];
    [reflexivity |].
  intros H. apply andb_true_iff in H as [Hc Hs]. rewrite (IH Hs), Hc.
  reflexivity.
Qed.

Lemma find_last_not_of_app_ws set w ws :
  all_in set ws = true ->
  find_last_not_of set (w ++ ws) = find_last_not_of set w.
Proof.
  intros H. induction w as [| c w IH]; cbn [app find_last_not_of].
  - apply find_last_not_of_all_in, H.
  - rewrite IH. reflexivity.
Qed.

Lemma trim_app_ws w ws :
  forallb word_char w = true -> all_in default_whitespace ws = true ->
  trim (w ++ ws) = w.
Proof.
  intros Hw Hs. destruct w as [| c w].
  - cbn [app]. unfold trim.
    replace (find_first_not_of default_whitespace ws) with (@None nat);
      [reflexivity |].
    symmetry. apply find_first_not_of_none. exact Hs.
  - assert (Hn : forallb (fun c => negb (mem c default_whitespace)) (c :: w)
                 = true).
    { eapply forallb_impl; [| exact Hw]. intros x Hx.
      destruct (@word_char_facts _ Hx) as (_ & Hm & _). rewrite Hm.
      reflexivity. }
    unfold trim. cbn [app]. rewrite find_first_not_of_head.
    + change (c :: w ++ ws) with ((c :: w) ++ ws).
      rewrite (@find_last_not_of_app_ws _ _ _ Hs).
      rewrite find_last_not_of_all by (congruence || exact Hn).
      unfold substr. cbn [skipn].
      replace (List.length (c :: w) - 1 - 0 + 1)%nat
        with (List.length (c :: w) + 0)%nat by (simpl; lia).
      rewrite firstn_app_2. cbn [firstn]. apply app_nil_r.
    + simpl in Hn. apply andb_true_iff in Hn as [Hc _].
      apply negb_true_iff in Hc. exact Hc.
Qed.

Lemma token_with_space f w ws rest :
  forallb word_char w = true -> all_in default_whitespace ws = true ->
  is_delimiter (peek rest) = true ->
  token_loop f [] (w ++ ws ++ rest) = (map f w ++ map f ws, rest).
Proof.
  intros Hw Hs Hr. rewrite app_assoc.
  rewrite token_loop_nondelim; [rewrite map_app; reflexivity | | exact Hr].
  rewrite forallb_app. apply andb_true_iff. split.
  - eapply forallb_impl; [| exact Hw]. intros x Hx.
    destruct (@word_char_facts _ Hx) as (Hd & _). rewrite Hd. reflexivity.
  - eapply forallb_impl; [| exact Hs]. intros x Hx.
    destruct (@ws_char_facts _ Hx) as (Hd & _). rewrite Hd. reflexivity.
Qed.

Lemma U32ToU8_word_space w ws :
  forallb word_char w = true -> all_in default_whitespace ws = true ->
  U32ToU8 (w ++ ws) = Ok (w ++ ws).
Proof.
  intros Hw Hs. unfold U32ToU8.
  match goal with
  | |- (if ?b then _ else _) = _ => replace b with true; [reflexivity |]
  end.
  symmetry. rewrite forallb_app. apply andb_true_iff. split.
  - eapply forallb_impl; [| exact Hw]. intros x Hx.
    apply (@word_char_facts x Hx).
  - eapply forallb_impl; [| exact Hs]. intros x Hx.
    apply (@ws_char_facts x Hx).
Qed.

Lemma map_tolower_ws ws :
  all_in default_whitespace ws = true -> map tolower ws = ws.
Proof.
  unfold all_in. induction ws as [| c ws IH]; cbn [forallb map]; [reflexivity |].
  intros H. apply andb_true_iff in H as [Hc Hs].
  destruct (@ws_char_facts _ Hc) as (_ & _ & ->). rewrite (IH Hs). reflexivity.
Qed.

(** X24. Spaces, tabs, carriage returns and newlines between a number,
    [true], [false] or [null] and the delimiter that follows are dropped by
    [trim]: the scalar is read as if the delimiter followed it at once. *)
Theorem scalar_trailing_space (w ws : std_string) (rest : u32_istream) :
  forallb word_char w = true -> all_in default_whitespace ws = true ->
  is_delimiter (peek rest) = true ->
  parse_number (w ++ ws ++ rest) = parse_number (w ++ rest)
  /\ parse_bool (w ++ ws ++ rest) = parse_bool (w ++ rest)
  /\ parse_null (w ++ ws ++ rest) = parse_null (w ++ rest).
Proof.
  intros Hw Hs Hr.
  assert (Hl : forallb word_char (map tolower w) = true).
  { clear -Hw. induction w as [| c w IH]; [reflexivity |].
    cbn [map forallb] in *. apply andb_true_iff in Hw as [Hc Hw].
    rewrite (word_tolower _ Hc), (IH Hw). reflexivity. }
  split; [| split].
  - rewrite (@parse_number_word _ _ Hw Hr), parse_number_eqn.
    rewrite (@token_with_space _ _ _ _ Hw Hs Hr). cbn [fst snd].
    rewrite !map_id, (@U32ToU8_word_space _ _ Hw Hs). cbn [bind].
    rewrite (@trim_app_ws _ _ Hw Hs). reflexivity.
  - rewrite (@parse_bool_word _ _ Hw Hr). unfold parse_bool.
    rewrite (@token_with_space _ _ _ _ Hw Hs Hr).
    rewrite (@map_tolower_ws _ Hs), (@U32ToU8_word_space _ _ Hl Hs).
    rewrite (@U32ToU8_word _ Hl). cbn [bind].
    rewrite (@trim_app_ws _ _ Hl Hs), (@trim_word _ Hl). reflexivity.
  - rewrite (@parse_null_word _ _ Hw Hr). unfold parse_null.
    rewrite (@token_with_space _ _ _ _ Hw Hs Hr).
    rewrite (@map_tolower_ws _ Hs), (@U32ToU8_word_space _ _ Hl Hs).
    rewrite (@U32ToU8_word _ Hl). cbn [bind].
    rewrite (@trim_app_ws _ _ Hl Hs), (@trim_word _ Hl). reflexivity.
Qed.

Lemma scalar_trailing_space_witness :
  parse_number (U "12" ++ [32; 10] ++ U "]") = parse_number (U "12" ++ U "]")
  /\ parse_bool (U "true" ++ [32; 10] ++ U "]") = parse_bool (U "true" ++ U "]")
  /\ parse_null (U "null" ++ [32; 10] ++ U "]") = parse_null (U "null" ++ U "]").
Proof.
  split; [| split].
  - apply (@scalar_trailing_space (U "12") [32; 10] (U "]")); reflexivity.
  - apply (@scalar_trailing_space (U "true") [32; 10] (U "]")); reflexivity.
  - apply (@scalar_trailing_space (U "null") [32; 10] (U "]")); reflexivity.
Defined.

(** ** What follows a value *)

Lemma skip_space_frame s t :
  skip_space s <> [] -> skip_space (s ++ t) = skip_space s ++ t.
Proof.
  induction s as [| c s IH]; cbn [skip_space app]; [congruence |].
  destruct (negb (c =? EOF) && isspace c); [exact IH | reflexivity].
Qed.

Lemma skip_char_frame s e s' t :
  skip_char s e = Ok s' -> skip_char (s ++ t) e = Ok (s' ++ t).
Proof.
  intros H. pose proof (@skip_char_ok _ _ _ H) as [E Hn].
  unfold skip_char in *.
  rewrite skip_space_frame by (rewrite E; discriminate).
  rewrite E in *. cbn [app peek get snd] in *.
  destruct (negb (e =? e) || (e =? EOF)); [discriminate | reflexivity].
Qed.

Lemma skip_char_nonempty s e s' : skip_char s e = Ok s' -> s <> [].
Proof.
  intros H. apply skip_char_ok in H as [E _]. intros ->. discriminate.
Qed.

Lemma parse_hex_loop_frame i : forall cs s cs' r t,
  parse_hex_loop i cs s = Ok (cs', r) ->
  parse_hex_loop i cs (s ++ t) = Ok (cs', r ++ t).
Proof.
  induction i as [| i IH]; intros cs s cs' r t; cbn [parse_hex_loop].
  - intros H. injection H as <- <-. reflexivity.
  - destruct s as [| c s]; cbn [get app]; [discriminate |].
    destruct (negb (c =? EOF) && isxdigit c); [apply IH | discriminate].
Qed.

Lemma escape_char_frame s c r t :
  escape_char s = Ok (c, r) -> escape_char (s ++ t) = Ok (c, r ++ t).
Proof.
  unfold escape_char. intros H. inv_bind H.
  rewrite (@skip_char_frame _ _ _ t Ha). cbn [bind].
  destruct a as [| x a]; cbn [get app] in *; [discriminate |].
  repeat match type of H with
         | (if ?b then Ok _ else _) = _ =>
             destruct b; [injection H as <- <-; reflexivity |]
         end.
  destruct (x =? 117); [| discriminate].
  unfold parse_hex in *. inv_bind H. destruct a0 as [cs r0].
  injection H as <- <-.
  rewrite (@parse_hex_loop_frame _ _ _ _ _ t Ha0). reflexivity.
Qed.

Lemma quoted_loop_eqn fuel val strm :
  quoted_loop fuel val strm
  = if negb (peek strm =? EOF) && negb (peek strm =? 34) then
      match fuel with
      | O => OutOfFuel
      | S fuel' =>
          if peek strm =? 92 then
            '(e, strm) <- escape_char strm ;;
            quoted_loop fuel' (val ++ [e]) strm
          else
            let (c, strm) := get strm in
            quoted_loop fuel' (val ++ [c]) strm
      end
    else Ok (val, strm).
Proof. destruct fuel; reflexivity. Qed.

Lemma quoted_loop_frame fuel : forall fuel' val s val' r t,
  quoted_loop fuel val s = Ok (val', r) -> r <> [] -> (fuel <= fuel')%nat ->
  quoted_loop fuel' val (s ++ t) = Ok (val', r ++ t).
Proof.
  induction fuel as [| fuel IH]; intros fuel' val s val' r t H Hr Hf;
    rewrite quoted_loop_eqn in H; rewrite quoted_loop_eqn.
  - destruct s as [| c s]; [cbn [peek] in H; injection H as <- <-; congruence |].
    cbn [app peek] in *.
    destruct (negb (c =? EOF) && negb (c =? 34)); [discriminate |].
    injection H as <- <-. reflexivity.
  - destruct s as [| c s]; [cbn [peek] in H; injection H as <- <-; congruence |].
    cbn [app peek] in *.
    destruct (negb (c =? EOF) && negb (c =? 34));
      [| injection H as <- <-; reflexivity].
    destruct fuel' as [| fuel']; [lia |].
    destruct (c =? 92).
    + inv_bind H. destruct a as [e r0].
      change (c :: s ++ t) with ((c :: s) ++ t).
      rewrite (@escape_char_frame _ _ _ t Ha). cbn [bind].
      apply IH; [exact H | exact Hr | lia].
    + cbn [get] in *. apply IH; [exact H | exact Hr | lia].
Qed.

Lemma parse_string_frame s v r t :
  parse_string s = Ok (v, r) -> parse_string (s ++ t) = Ok (v, r ++ t).
Proof.
  unfold parse_string. intros H. inv_bind H. inv_bind H.
  destruct a0 as [val r1]. inv_bind H. inv_bind H. injection H as <- <-.
  rewrite (@skip_char_frame _ _ _ t Ha). cbn [bind].
  rewrite (@quoted_loop_frame _ (List.length (a ++ t)) _ _ _ _ t Ha0
             (@skip_char_nonempty _ _ _ Ha1)) by (rewrite length_app; lia).
  cbn [bind]. rewrite (@skip_char_frame _ _ _ t Ha1). cbn [bind].
  rewrite Ha2. reflexivity.
Qed.

Lemma parse_member_frame s k r t :
  parse_member s = Ok (k, r) -> parse_member (s ++ t) = Ok (k, r ++ t).
Proof.
  unfold parse_member. intros H. inv_bind H. inv_bind H.
  destruct a0 as [val r1]. inv_bind H. inv_bind H. injection H as <- <-.
  rewrite (@skip_char_frame _ _ _ t Ha). cbn [bind].
  rewrite (@quoted_loop_frame _ (List.length (a ++ t)) _ _ _ _ t Ha0
             (@skip_char_nonempty _ _ _ Ha1)) by (rewrite length_app; lia).
  cbn [bind]. rewrite (@skip_char_frame _ _ _ t Ha1). cbn [bind].
  rewrite Ha2. reflexivity.
Qed.

Lemma token_loop_frame f s : forall acc tok r t,
  token_loop f acc s = (tok, r) -> r <> [] ->
  token_loop f acc (s ++ t) = (tok, r ++ t).
Proof.
  induction s as [| c s IH]; intros acc tok r t; cbn [token_loop app].
  - intros H. injection H as <- <-. congruence.
  - destruct (negb (c =? EOF) && negb (c =? 44) && negb (c =? 125)
              && negb (c =? 93)); [apply IH |].
    intros H _. injection H as <- <-. reflexivity.
Qed.

Lemma parse_number_frame s v r t :
  parse_number s = Ok (v, r) -> r <> [] ->
  parse_number (s ++ t) = Ok (v, r ++ t).
Proof.
  unfold parse_number.
  destruct (token_loop (fun c => c) [] s) as [tok r0] eqn:E. intros H Hr.
  assert (r0 = r).
  { inv_bind H. destruct (find_first_not_of integer_chars (trim a));
      inv_bind H; injection H as _ <-; reflexivity. }
  subst r0. rewrite (@token_loop_frame _ _ _ _ _ t E Hr).
  destruct (U32ToU8 tok) as [u8 | |]; try discriminate. cbn [bind] in *.
  destruct (find_first_not_of integer_chars (trim u8)); inv_bind H;
    injection H as <-; rewrite Ha; reflexivity.
Qed.

Lemma parse_bool_frame s v r t :
  parse_bool s = Ok (v, r) -> r <> [] ->
  parse_bool (s ++ t) = Ok (v, r ++ t).
Proof.
  unfold parse_bool.
  destruct (token_loop tolower [] s) as [tok r0] eqn:E. intros H Hr.
  inv_bind H. inv_bind H. injection H as <- <-.
  rewrite (@token_loop_frame _ _ _ _ _ t E Hr), Ha. cbn [bind]. rewrite Ha0.
  reflexivity.
Qed.

Lemma parse_null_frame s v r t :
  parse_null s = Ok (v, r) -> r <> [] ->
  parse_null (s ++ t) = Ok (v, r ++ t).
Proof.
  unfold parse_null.
  destruct (token_loop tolower [] s) as [tok r0] eqn:E. intros H Hr.
  inv_bind H.
  destruct (string_eqb (trim a) (U "null")) eqn:En; [| discriminate].
  injection H as <- <-.
  rewrite (@token_loop_frame _ _ _ _ _ t E Hr), Ha. cbn [bind].
  rewrite En. reflexivity.
Qed.

Lemma peek_app s t : s <> [] -> peek (s ++ t) = peek s.
Proof. destruct s; [congruence | reflexivity]. Qed.

Lemma peek_not_EOF_nonempty s c : peek s = c -> c <> EOF -> s <> [].
Proof. intros H Hc ->. apply Hc. symmetry. exact H. Qed.

Lemma skip_space_nonempty s : skip_space s <> [] -> s <> [].
Proof. intros H ->. apply H. reflexivity. Qed.

Lemma parse_value_nonempty fuel s v r :
  parse_value fuel s = Ok (v, r) -> skip_space s <> [].
Proof.
  destruct fuel as [| fuel]; [discriminate |].
  rewrite parse_value_S. unfold peek_next_non_space. intros H Hs.
  rewrite Hs in H. simpl in H. discriminate.
Qed.

Lemma parse_array_loop_nonempty fuel acc s l r :
  parse_array_loop fuel acc s = Ok (l, r) -> skip_space s <> [].
Proof.
  destruct fuel as [| fuel]; [discriminate |].
  rewrite parse_array_loop_S. intros H. inv_bind H. destruct a as [elem r1].
  exact (@parse_value_nonempty _ _ _ _ Ha).
Qed.

Lemma parse_object_loop_nil fuel o v r :
  parse_object_loop fuel o [] = Ok (v, r) -> r = [].
Proof.
  rewrite parse_object_loop_eqn. simpl. intros H. injection H as _ <-.
  reflexivity.
Qed.

Lemma object_loop_frame fuel :
  (forall s v r t, parse_value fuel s = Ok (v, r) ->
     r <> [] \/ type v = t_string \/ type v = t_array \/ type v = t_object ->
     parse_value fuel (s ++ t) = Ok (v, r ++ t)) ->
  (forall o s v r t, parse_object_loop fuel o s = Ok (v, r) ->
     skip_space r <> [] ->
     parse_object_loop fuel o (s ++ t) = Ok (v, r ++ t)) ->
  forall o s v r t, parse_object_loop (S fuel) o s = Ok (v, r) ->
     skip_space r <> [] ->
     parse_object_loop (S fuel) o (s ++ t) = Ok (v, r ++ t).
Proof.
  intros IHv IHol o s v r t H Hr.
  rewrite parse_object_loop_eqn in H. rewrite parse_object_loop_eqn.
  unfold peek_next_non_space in *.
  destruct (skip_space s) as [| x rest] eqn:Es.
  { simpl in H. injection H as _ <-. contradiction Hr. reflexivity. }
  assert (Hidem : skip_space (x :: rest) = x :: rest).
  { rewrite <- Es. apply skip_space_idem. }
  rewrite skip_space_frame by (rewrite Es; discriminate).
  rewrite Es. cbn [app peek] in *.
  destruct (negb (x =? EOF)); [| injection H as <- <-; reflexivity].
  destruct (x =? 34).
  - inv_bind H. destruct a as [member r1]. inv_bind H. inv_bind H.
    destruct a0 as [mv r3]. inv_bind H.
    change (x :: rest ++ t) with ((x :: rest) ++ t).
    rewrite (@parse_member_frame _ _ _ t Ha). cbn [bind].
    rewrite (@skip_char_frame _ _ _ t Ha0). cbn [bind].
    assert (Hr3 : r3 <> []).
    { intros ->. apply parse_object_loop_nil in H. subst r.
      contradiction Hr. reflexivity. }
    rewrite (IHv _ _ _ t Ha1 (or_introl Hr3)). cbn [bind].
    rewrite Ha2. cbn [bind]. exact (IHol _ _ _ _ t H Hr).
  - destruct (x =? 125); [injection H as <- <-; reflexivity |].
    destruct (x =? 44); [| discriminate].
    unfold get_next_non_space in *.
    change (x :: rest ++ t) with ((x :: rest) ++ t).
    rewrite skip_space_frame by (rewrite Hidem; discriminate).
    rewrite Hidem in *. cbn [app get] in *. exact (IHol _ _ _ _ t H Hr).
Qed.

Lemma parser_frame fuel :
  (forall s v r t, parse_value fuel s = Ok (v, r) ->
     r <> [] \/ type v = t_string \/ type v = t_array \/ type v = t_object ->
     parse_value fuel (s ++ t) = Ok (v, r ++ t)) /\
  (forall s v r t, parse_array fuel s = Ok (v, r) ->
     parse_array fuel (s ++ t) = Ok (v, r ++ t)) /\
  (forall acc s l r t, parse_array_loop fuel acc s = Ok (l, r) ->
     skip_space r <> [] ->
     parse_array_loop fuel acc (s ++ t) = Ok (l, r ++ t)) /\
  (forall s v r t, parse_object fuel s = Ok (v, r) ->
     parse_object fuel (s ++ t) = Ok (v, r ++ t)) /\
  (forall o s v r t, parse_object_loop fuel o s = Ok (v, r) ->
     skip_space r <> [] ->
     parse_object_loop fuel o (s ++ t) = Ok (v, r ++ t)).
Proof.
  induction fuel as [| fuel (IHv & IHa & IHal & IHo & IHol)].
  - split; [| split; [| split; [| split]]]; try (intros; discriminate).
    intros o s v r t H Hr.
    rewrite parse_object_loop_eqn in H. rewrite parse_object_loop_eqn.
    unfold peek_next_non_space in *.
    destruct (skip_space s) as [| x rest] eqn:Es.
    { simpl in H. injection H as _ <-. contradiction Hr. reflexivity. }
    rewrite skip_space_frame by (rewrite Es; discriminate).
    rewrite Es. cbn [app peek] in *.
    destruct (negb (x =? EOF)); [discriminate |].
    injection H as <- <-. reflexivity.
  - split; [| split; [| split; [| split]]].
    + intros s v r t H Hr.
      pose proof (@parse_value_nonempty _ _ _ _ H) as Hs.
      rewrite parse_value_S in H. rewrite parse_value_S.
      unfold peek_next_non_space in *.
      rewrite (@skip_space_frame _ t Hs), (@peek_app _ t Hs).
      destruct (peek (skip_space s) =? 34);
        [exact (@parse_string_frame _ _ _ t H) |].
      destruct (peek (skip_space s) =? 91); [exact (IHa _ _ _ t H) |].
      destruct (isdigit (peek (skip_space s)) || (peek (skip_space s) =? 45)
                || (peek (skip_space s) =? 46)).
      { apply parse_number_frame; [exact H |].
        destruct (@parse_number_kind _ _ _ H) as [K | K];
          destruct Hr as [Hr | [Hr | [Hr | Hr]]]; congruence. }
      destruct (peek (skip_space s) =? 123); [exact (IHo _ _ _ t H) |].
      destruct ((peek (skip_space s) =? 84) || (peek (skip_space s) =? 116)
                || (peek (skip_space s) =? 70) || (peek (skip_space s) =? 102)).
      { apply parse_bool_frame; [exact H |].
        pose proof (@parse_bool_kind _ _ _ H) as K.
        destruct Hr as [Hr | [Hr | [Hr | Hr]]]; congruence. }
      destruct ((peek (skip_space s) =? 110) || (peek (skip_space s) =? 78));
        [| discriminate].
      apply parse_null_frame; [exact H |].
      pose proof (@parse_null_kind _ _ _ H) as K.
      destruct Hr as [Hr | [Hr | [Hr | Hr]]]; congruence.
    + intros s v r t H.
      rewrite parse_array_S in H. rewrite parse_array_S.
      inv_bind H. rewrite (@skip_char_frame _ _ _ t Ha). cbn [bind].
      unfold peek_next_non_space in *.
      destruct (peek (skip_space a) =? 93) eqn:E.
      * assert (Hs : skip_space a <> []).
        { apply N.eqb_eq in E. apply (peek_not_EOF_nonempty E). discriminate. }
        rewrite (@skip_space_frame _ t Hs), (@peek_app _ t Hs), E.
        inv_bind H. injection H as <- <-.
        rewrite (@skip_char_frame _ _ _ t Ha0). reflexivity.
      * inv_bind H. destruct a0 as [l r1]. inv_bind H. inv_bind H.
        injection H as <- <-.
        assert (Hs : skip_space a <> []).
        { pose proof (@parse_array_loop_nonempty _ _ _ _ _ Ha0) as N0.
          rewrite skip_space_idem in N0. exact N0. }
        rewrite (@skip_space_frame _ t Hs), (@peek_app _ t Hs), E.
        assert (Hr1 : skip_space r1 <> []).
        { apply skip_char_ok in Ha1 as [E1 _]. rewrite E1. discriminate. }
        rewrite (IHal _ _ _ _ t Ha0 Hr1). cbn [bind].
        rewrite (@skip_char_frame _ _ _ t Ha1). cbn [bind].
        rewrite Ha2. reflexivity.
    + intros acc s l r t H Hr.
      rewrite parse_array_loop_S in H. rewrite parse_array_loop_S.
      inv_bind H. destruct a as [elem r1]. inv_bind H.
      unfold peek_next_non_space in *.
      destruct (skip_space r1) as [| x rest] eqn:Er1.
      { simpl in H. injection H as _ <-. contradiction Hr. reflexivity. }
      assert (Hn : r1 <> []) by (intros ->; discriminate Er1).
      rewrite (IHv _ _ _ t Ha (or_introl Hn)). cbn [bind].
      rewrite Ha0. cbn [bind].
      rewrite skip_space_frame by (rewrite Er1; discriminate).
      rewrite Er1. cbn [app peek] in *.
      destruct (x =? 44).
      * inv_bind H.
        change (x :: rest ++ t) with ((x :: rest) ++ t).
        rewrite (@skip_char_frame _ _ _ t Ha1). cbn [bind].
        exact (IHal _ _ _ _ t H Hr).
      * destruct (x =? 93); [injection H as <- <-; reflexivity |].
        destruct (negb (x =? EOF)); [| injection H as <- <-; reflexivity].
        exact (IHal _ _ _ _ t H Hr).
    + intros s v r t H.
      rewrite parse_object_S in H. rewrite parse_object_S.
      inv_bind H. inv_bind H. destruct a0 as [o r1]. inv_bind H.
      injection H as <- <-.
      rewrite (@skip_char_frame _ _ _ t Ha). cbn [bind].
      assert (Hr1 : skip_space r1 <> []).
      { apply skip_char_ok in Ha1 as [E1 _]. rewrite E1. discriminate. }
      rewrite (IHol _ _ _ _ t Ha0 Hr1). cbn [bind].
      rewrite (@skip_char_frame _ _ _ t Ha1). reflexivity.
    + exact (@object_loop_frame fuel IHv IHol).
Qed.

(** X25. The value that [parse_value] reads and the input that it leaves do
    not depend on what follows them in the stream: a string, an array or an
    object is read in the same way whatever comes after it, and so is a
    number, a boolean or [null] that the input does not end (the token of
    such a scalar runs to the next delimiter). *)
Theorem parse_value_is_local
  (fuel : nat) (s r t : u32_istream) (v : json) :
  parse_value fuel s = Ok (v, r) ->
  r <> [] \/ type v = t_string \/ type v = t_array \/ type v = t_object ->
  parse_value fuel (s ++ t) = Ok (v, r ++ t).
Proof. intros H Hr. exact (proj1 (parser_frame fuel) _ _ _ t H Hr). Qed.

Lemma parse_value_is_local_witness :
  parse_value 20 (J "[1,'a'] ,2" ++ U "xyz")
  = Ok (JArray [JInteger 1; JString (U "a")], U " ,2" ++ U "xyz").
Proof.
  apply (@parse_value_is_local 20 (J "[1,'a'] ,2") (U " ,2") (U "xyz")).
  - vm_compute. reflexivity.
  - left. discriminate.
Defined.

(** ** What a production leaves is a suffix of the input *)

Lemma is_suffix_refl s : is_suffix s s.
Proof. exists []. reflexivity. Qed.

Lemma is_suffix_trans a b c : is_suffix a b -> is_suffix b c -> is_suffix a c.
Proof.
  intros [p ->] [q ->]. exists (q ++ p). rewrite app_assoc. reflexivity.
Qed.

Lemma is_suffix_cons c s : is_suffix s (c :: s).
Proof. exists [c]. reflexivity. Qed.

Lemma skip_space_suffix s : is_suffix (skip_space s) s.
Proof.
  induction s as [| c s IH]; cbn [skip_space]; [apply is_suffix_refl |].
  destruct (negb (c =? EOF) && isspace c); [| apply is_suffix_refl].
  exact (is_suffix_trans IH (is_suffix_cons c s)).
Qed.

Lemma skip_char_suffix s e s' : skip_char s e = Ok s' -> is_suffix s' s.
Proof.
  intros H. apply skip_char_ok in H as [E _].
  apply (@is_suffix_trans _ (skip_space s)); [| apply skip_space_suffix].
  rewrite E. apply is_suffix_cons.
Qed.

Lemma get_suffix s : is_suffix (snd (get s)) s.
Proof. destruct s; [apply is_suffix_refl | apply is_suffix_cons]. Qed.

Lemma parse_hex_loop_suffix i : forall cs s cs' r,
  parse_hex_loop i cs s = Ok (cs', r) -> is_suffix r s.
Proof.
  induction i as [| i IH]; intros cs s cs' r; cbn [parse_hex_loop].
  - intros H. injection H as _ <-. apply is_suffix_refl.
  - pose proof (get_suffix s) as G. destruct (get s) as [c s1]. cbn [snd] in G.
    destruct (negb (c =? EOF) && isxdigit c); [| discriminate].
    intros H. exact (is_suffix_trans (IH _ _ _ _ H) G).
Qed.

Lemma escape_char_suffix s c r : escape_char s = Ok (c, r) -> is_suffix r s.
Proof.
  unfold escape_char. intros H. inv_bind H.
  apply skip_char_suffix in Ha.
  apply (@is_suffix_trans _ a); [| exact Ha].
  pose proof (get_suffix a) as G. destruct (get a) as [x a1]. cbn [snd] in G.
  repeat match type of H with
         | (if ?b then Ok _ else _) = _ =>
             destruct b; [injection H as _ <-; exact G |]
         end.
  destruct (x =? 117); [| discriminate].
  unfold parse_hex in H. inv_bind H. destruct a0 as [cs r0].
  injection H as _ <-.
  exact (is_suffix_trans (@parse_hex_loop_suffix _ _ _ _ _ Ha0) G).
Qed.

Lemma quoted_loop_suffix fuel : forall val s val' r,
  quoted_loop fuel val s = Ok (val', r) -> is_suffix r s.
Proof.
  induction fuel as [| fuel IH]; intros val s val' r H;
    rewrite quoted_loop_eqn in H;
    destruct (negb (peek s =? EOF) && negb (peek s =? 34));
    try discriminate; try (injection H as _ <-; apply is_suffix_refl).
  destruct (peek s =? 92).
  - inv_bind H. destruct a as [e r0].
    exact (is_suffix_trans (IH _ _ _ _ H) (@escape_char_suffix _ _ _ Ha)).
  - pose proof (get_suffix s) as G. destruct (get s) as [c s1]. cbn [snd] in G.
    exact (is_suffix_trans (IH _ _ _ _ H) G).
Qed.

Lemma parse_string_suffix s v r : parse_string s = Ok (v, r) -> is_suffix r s.
Proof.
  unfold parse_string. intros H. inv_bind H. inv_bind H.
  destruct a0 as [val r1]. inv_bind H. inv_bind H. injection H as _ <-.
  exact (is_suffix_trans (@skip_char_suffix _ _ _ Ha1)
           (is_suffix_trans (@quoted_loop_suffix _ _ _ _ _ Ha0)
              (@skip_char_suffix _ _ _ Ha))).
Qed.

Lemma parse_member_suffix s k r : parse_member s = Ok (k, r) -> is_suffix r s.
Proof.
  unfold parse_member. intros H. inv_bind H. inv_bind H.
  destruct a0 as [val r1]. inv_bind H. inv_bind H. injection H as _ <-.
  exact (is_suffix_trans (@skip_char_suffix _ _ _ Ha1)
           (is_suffix_trans (@quoted_loop_suffix _ _ _ _ _ Ha0)
              (@skip_char_suffix _ _ _ Ha))).
Qed.

Lemma token_loop_suffix f s : forall acc tok r,
  token_loop f acc s = (tok, r) -> is_suffix r s.
Proof.
  induction s as [| c s IH]; intros acc tok r; cbn [token_loop].
  - intros H. injection H as _ <-. apply is_suffix_refl.
  - destruct (negb (c =? EOF) && negb (c =? 44) && negb (c =? 125)
              && negb (c =? 93)).
    + intros H. exact (is_suffix_trans (IH _ _ _ H) (is_suffix_cons c s)).
    + intros H. injection H as _ <-. apply is_suffix_refl.
Qed.

Lemma parse_number_suffix s v r : parse_number s = Ok (v, r) -> is_suffix r s.
Proof.
  unfold parse_number.
  destruct (token_loop (fun c => c) [] s) as [tok r0] eqn:E. intros H.
  apply token_loop_suffix in E. inv_bind H.
  destruct (find_first_not_of integer_chars (trim a)); inv_bind H;
    injection H as _ <-; exact E.
Qed.

Lemma parse_bool_suffix s v r : parse_bool s = Ok (v, r) -> is_suffix r s.
Proof.
  unfold parse_bool.
  destruct (token_loop tolower [] s) as [tok r0] eqn:E. intros H.
  apply token_loop_suffix in E. inv_bind H. inv_bind H.
  injection H as _ <-. exact E.
Qed.

Lemma parse_null_suffix s v r : parse_null s = Ok (v, r) -> is_suffix r s.
Proof.
  unfold parse_null.
  destruct (token_loop tolower [] s) as [tok r0] eqn:E. intros H.
  apply token_loop_suffix in E. inv_bind H.
  destruct (string_eqb (trim a) (U "null")); [| discriminate].
  injection H as _ <-. exact E.
Qed.

Lemma parser_suffix fuel :
  (forall s v r, parse_value fuel s = Ok (v, r) -> is_suffix r s) /\
  (forall s v r, parse_array fuel s = Ok (v, r) -> is_suffix r s) /\
  (forall acc s l r, parse_array_loop fuel acc s = Ok (l, r) ->
                     is_suffix r s) /\
  (forall s v r, parse_object fuel s = Ok (v, r) -> is_suffix r s) /\
  (forall o s v r, parse_object_loop fuel o s = Ok (v, r) -> is_suffix r s).
Proof.
  induction fuel as [| fuel (IHv & IHa & IHal & IHo & IHol)].
  - split; [| split; [| split; [| split]]]; try (intros; discriminate).
    intros o s v r H. rewrite parse_object_loop_eqn in H.
    unfold peek_next_non_space in H.
    destruct (negb (peek (skip_space s) =? EOF)); [discriminate |].
    injection H as _ <-. apply skip_space_suffix.
  - split; [| split; [| split; [| split]]].
    + intros s v r H. rewrite parse_value_S in H.
      unfold peek_next_non_space in H.
      apply (@is_suffix_trans _ (skip_space s)); [| apply skip_space_suffix].
      destruct (peek (skip_space s) =? 34);
        [exact (@parse_string_suffix _ _ _ H) |].
      destruct (peek (skip_space s) =? 91); [exact (IHa _ _ _ H) |].
      destruct (isdigit (peek (skip_space s)) || (peek (skip_space s) =? 45)
                || (peek (skip_space s) =? 46));
        [exact (@parse_number_suffix _ _ _ H) |].
      destruct (peek (skip_space s) =? 123); [exact (IHo _ _ _ H) |].
      destruct ((peek (skip_space s) =? 84) || (peek (skip_space s) =? 116)
                || (peek (skip_space s) =? 70) || (peek (skip_space s) =? 102));
        [exact (@parse_bool_suffix _ _ _ H) |].
      destruct ((peek (skip_space s) =? 110) || (peek (skip_space s) =? 78));
        [exact (@parse_null_suffix _ _ _ H) | discriminate].
    + intros s v r H. rewrite parse_array_S in H. inv_bind H.
      apply skip_char_suffix in Ha.
      apply (@is_suffix_trans _ a); [| exact Ha].
      unfold peek_next_non_space in H.
      apply (@is_suffix_trans _ (skip_space a)); [| apply skip_space_suffix].
      destruct (peek (skip_space a) =? 93).
      * inv_bind H. injection H as _ <-. exact (@skip_char_suffix _ _ _ Ha0).
      * inv_bind H. destruct a0 as [l r1]. inv_bind H. inv_bind H.
        injection H as _ <-.
        exact (is_suffix_trans (@skip_char_suffix _ _ _ Ha1) (IHal _ _ _ _ Ha0)).
    + intros acc s l r H. rewrite parse_array_loop_S in H.
      inv_bind H. destruct a as [elem r1]. inv_bind H.
      apply IHv in Ha. apply (@is_suffix_trans _ r1); [| exact Ha].
      unfold peek_next_non_space in H.
      apply (@is_suffix_trans _ (skip_space r1)); [| apply skip_space_suffix].
      destruct (peek (skip_space r1) =? 44).
      * inv_bind H.
        exact (is_suffix_trans (IHal _ _ _ _ H) (@skip_char_suffix _ _ _ Ha1)).
      * destruct (peek (skip_space r1) =? 93);
          [injection H as _ <-; apply is_suffix_refl |].
        destruct (negb (peek (skip_space r1) =? EOF));
          [exact (IHal _ _ _ _ H) | injection H as _ <-; apply is_suffix_refl].
    + intros s v r H. rewrite parse_object_S in H.
      inv_bind H. inv_bind H. destruct a0 as [o r1]. inv_bind H.
      injection H as _ <-.
      exact (is_suffix_trans (@skip_char_suffix _ _ _ Ha1)
               (is_suffix_trans (IHol _ _ _ _ Ha0) (@skip_char_suffix _ _ _ Ha))).
    + intros o s v r H. rewrite parse_object_loop_eqn in H.
      unfold peek_next_non_space in H.
      apply (@is_suffix_trans _ (skip_space s)); [| apply skip_space_suffix].
      destruct (negb (peek (skip_space s) =? EOF));
        [| injection H as _ <-; apply is_suffix_refl].
      destruct (peek (skip_space s) =? 34).
      * inv_bind H. destruct a as [member r1]. inv_bind H. inv_bind H.
        destruct a0 as [mv r3]. inv_bind H.
        exact (is_suffix_trans (IHol _ _ _ _ H)
                 (is_suffix_trans (IHv _ _ _ Ha1)
                    (is_suffix_trans (@skip_char_suffix _ _ _ Ha0)
                       (@parse_member_suffix _ _ _ Ha)))).
      * destruct (peek (skip_space s) =? 125);
          [injection H as _ <-; apply is_suffix_refl |].
        destruct (peek (skip_space s) =? 44); [| discriminate].
        unfold get_next_non_space in H.
        pose proof (get_suffix (skip_space (skip_space s))) as G.
        destruct (get (skip_space (skip_space s))) as [c r1]. cbn [snd] in G.
        exact (is_suffix_trans (IHol _ _ _ _ H)
                 (is_suffix_trans G (skip_space_suffix _))).
Qed.

(** ** More fuel *)

Lemma parser_fuel_S fuel :
  (forall s x, parse_value fuel s = Ok x -> parse_value (S fuel) s = Ok x) /\
  (forall s x, parse_array fuel s = Ok x -> parse_array (S fuel) s = Ok x) /\
  (forall acc s x, parse_array_loop fuel acc s = Ok x ->
                   parse_array_loop (S fuel) acc s = Ok x) /\
  (forall s x, parse_object fuel s = Ok x -> parse_object (S fuel) s = Ok x) /\
  (forall o s x, parse_object_loop fuel o s = Ok x ->
                 parse_object_loop (S fuel) o s = Ok x).
Proof.
  induction fuel as [| fuel (IHv & IHa & IHal & IHo & IHol)].
  - split; [| split; [| split; [| split]]]; try (intros; discriminate).
    intros o s x H. rewrite parse_object_loop_eqn in H.
    rewrite parse_object_loop_eqn.
    destruct (peek_next_non_space s) as [c r].
    destruct (negb (c =? EOF)); [discriminate | exact H].
  - split; [| split; [| split; [| split]]].
    + intros s x H. rewrite parse_value_S in H. rewrite parse_value_S.
      destruct (peek_next_non_space s) as [c r].
      destruct (c =? 34); [exact H |].
      destruct (c =? 91); [exact (IHa _ _ H) |].
      destruct (isdigit c || (c =? 45) || (c =? 46)); [exact H |].
      destruct (c =? 123); [exact (IHo _ _ H) |]. exact H.
    + intros s x H. rewrite parse_array_S in H. rewrite parse_array_S.
      inv_bind H. rewrite Ha. cbn [bind].
      destruct (peek_next_non_space a) as [c r].
      destruct (c =? 93); [exact H |].
      inv_bind H. rewrite (IHal _ _ _ Ha0). exact H.
    + intros acc s x H. rewrite parse_array_loop_S in H.
      rewrite parse_array_loop_S.
      inv_bind H. rewrite (IHv _ _ Ha). cbn [bind]. destruct a as [elem r1].
      inv_bind H. rewrite Ha0. cbn [bind].
      destruct (peek_next_non_space r1) as [c r].
      destruct (c =? 44).
      * inv_bind H. rewrite Ha1. cbn [bind]. exact (IHal _ _ _ H).
      * destruct (c =? 93); [exact H |].
        destruct (negb (c =? EOF)); [exact (IHal _ _ _ H) | exact H].
    + intros s x H. rewrite parse_object_S in H. rewrite parse_object_S.
      inv_bind H. rewrite Ha. cbn [bind].
      inv_bind H. rewrite (IHol _ _ _ Ha0). exact H.
    + intros o s x H. rewrite parse_object_loop_eqn in H.
      rewrite parse_object_loop_eqn.
      destruct (peek_next_non_space s) as [c r].
      destruct (negb (c =? EOF)); [| exact H].
      destruct (c =? 34).
      * inv_bind H. rewrite Ha. cbn [bind]. destruct a as [member r1].
        inv_bind H. rewrite Ha0. cbn [bind].
        inv_bind H. rewrite (IHv _ _ Ha1). cbn [bind].
        destruct a0 as [mv r3]. inv_bind H. rewrite Ha2. cbn [bind].
        exact (IHol _ _ _ H).
      * destruct (c =? 125); [exact H |].
        destruct (c =? 44); [| exact H].
        destruct (get_next_non_space r) as [c' r']. exact (IHol _ _ _ H).
Qed.

Lemma parse_array_fuel fuel fuel' s x :
  (fuel <= fuel')%nat -> parse_array fuel s = Ok x -> parse_array fuel' s = Ok x.
Proof.
  induction 1 as [| n _ IH]; [trivial |].
  intros H. apply (parser_fuel_S n), IH, H.
Qed.

Lemma parse_object_fuel fuel fuel' s x :
  (fuel <= fuel')%nat ->
  parse_object fuel s = Ok x -> parse_object fuel' s = Ok x.
Proof.
  induction 1 as [| n _ IH]; [trivial |].
  intros H. apply (parser_fuel_S n), IH, H.
Qed.

Lemma skip_space_app_nil r t :
  skip_space r = [] -> skip_space (r ++ t) = skip_space t.
Proof.
  induction r as [| c r IH]; cbn [skip_space app]; [reflexivity |].
  destruct (negb (c =? EOF) && isspace c); [exact IH | discriminate].
Qed.

Lemma is_suffix_valid r s :
  is_suffix r s -> valid_text s = true -> valid_text r = true.
Proof.
  intros [p ->]. unfold valid_text. rewrite forallb_app.
  intros H. apply andb_true_iff in H as [_ H]. exact H.
Qed.

Lemma valid_peek_EOF r :
  valid_text r = true -> peek r = EOF -> r = [].
Proof.
  destruct r as [| c r]; [reflexivity |]. unfold valid_text. cbn [forallb peek].
  intros H E. apply andb_true_iff in H as [H _]. apply N.leb_le in H.
  subst c. unfold EOF in H. lia.
Qed.

(** X26. No document is the beginning of another one. When [parse] returns a
    value for a text (of code points in the Unicode range), it returns the
    same value for the text followed by white space, and it throws "invalid
    json format" for the text followed by anything that holds a code point
    other than white space. *)
Theorem parse_then_more (s t : u32string) (v : json) :
  valid_text s = true -> parse s = Ok v ->
  (forallb isspace t = true -> parse (s ++ t) = Ok v)
  /\ (skip_space t <> [] -> valid_text t = true ->
      parse (s ++ t) = Throw (runtime_error (U "invalid json format"))).
Proof.
  intros Hv H. unfold parse, peek_next_non_space in H. inv_bind H.
  destruct a as [root rest].
  destruct (negb (peek (skip_space rest) =? EOF)) eqn:Eend; [discriminate |].
  injection H as ->. apply negb_false_iff, N.eqb_eq in Eend.
  assert (Hs : skip_space s <> []).
  { intros E. rewrite E in Ha. simpl in Ha. discriminate. }
  assert (Hroot :
            (if peek (skip_space s) =? 123
             then parse_object (fuel_for (skip_space s ++ t))
                    (skip_space s ++ t)
             else if peek (skip_space s) =? 91
                  then parse_array (fuel_for (skip_space s ++ t))
                         (skip_space s ++ t)
                  else Throw (runtime_error (U "invalid json format")))
            = Ok (v, rest ++ t)).
  { assert (Hf : (fuel_for (skip_space s) <= fuel_for (skip_space s ++ t))%nat).
    { unfold fuel_for. rewrite length_app. lia. }
    destruct (peek (skip_space s) =? 123).
    - apply (parser_frame _), (@parse_object_fuel _ _ _ _ Hf), Ha.
    - destruct (peek (skip_space s) =? 91); [| discriminate].
      apply (parser_frame _), (@parse_array_fuel _ _ _ _ Hf), Ha. }
  assert (Hrest : skip_space rest = []).
  { apply valid_peek_EOF; [| exact Eend].
    apply (@is_suffix_valid _ s); [| exact Hv].
    apply (@is_suffix_trans _ rest); [apply skip_space_suffix |].
    apply (@is_suffix_trans _ (skip_space s)); [| apply skip_space_suffix].
    destruct (peek (skip_space s) =? 123);
      [exact (proj1 (proj2 (proj2 (proj2 (parser_suffix _)))) _ _ _ Ha) |].
    destruct (peek (skip_space s) =? 91); [| discriminate].
    exact (proj1 (proj2 (parser_suffix _)) _ _ _ Ha). }
  unfold parse, peek_next_non_space.
  rewrite (@skip_space_frame _ t Hs), (@peek_app _ t Hs), Hroot. cbn [bind].
  rewrite (@skip_space_app_nil _ t Hrest).
  split.
  - intros Ht. rewrite (@skip_space_all_space _ Ht). reflexivity.
  - intros Ht Hvt.
    destruct (N.eqb_spec (peek (skip_space t)) EOF) as [E |]; [| reflexivity].
    contradiction Ht. apply valid_peek_EOF; [| exact E].
    exact (@is_suffix_valid _ _ (skip_space_suffix t) Hvt).
Qed.

Lemma parse_then_more_witness :
  parse (J "{'a':[1]}" ++ [32; 10]) = Ok (JObject [(U "a", JArray [JInteger 1])])
  /\ parse (J "{'a':[1]}" ++ U " x")
     = Throw (runtime_error (U "invalid json format")).
Proof.
  destruct (@parse_then_more (J "{'a':[1]}") [32; 10]
              (JObject [(U "a", JArray [JInteger 1])]))
    as [H1 _]; [reflexivity | vm_compute; reflexivity |].
  destruct (@parse_then_more (J "{'a':[1]}") (U " x")
              (JObject [(U "a", JArray [JInteger 1])]))
    as [_ H2]; [reflexivity | vm_compute; reflexivity |].
  split; [apply H1; reflexivity | apply H2; [discriminate | reflexivity]].
Defined.


(** ** Documents as elements and members *)

Lemma skip_space_valid s : valid_text s = true -> valid_text (skip_space s) = true.
Proof. apply is_suffix_valid, skip_space_suffix. Qed.

Lemma document_value s v :
  document s v ->
  exists ws,
    skip_space ws = [] /\ no_invalid v = true
    /\ forall fuel t, (3 * List.length s + 5 <= fuel)%nat ->
                      parse_value fuel (s ++ t) = Ok (v, ws ++ t).
Proof.
  intros [Hv H].
  pose proof (proj1 (@parse_parsed _ _ H)) as Hn.
  unfold parse, peek_next_non_space in H. inv_bind H.
  destruct a as [root rest].
  destruct (negb (peek (skip_space rest) =? EOF)) eqn:Eend; [discriminate |].
  injection H as ->. apply negb_false_iff, N.eqb_eq in Eend.
  assert (Hs : skip_space s <> []).
  { intros E. rewrite E in Ha. simpl in Ha. discriminate. }
  assert (Hrest : skip_space rest = []).
  { apply valid_peek_EOF; [| exact Eend].
    apply (@is_suffix_valid _ s); [| exact Hv].
    apply (@is_suffix_trans _ rest); [apply skip_space_suffix |].
    apply (@is_suffix_trans _ (skip_space s)); [| apply skip_space_suffix].
    destruct (peek (skip_space s) =? 123);
      [exact (proj1 (proj2 (proj2 (proj2 (parser_suffix _)))) _ _ _ Ha) |].
    destruct (peek (skip_space s) =? 91); [| discriminate].
    exact (proj1 (proj2 (parser_suffix _)) _ _ _ Ha). }
  exists rest. split; [exact Hrest |]. split; [exact Hn |].
  intros fuel t Hf. destruct fuel as [| fuel]; [lia |].
  rewrite parse_value_S. unfold peek_next_non_space.
  rewrite (@skip_space_frame _ t Hs), (@peek_app _ t Hs).
  assert (Hf' : (fuel_for (skip_space s) <= fuel)%nat).
  { unfold fuel_for. pose proof (skip_space_length s). lia. }
  destruct (N.eqb_spec (peek (skip_space s)) 123) as [E | _].
  - rewrite E. cbn.
    apply (parser_frame _), (@parse_object_fuel _ _ _ _ Hf'), Ha.
  - destruct (N.eqb_spec (peek (skip_space s)) 91) as [E | _]; [| discriminate].
    rewrite E. cbn.
    apply (parser_frame _), (@parse_array_fuel _ _ _ _ Hf'), Ha.
Qed.

Lemma parse_array_loop_skip fuel acc x :
  parse_array_loop fuel acc (skip_space x) = parse_array_loop fuel acc x.
Proof.
  destruct fuel as [| [| fuel]]; [reflexivity | reflexivity |].
  rewrite !parse_array_loop_S, !parse_value_S. unfold peek_next_non_space.
  rewrite skip_space_idem. reflexivity.
Qed.

Lemma parse_object_loop_skip fuel o ws x :
  skip_space ws = [] ->
  parse_object_loop fuel o (ws ++ x) = parse_object_loop fuel o x.
Proof.
  intros H. rewrite !parse_object_loop_eqn. unfold peek_next_non_space.
  rewrite (@skip_space_app_nil _ x H). reflexivity.
Qed.

Lemma join_comma_cons (p : u32string) rest :
  join_comma (p :: rest)
  = p ++ (match rest with [] => [] | _ :: _ => [44] end) ++ join_comma rest.
Proof. reflexivity. Qed.

Lemma array_loop_documents docs : forall vs acc fuel tail,
  Forall2 document docs vs -> docs <> [] ->
  (3 * List.length (join_comma docs) + 6 <= fuel)%nat ->
  parse_array_loop fuel acc (join_comma docs ++ 93 :: tail)
  = Ok (acc ++ vs, 93 :: tail).
Proof.
  induction docs as [| s ds IH]; intros vs acc fuel tail HF Hn Hf;
    [congruence |].
  inversion HF as [| s' v ds' vs' Hd HF']; subst.
  destruct (document_value Hd) as (ws & Hws & Hnv & Hval).
  rewrite join_comma_cons in *. rewrite !length_app in Hf.
  destruct fuel as [| fuel]; [lia |].
  rewrite parse_array_loop_S, <- !app_assoc.
  rewrite Hval by lia. cbn [bind].
  rewrite (@copy_no_invalid _ Hnv). cbn [bind].
  unfold peek_next_non_space. rewrite (@skip_space_app_nil _ _ Hws).
  destruct ds as [| d ds].
  - inversion HF'; subst. cbn [app join_comma].
    rewrite skip_space_head by reflexivity. cbn [peek].
    change (93 =? 44) with false. change (93 =? 93) with true. cbv iota.
    reflexivity.
  - cbn [app]. rewrite skip_space_head by reflexivity. cbn [peek].
    change (44 =? 44) with true. cbv iota.
    rewrite skip_char_head by (discriminate || reflexivity). cbn [bind].
    rewrite IH with (vs := vs'); [rewrite <- app_assoc; reflexivity
                                 | exact HF' | discriminate |].
    cbn [List.length] in Hf. lia.
Qed.

Lemma Forall2_documents_no_invalid docs vs :
  Forall2 document docs vs -> forallb no_invalid vs = true.
Proof.
  induction 1 as [| s v ds vs' Hd _ IH]; [reflexivity |].
  cbn [forallb]. rewrite IH, andb_true_r.
  exact (proj1 (@parse_parsed _ _ (proj2 Hd))).
Qed.

Lemma document_starts s v :
  document s v ->
  skip_space s <> []
  /\ (peek (skip_space s) = 123 \/ peek (skip_space s) = 91).
Proof.
  intros [_ H]. unfold parse, peek_next_non_space in H. inv_bind H.
  destruct (N.eqb_spec (peek (skip_space s)) 123) as [E | _].
  - split; [| left; exact E]. intros N0. rewrite N0 in E. discriminate.
  - destruct (N.eqb_spec (peek (skip_space s)) 91) as [E | _]; [| discriminate].
    split; [| right; exact E]. intros N0. rewrite N0 in E. discriminate.
Qed.

(** X27. Documents nest in an array: when every text of a list is a document
    (a text, of code points in the Unicode range, for which [parse] returns
    a value), the texts joined by commas between two brackets form a
    document, and [parse] returns for it the array of the values in order. *)
Theorem array_of_documents (docs : list u32string) (vs : list json) :
  Forall2 document docs vs ->
  parse ([91] ++ join_comma docs ++ [93]) = Ok (JArray vs).
Proof.
  intros HF. destruct docs as [| s ds].
  { inversion HF; subst. vm_compute. reflexivity. }
  assert (Hs : skip_space (join_comma (s :: ds) ++ [93])
               = skip_space s ++ (match ds with [] => [] | _ :: _ => [44] end)
                   ++ join_comma ds ++ [93]
               /\ peek (skip_space (join_comma (s :: ds) ++ [93]))
                  = peek (skip_space s)
               /\ (peek (skip_space s) =? 93) = false).
  { inversion HF as [| s' v ds' vs' Hd HF']; subst.
    destruct (document_starts Hd) as [Hne Hp].
    rewrite join_comma_cons, <- !app_assoc.
    rewrite (@skip_space_frame _ _ Hne), (@peek_app _ _ Hne).
    split; [reflexivity |]. split; [reflexivity |].
    destruct Hp as [-> | ->]; reflexivity. }
  destruct Hs as (Hs & Hp & H93).
  unfold parse, peek_next_non_space. cbn [app].
  rewrite skip_space_head by reflexivity. cbn [peek].
  change (91 =? 123) with false. change (91 =? 91) with true. cbv iota.
  unfold fuel_for. cbn [List.length]. rewrite Nat.mul_succ_r, Nat.add_succ_r.
  rewrite parse_array_S.
  rewrite skip_char_head by (discriminate || reflexivity). cbn [bind].
  unfold peek_next_non_space. rewrite Hp, H93.
  rewrite parse_array_loop_skip.
  rewrite (@array_loop_documents (s :: ds) vs [] _ [] HF)
    by (try discriminate; rewrite !length_app; cbn [List.length]; lia).
  cbn [bind app].
  rewrite skip_char_head by (discriminate || reflexivity). cbn [bind].
  rewrite (copy_array_no_invalid _ (Forall2_documents_no_invalid HF)).
  reflexivity.
Qed.

Lemma array_of_documents_witness :
  parse ([91] ++ join_comma [J "{'a':1}"; U " [true] "; U "[]"] ++ [93])
  = Ok (JArray [JObject [(U "a", JInteger 1)]; JArray [JBoolean true];
                JArray []]).
Proof.
  apply array_of_documents.
  repeat (constructor; [split; vm_compute; reflexivity |]). constructor.
Defined.

Lemma object_loop_documents members : forall vs o fuel tail,
  Forall2 (fun m v => plain_string (fst m) = true /\ document (snd m) v)
          members vs ->
  (exists m0, o = JObject m0) ->
  (3 * List.length (join_comma (map member_document members)) + 4 <= fuel)%nat ->
  parse_object_loop fuel o
    (join_comma (map member_document members) ++ 125 :: tail)
  = (o' <- add_members o (combine (map fst members) vs) ;;
     Ok (o', 125 :: tail)).
Proof.
  induction members as [| [k s] ms IH]; intros vs o fuel tail HF Ho Hf.
  - inversion HF; subst. cbn [map join_comma app combine add_members bind].
    destruct fuel as [| fuel]; [lia |].
    rewrite parse_object_loop_eqn. unfold peek_next_non_space.
    rewrite skip_space_head by reflexivity. reflexivity.
  - inversion HF as [| m' v ms' vs' [Hk Hd] HF']; subst. cbn [fst snd] in *.
    destruct (document_value Hd) as (ws & Hws & Hnv & Hval).
    destruct Ho as [m0 ->].
    assert (Hm : List.length (member_document (k, s))
                 = (List.length k + List.length s + 3)%nat).
    { unfold member_document. cbn [fst snd]. rewrite !length_app.
      simpl. lia. }
    cbn [map] in Hf. rewrite join_comma_cons, !length_app, Hm in Hf.
    cbn [map]. rewrite join_comma_cons.
    unfold member_document at 1. cbn [fst snd].
    destruct fuel as [| fuel]; [lia |].
    rewrite parse_object_loop_eqn. unfold peek_next_non_space.
    cbn [app]. rewrite skip_space_head by reflexivity. cbn [peek].
    change (negb (34 =? EOF)) with true. change (34 =? 34) with true.
    cbv iota.
    repeat (rewrite <- app_assoc; cbn [app]).
    rewrite (@parse_member_plain k _ Hk). cbn [bind].
    rewrite skip_char_head by (discriminate || reflexivity). cbn [bind].
    rewrite Hval by lia. cbn [bind].
    rewrite (@add_member_object m0 k v Hnv). cbn [bind combine add_members].
    rewrite (@add_member_object m0 k v Hnv). cbn [bind].
    rewrite (@parse_object_loop_skip _ _ _ _ Hws).
    destruct ms as [| m ms].
    + inversion HF'; subst. cbn [map join_comma app combine add_members bind].
      destruct fuel as [| fuel]; [lia |].
      rewrite parse_object_loop_eqn. unfold peek_next_non_space.
      rewrite skip_space_head by reflexivity. reflexivity.
    + set (text := join_comma (map member_document (m :: ms))) in *.
      cbn [map app]. destruct fuel as [| fuel]; [lia |].
      rewrite parse_object_loop_eqn. unfold peek_next_non_space.
      rewrite skip_space_head by reflexivity. cbn [peek].
      change (negb (44 =? EOF)) with true. change (44 =? 34) with false.
      change (44 =? 125) with false. change (44 =? 44) with true. cbv iota.
      unfold get_next_non_space. rewrite skip_space_head by reflexivity.
      cbn [get].
      apply IH; [exact HF' | eexists; reflexivity |].
      fold text. cbn [map] in Hf.
      change (List.length [44]) with 1%nat in Hf. lia.
Qed.

(** X28. Documents nest in an object: the members [key : document], with
    keys written as they are (no double quote, backslash or control
    character), joined by commas between two braces, form a text for which
    [parse] returns the object that [add_member] builds from the empty
    object by adding the values under the keys in the order of the text. *)
Theorem object_of_documents
  (members : list (std_string * u32string)) (vs : list json) :
  Forall2 (fun m v => plain_string (fst m) = true /\ document (snd m) v)
          members vs ->
  parse ([123] ++ join_comma (map member_document members) ++ [125])
  = add_members (JObject []) (combine (map fst members) vs).
Proof.
  intros HF.
  unfold parse, peek_next_non_space. cbn [app].
  rewrite skip_space_head by reflexivity. cbn [peek].
  change (123 =? 123) with true. cbv iota.
  unfold fuel_for. cbn [List.length]. rewrite Nat.mul_succ_r, Nat.add_succ_r.
  rewrite parse_object_S.
  rewrite skip_char_head by (discriminate || reflexivity). cbn [bind].
  rewrite (@object_loop_documents members vs (JObject []) _ [] HF
             (ex_intro _ [] eq_refl))
    by (rewrite !length_app; cbn [List.length]; lia).
  destruct (add_members (JObject []) (combine (map fst members) vs))
    as [o' | e |]; reflexivity.
Qed.

Lemma object_of_documents_witness :
  parse ([123] ++ join_comma (map member_document
                                [(U "b", U "[1]"); (U "a", J "{'x':null}")])
             ++ [125])
  = add_members (JObject [])
      (combine (map fst [(U "b", U "[1]"); (U "a", J "{'x':null}")])
         [JArray [JInteger 1]; JObject [(U "x", JNull)]]).
Proof.
  apply object_of_documents.
  repeat (constructor; [split; [| split]; vm_compute; reflexivity |]).
  constructor.
Defined.
